(** * MeshOpts: display settings of a mesh overlay

    A shallow embedding of [fsleyes/displaycontext/meshopts.py]: the
    coordinate-space bookkeeping ([normaliseSpace], [transformCoords],
    [getTransform]), the bounding box kept in [bounds], the list of
    candidate reference images, and the loading of per-vertex data.

    Conventions.
    - Python exceptions are values of [exn]; a method that may raise returns
      a [result].  A method that mutates [self] before it raises returns the
      mutated state together with the outcome.
    - Numbers of the coordinate geometry (numpy [float64]) are exact
      rationals [Qc] where a statement does not depend on rounding: which
      matrix is applied, how bounds are ordered, what is stored.  No
      statement rests on a law that exact arithmetic has and [float64]
      lacks, such as associativity of the matrix product.  Where the order
      of the floating-point operations decides, the methods are read over an
      arbitrary arithmetic ([Numeric]) and run in binary64 ([Float64]).
      Per-vertex data keeps the one non-numeric value the code cares about,
      [NaN].
    - Collaborators that live outside the module (the affine library, the
      image files, the display context, the property framework) appear as
      fields of the records the methods read, or as section variables. *)

From Stdlib Require Import QArith Qcanon Qcabs.
From Corelib Require PrimFloat FloatOps.
From stdpp Require Import base option list strings gmap pretty numbers sorting functions.

Local Open Scope string_scope.
Local Open Scope nat_scope.
Local Open Scope list_scope.

(** ** Exceptions

    The exceptions a callee may raise: instances of [Exception], which is
    what the [except Exception] clause of [__vdataChanged] catches. *)

Inductive exn : Type :=
| ValueError (msg : string)
| RuntimeError
| IndexError
| KeyError (key : string)
| IOError (msg : string).

Inductive result (A : Type) : Type :=
| Ok (a : A)
| Raise (e : exn).
Arguments Ok {A} a.
Arguments Raise {A} e.

Global Instance result_ret : MRet result := λ A a, Ok a.

Global Instance result_bind : MBind result := λ A B k r,
  match r with
  | Ok a => k a
  | Raise e => Raise e
  end.

(** ** 4x4 matrices and the affine helpers *)

Module affine.

Record vec4 : Type := V4 { v0 : Qc; v1 : Qc; v2 : Qc; v3 : Qc }.
Record mat4 : Type := M4 { r0 : vec4; r1 : vec4; r2 : vec4; r3 : vec4 }.

Global Instance vec4_eq_dec : EqDecision vec4.
Proof. solve_decision. Defined.

Global Instance mat4_eq_dec : EqDecision mat4.
Proof. solve_decision. Defined.

(** A point of an Nx3 coordinate array. *)
Definition point : Type := (Qc * Qc * Qc)%type.

(** [np.eye(4)] *)
Definition eye : mat4 :=
  M4 (V4 1 0 0 0) (V4 0 1 0 0) (V4 0 0 1 0) (V4 0 0 0 1).

Definition inner (u w : vec4) : Qc :=
  (v0 u * v0 w + v1 u * v1 w + v2 u * v2 w + v3 u * v3 w)%Qc.

Definition col0 (m : mat4) : vec4 := V4 (v0 (r0 m)) (v0 (r1 m)) (v0 (r2 m)) (v0 (r3 m)).
Definition col1 (m : mat4) : vec4 := V4 (v1 (r0 m)) (v1 (r1 m)) (v1 (r2 m)) (v1 (r3 m)).
Definition col2 (m : mat4) : vec4 := V4 (v2 (r0 m)) (v2 (r1 m)) (v2 (r2 m)) (v2 (r3 m)).
Definition col3 (m : mat4) : vec4 := V4 (v3 (r0 m)) (v3 (r1 m)) (v3 (r2 m)) (v3 (r3 m)).

Definition row_dot (u : vec4) (b : mat4) : vec4 :=
  V4 (inner u (col0 b)) (inner u (col1 b)) (inner u (col2 b)) (inner u (col3 b)).

(** [np.dot] on two 4x4 matrices *)
Definition dot (a b : mat4) : mat4 :=
  M4 (row_dot (r0 a) b) (row_dot (r1 a) b) (row_dot (r2 a) b) (row_dot (r3 a) b).

(** [affine.concat(x, *xs)] is [functools.reduce(np.dot, (x,) + xs)]:
    the product is accumulated from the left. *)
Definition concat (x : mat4) (xs : list mat4) : mat4 := foldl dot x xs.

(** [affine.transform(p, xform)] on one point (not a vector): the
    upper-left 3x3 block applied to the point, plus the translation
    column.  The bottom row of [xform] is not read. *)
Definition transform1 (xform : mat4) (p : point) : point :=
  let '(x, y, z) := p in
  let ap (r : vec4) : Qc := (v0 r * x + v1 r * y + v2 r * z + v3 r)%Qc in
  (ap (r0 xform), ap (r1 xform), ap (r2 xform)).

(** [affine.transform(coords, xform)] on an Nx3 array *)
Definition transform (coords : list point) (xform : mat4) : list point :=
  map (transform1 xform) coords.

End affine.

Import affine.

(** ** Coordinate spaces *)

(** The choices of the [coordSpace] property. *)
Inductive CoordSpace : Type :=
| cs_affine | cs_pixdim | cs_pixdim_flip | cs_id | cs_torig.

Global Instance CoordSpace_eq_dec : EqDecision CoordSpace.
Proof. solve_decision. Defined.

(** The string a choice stands for in the source. *)
Definition coordSpace_str (c : CoordSpace) : string :=
  match c with
  | cs_affine => "affine"
  | cs_pixdim => "pixdim"
  | cs_pixdim_flip => "pixdim-flip"
  | cs_id => "id"
  | cs_torig => "torig"
  end.

(** The tuple tested in [normaliseSpace]. *)
Definition valid_spaces : list string :=
  ["world"; "display"; "mesh"; "voxel"; "id"].

(** ** Overlays

    An overlay object is known by its identity; [isNifti] is the outcome of
    [isinstance(overlay, fslimage.Nifti)]. *)
Record Overlay : Type := mkOverlay { oid : positive; isNifti : bool }.

Global Instance Overlay_eq_dec : EqDecision Overlay.
Proof. solve_decision. Defined.

(** ** numpy arrays of per-vertex data *)

Module np.

(** A [float64] entry: a number or the not-a-number value. *)
Inductive float64 : Type :=
| NaN
| Num (q : Qc).

Global Instance float64_eq_dec : EqDecision float64.
Proof. solve_decision. Defined.

(** An array: its [shape] and its entries in row-major order. *)
Record ndarray : Type := mkArray { shape : list nat; flat : list float64 }.

(** The entries that are numbers. *)
Definition numbers (xs : list float64) : list Qc :=
  omap (λ x, match x with Num q => Some q | NaN => None end) xs.

Definition Qcmin (a b : Qc) : Qc := if decide (a ≤ b)%Qc then a else b.
Definition Qcmax (a b : Qc) : Qc := if decide (a ≤ b)%Qc then b else a.

(** [a.min()] and [a.max()] on a non-empty array of numbers *)
Definition amin (x : Qc) (xs : list Qc) : Qc := foldl Qcmin x xs.
Definition amax (x : Qc) (xs : list Qc) : Qc := foldl Qcmax x xs.

(** [np.nanmin(a)]: a zero-size array raises [ValueError]; an array of
    NaNs only yields NaN (with a warning); otherwise the least number. *)
Definition nanmin (a : ndarray) : result float64 :=
  match flat a with
  | [] => Raise (ValueError "zero-size array to reduction operation fmin which has no identity")
  | _ =>
    match numbers (flat a) with
    | [] => Ok NaN
    | q :: qs => Ok (Num (amin q qs))
    end
  end.

(** [np.nanmax(a)] *)
Definition nanmax (a : ndarray) : result float64 :=
  match flat a with
  | [] => Raise (ValueError "zero-size array to reduction operation fmax which has no identity")
  | _ =>
    match numbers (flat a) with
    | [] => Ok NaN
    | q :: qs => Ok (Num (amax q qs))
    end
  end.

(** [a.reshape(-1, 1)] on a one-dimensional array *)
Definition reshape_column (a : ndarray) : ndarray :=
  mkArray [length (flat a); 1%nat] (flat a).

(** [np.sort] of a one-dimensional array of numbers *)
Definition sort (xs : list Qc) : list Qc := merge_sort Qcle xs.

(** [np.isclose(a, b)] with the default tolerances
    [rtol = 1e-05] and [atol = 1e-08] *)
Definition isclose (a b : Qc) : bool :=
  bool_decide (Qcabs (a - b) ≤ Q2Qc (1 # 100000000) + Q2Qc (1 # 100000) * Qcabs b)%Qc.

End np.

Import np.

(** ** The mesh overlay

    The part of the mesh class this module calls: its bounding box, its
    named vertex data sets, and the files vertex data can be loaded from.
    The shape checks the mesh class makes on the data are not modelled. *)

Record Mesh : Type := mkMesh {
  mesh_bounds : point * point;
  mesh_vertexData : gmap string ndarray;
  mesh_files : string → result ndarray
}.

Module Mesh.

(** [overlay.vertexDataSets()]: the keys of the vertex data sets *)
Definition vertexDataSets (m : Mesh) : list string :=
  (map_to_list (mesh_vertexData m)).*1.

(** [overlay.getVertexData(key)] *)
Definition getVertexData (key : string) (m : Mesh) : result ndarray :=
  match mesh_vertexData m !! key with
  | Some d => Ok d
  | None => Raise (KeyError key)
  end.

(** [overlay.addVertexData(key, data)] *)
Definition addVertexData (key : string) (data : ndarray) (m : Mesh) : Mesh :=
  mkMesh (mesh_bounds m) (<[key := data]> (mesh_vertexData m)) (mesh_files m).

(** [overlay.loadVertexData(infile)]: reads the file and keeps the data
    under the file name. *)
Definition loadVertexData (infile : string) (m : Mesh) : result (ndarray * Mesh) :=
  d ← mesh_files m infile; Ok (d, addVertexData infile d m).

End Mesh.

(** ** The state of a [MeshOpts] instance *)

Record MeshOpts : Type := mkMeshOpts {
  (** [self.name], the name under which listeners are registered *)
  name : string;
  (** [self.overlay], the mesh these options belong to *)
  overlay : Overlay;
  (** [self.__registered]: the instance has a parent, and its listeners are in place *)
  registered : bool;
  (** the [refImage] property *)
  refImage : option Overlay;
  (** the choices of [refImage] *)
  refImage_choices : list (option Overlay);
  (** the [coordSpace] property *)
  coordSpace : CoordSpace;
  (** the [bounds] property of [DisplayOpts] *)
  bounds : list Qc;
  (** [self.__oldRefImage] *)
  oldRefImage : option Overlay;
  (** the [vertexData] property *)
  vertexData : option string;
  (** the [modulateData] property *)
  modulateData : option string;
  (** the choices of [vertexData] *)
  vertexData_choices : list (option string);
  (** the choices of [modulateData] *)
  modulateData_choices : list (option string);
  (** the [vertexDataIndex] property *)
  vertexDataIndex : Z;
  (** the [maxval] attribute of [vertexDataIndex] *)
  vertexDataIndex_maxval : Z;
  (** [self.__vdata], keys ['vertex'] and ['modulate'] *)
  vdata : gmap string (option ndarray);
  (** [self.__vdataRange], same keys *)
  vdataRange : gmap string (option (float64 * float64))
}.

(** One setter for each attribute the methods assign to. *)

Definition set_refImage (v : option Overlay) (s : MeshOpts)
    : MeshOpts :=
  mkMeshOpts (name s) (overlay s) (registered s) v (refImage_choices s)
    (coordSpace s) (bounds s) (oldRefImage s) (vertexData s)
    (modulateData s) (vertexData_choices s) (modulateData_choices s)
    (vertexDataIndex s) (vertexDataIndex_maxval s) (vdata s) (vdataRange s).

Definition set_refImage_choices (v : list (option Overlay)) (s : MeshOpts)
    : MeshOpts :=
  mkMeshOpts (name s) (overlay s) (registered s) (refImage s) v
    (coordSpace s) (bounds s) (oldRefImage s) (vertexData s)
    (modulateData s) (vertexData_choices s) (modulateData_choices s)
    (vertexDataIndex s) (vertexDataIndex_maxval s) (vdata s) (vdataRange s).

Definition set_coordSpace (v : CoordSpace) (s : MeshOpts)
    : MeshOpts :=
  mkMeshOpts (name s) (overlay s) (registered s) (refImage s)
    (refImage_choices s) v (bounds s) (oldRefImage s) (vertexData s)
    (modulateData s) (vertexData_choices s) (modulateData_choices s)
    (vertexDataIndex s) (vertexDataIndex_maxval s) (vdata s) (vdataRange s).

Definition set_bounds (v : list Qc) (s : MeshOpts)
    : MeshOpts :=
  mkMeshOpts (name s) (overlay s) (registered s) (refImage s)
    (refImage_choices s) (coordSpace s) v (oldRefImage s) (vertexData s)
    (modulateData s) (vertexData_choices s) (modulateData_choices s)
    (vertexDataIndex s) (vertexDataIndex_maxval s) (vdata s) (vdataRange s).

Definition set_oldRefImage (v : option Overlay) (s : MeshOpts)
    : MeshOpts :=
  mkMeshOpts (name s) (overlay s) (registered s) (refImage s)
    (refImage_choices s) (coordSpace s) (bounds s) v (vertexData s)
    (modulateData s) (vertexData_choices s) (modulateData_choices s)
    (vertexDataIndex s) (vertexDataIndex_maxval s) (vdata s) (vdataRange s).

Definition set_vertexData (v : option string) (s : MeshOpts)
    : MeshOpts :=
  mkMeshOpts (name s) (overlay s) (registered s) (refImage s)
    (refImage_choices s) (coordSpace s) (bounds s) (oldRefImage s) v
    (modulateData s) (vertexData_choices s) (modulateData_choices s)
    (vertexDataIndex s) (vertexDataIndex_maxval s) (vdata s) (vdataRange s).

Definition set_modulateData (v : option string) (s : MeshOpts)
    : MeshOpts :=
  mkMeshOpts (name s) (overlay s) (registered s) (refImage s)
    (refImage_choices s) (coordSpace s) (bounds s) (oldRefImage s)
    (vertexData s) v (vertexData_choices s) (modulateData_choices s)
    (vertexDataIndex s) (vertexDataIndex_maxval s) (vdata s) (vdataRange s).

Definition set_vertexData_choices (v : list (option string)) (s : MeshOpts)
    : MeshOpts :=
  mkMeshOpts (name s) (overlay s) (registered s) (refImage s)
    (refImage_choices s) (coordSpace s) (bounds s) (oldRefImage s)
    (vertexData s) (modulateData s) v (modulateData_choices s)
    (vertexDataIndex s) (vertexDataIndex_maxval s) (vdata s) (vdataRange s).

Definition set_modulateData_choices (v : list (option string)) (s : MeshOpts)
    : MeshOpts :=
  mkMeshOpts (name s) (overlay s) (registered s) (refImage s)
    (refImage_choices s) (coordSpace s) (bounds s) (oldRefImage s)
    (vertexData s) (modulateData s) (vertexData_choices s) v
    (vertexDataIndex s) (vertexDataIndex_maxval s) (vdata s) (vdataRange s).

Definition set_vertexDataIndex (v : Z) (s : MeshOpts)
    : MeshOpts :=
  mkMeshOpts (name s) (overlay s) (registered s) (refImage s)
    (refImage_choices s) (coordSpace s) (bounds s) (oldRefImage s)
    (vertexData s) (modulateData s) (vertexData_choices s)
    (modulateData_choices s) v (vertexDataIndex_maxval s) (vdata s)
    (vdataRange s).

Definition set_vertexDataIndex_maxval (v : Z) (s : MeshOpts)
    : MeshOpts :=
  mkMeshOpts (name s) (overlay s) (registered s) (refImage s)
    (refImage_choices s) (coordSpace s) (bounds s) (oldRefImage s)
    (vertexData s) (modulateData s) (vertexData_choices s)
    (modulateData_choices s) (vertexDataIndex s) v (vdata s) (vdataRange s).

Definition set_vdata (v : gmap string (option ndarray)) (s : MeshOpts)
    : MeshOpts :=
  mkMeshOpts (name s) (overlay s) (registered s) (refImage s)
    (refImage_choices s) (coordSpace s) (bounds s) (oldRefImage s)
    (vertexData s) (modulateData s) (vertexData_choices s)
    (modulateData_choices s) (vertexDataIndex s) (vertexDataIndex_maxval s)
    v (vdataRange s).

Definition set_vdataRange (v : gmap string (option (float64 * float64))) (s : MeshOpts)
    : MeshOpts :=
  mkMeshOpts (name s) (overlay s) (registered s) (refImage s)
    (refImage_choices s) (coordSpace s) (bounds s) (oldRefImage s)
    (vertexData s) (modulateData s) (vertexData_choices s)
    (modulateData_choices s) (vertexDataIndex s) (vertexDataIndex_maxval s)
    (vdata s) v.

(** ** The collaborators *)

(** What a reference image offers: [ref.getAffine(from, to)] and
    [fslmgh.voxToSurfMat(ref)]. *)
Record Nifti : Type := mkNifti {
  getAffine : string → string → mat4;
  voxToSurfMat : mat4
}.

(** The overlay list: its overlays and the names of the listeners on its
    [overlays] property. *)
Record OverlayList : Type := mkOverlayList {
  overlays : list Overlay;
  overlays_listeners : gset string
}.

(** The display context: [getOrderedOverlays()], and for every overlay the
    listeners on the [name] property of its [Display], the listeners on the
    [transform] property of its [NiftiOpts], and the [getTransform] table of
    its [NiftiOpts]. *)
Record DisplayContext : Type := mkDisplayContext {
  orderedOverlays : list Overlay;
  name_listeners : Overlay → gset string;
  transform_listeners : Overlay → gset string;
  opts_getTransform : Overlay → string → string → mat4
}.

(** Calls into collaborators whose effect lies outside this module. *)
Inductive Call : Type :=
| PropNotify (prop : string)
| UpdateDataRange (resetDR resetCR resetMR : bool).

Record World : Type := mkWorld {
  self : MeshOpts;
  mesh : Mesh;
  images : Overlay → Nifti;
  overlayList : OverlayList;
  displayCtx : DisplayContext;
  calls : list Call
}.

Definition upd_self (f : MeshOpts → MeshOpts) (w : World) : World :=
  mkWorld (f (self w)) (mesh w) (images w) (overlayList w) (displayCtx w) (calls w).

Definition upd_mesh (f : Mesh → Mesh) (w : World) : World :=
  mkWorld (self w) (f (mesh w)) (images w) (overlayList w) (displayCtx w) (calls w).

Definition upd_overlayList (f : OverlayList → OverlayList) (w : World) : World :=
  mkWorld (self w) (mesh w) (images w) (f (overlayList w)) (displayCtx w) (calls w).

Definition upd_displayCtx (f : DisplayContext → DisplayContext) (w : World) : World :=
  mkWorld (self w) (mesh w) (images w) (overlayList w) (f (displayCtx w)) (calls w).

Definition call (c : Call) (w : World) : World :=
  mkWorld (self w) (mesh w) (images w) (overlayList w) (displayCtx w) (calls w ++ [c])%list.

(** [addListener] and [removeListener] on a set of listener names *)
Definition addListener (name : string) (ls : gset string) : gset string := {[name]} ∪ ls.
Definition removeListener (name : string) (ls : gset string) : gset string := ls ∖ {[name]}.

(** ** The methods of [MeshOpts] *)

Section MeshOpts.

(** [affine.invert], the matrix inverse of the affine library. *)
Variable invert : mat4 → mat4.

(** [dict.get(key)] on a dictionary whose values may be [None] *)
Definition dict_get {A} (d : gmap string (option A)) (key : string) : option A :=
  default None (d !! key).

(** [MeshOpts.getDataRange] *)
Definition getDataRange (s : MeshOpts) : float64 * float64 :=
  match dict_get (vdataRange s) "vertex" with
  | None => (Num 0, Num 1)
  | Some r => r
  end.

(** [MeshOpts.getModulateRange] *)
Definition getModulateRange (s : MeshOpts) : option (float64 * float64) :=
  dict_get (vdataRange s) "modulate".

(** [MeshOpts.getVertexData(vdtype)] *)
Definition getVertexData (vdtype : string) (s : MeshOpts) : option ndarray :=
  dict_get (vdata s) vdtype.

(** [shape[1]] *)
Definition shape1 (a : ndarray) : result nat :=
  match shape a !! 1%nat with
  | Some n => Ok n
  | None => Raise IndexError
  end.

(** [MeshOpts.vertexDataLen] *)
Definition vertexDataLen (s : MeshOpts) : result nat :=
  match dict_get (vdata s) "vertex" with
  | None => Ok 0%nat
  | Some a =>
    if decide (length (shape a) = 1%nat) then Ok 1%nat
    else shape1 a
  end.

(** [MeshOpts.addVertexDataOptions] *)
Definition addVertexDataOptions (newPaths : list string) (s : MeshOpts) : MeshOpts :=
  let paths := vertexData_choices s in
  let paths := (paths ++ filter (λ p, p ∉ paths) (Some <$> newPaths))%list in
  set_modulateData_choices paths (set_vertexData_choices paths s).

(** ['{} [{}]'.format(origKey, count)] *)
Definition format_key (origKey : string) (count : nat) : string :=
  origKey +:+ " [" +:+ pretty count +:+ "]".

(** The loop of [addVertexData]: [while key in sets].  [fuel] bounds the
    number of iterations; [None] means it ran out. *)
Fixpoint uniqueKey (fuel : nat) (origKey key : string) (count : nat)
    (sets : list string) : option string :=
  if decide (key ∈ sets) then
    match fuel with
    | O => None
    | S fuel' => uniqueKey fuel' origKey (format_key origKey count) (count + 1) sets
    end
  else Some key.

(** [MeshOpts.addVertexData].  The loop gets one more iteration than
    there are data sets, which it never uses up ([uniqueKey_total]). *)
Definition addVertexData (key : string) (data : ndarray) (w : World)
    : option (string * World) :=
  let count := 1%nat in
  let origKey := key in
  let sets := Mesh.vertexDataSets (mesh w) in
  key ← uniqueKey (S (length sets)) origKey key count sets;
  let w := upd_mesh (Mesh.addVertexData key data) w in
  let w := upd_self (addVertexDataOptions [key]) w in
  Some (key, w).

(** [MeshOpts.normaliseSpace] *)
Definition normaliseSpace (s : MeshOpts) (space : string) : result string :=
  if decide (space ∉ valid_spaces) then
    Raise (ValueError ("Invalid space: " +:+ space))
  else
    let space := if decide (space = "mesh") then coordSpace_str (coordSpace s) else space in
    let space := if decide (space = "torig") then "affine" else space in
    Ok space.

(** Modelled from the spec: [NiftiOpts.transformCoords], a method of the
    reference image's display options that this file calls and does not
    define.  With the default [vround] and [vector] it applies the matrix
    of [NiftiOpts.getTransform], composed with [pre] on the right and
    [post] on the left when they are given, to the coordinates. *)
Definition NiftiOpts_transformCoords (getTransform : string → string → mat4)
    (coords : list point) (from_ to : string) (pre post : option mat4) : list point :=
  let xform := getTransform from_ to in
  let xform := match pre with Some pre => concat xform [pre] | None => xform end in
  let xform := match post with Some post => concat post [xform] | None => xform end in
  transform coords xform.

(** [MeshOpts.transformCoords], called without extra arguments *)
Definition transformCoords (w : World) (coords : list point) (from_ to : string)
    : result (list point) :=
  nfrom_ ← normaliseSpace (self w) from_;
  nto ← normaliseSpace (self w) to;
  match refImage (self w) with
  | None => Ok coords
  | Some ref =>
    let pre :=
      if decide (from_ = "mesh" ∧ coordSpace (self w) = cs_torig)
      then Some (concat (getAffine (images w ref) "voxel" "world")
                        [invert (voxToSurfMat (images w ref))])
      else None in
    let post :=
      if decide (to = "mesh" ∧ coordSpace (self w) = cs_torig)
      then Some (concat (voxToSurfMat (images w ref))
                        [getAffine (images w ref) "world" "voxel"])
      else None in
    Ok (NiftiOpts_transformCoords (opts_getTransform (displayCtx w) ref)
          coords nfrom_ nto pre post)
  end.

(** [MeshOpts.getTransform] *)
Definition getTransform (w : World) (from_ to : string) : result mat4 :=
  nfrom_ ← normaliseSpace (self w) from_;
  nto ← normaliseSpace (self w) to;
  match refImage (self w) with
  | None => Ok eye
  | Some ref =>
    let xform := opts_getTransform (displayCtx w) ref nfrom_ nto in
    let xform :=
      if decide (from_ = "mesh" ∧ coordSpace (self w) = cs_torig)
      then
        let surfToVox := invert (voxToSurfMat (images w ref)) in
        concat xform [getAffine (images w ref) "voxel" "world"; surfToVox]
      else xform in
    let xform :=
      if decide (to = "mesh" ∧ coordSpace (self w) = cs_torig)
      then
        let voxToSurf := voxToSurfMat (images w ref) in
        concat voxToSurf [getAffine (images w ref) "world" "voxel"; xform]
      else xform in
    Ok xform
  end.

(** The list of [it.product] over [zip(lo, hi)]: the eight corners of the
    box, the last axis varying fastest. *)
Definition corners (lo hi : point) : list point :=
  let '(xlo, ylo, zlo) := lo in
  let '(xhi, yhi, zhi) := hi in
  x ← [xlo; xhi]; y ← [ylo; yhi]; z ← [zlo; zhi]; [(x, y, z)].

(** [c = np.sort(column); c.min(), c.max()] *)
Definition sorted_min_max (column : list Qc) : result (Qc * Qc) :=
  match np.sort column with
  | [] => Raise (ValueError "zero-size array to reduction operation minimum which has no identity")
  | x :: xs => Ok (amin x xs, amax x xs)
  end.

(** [np.all(np.isclose(a, b))] on two lists of bounds *)
Definition all_isclose (a b : list Qc) : bool :=
  forallb (λ ab, isclose ab.1 ab.2) (zip a b).

(** [MeshOpts.__updateBounds] *)
Definition updateBounds (w : World) : result World :=
  let '(lo, hi) := mesh_bounds (mesh w) in
  xform ← getTransform w "mesh" "display";
  let bbox := transform (corners lo hi) xform in
  x ← sorted_min_max (bbox.*1.*1);
  y ← sorted_min_max (bbox.*1.*2);
  z ← sorted_min_max (bbox.*2);
  let '(xlo, xhi) := x in
  let '(ylo, yhi) := y in
  let '(zlo, zhi) := z in
  let oldBounds := bounds (self w) in
  let w := upd_self (set_bounds [xlo; xhi; ylo; yhi; zlo; zhi]) w in
  if all_isclose oldBounds (bounds (self w))
  then Ok (call (PropNotify "bounds") w)
  else Ok w.

(** [MeshOpts.__transformChanged] *)
Definition transformChanged (w : World) : result World := updateBounds w.

(** [MeshOpts.__coordSpaceChanged] *)
Definition coordSpaceChanged (w : World) : result World := updateBounds w.

(** [opts.removeListener('transform', self.name)] and
    [opts.addListener('transform', self.name, ...)] on the display options
    of [img] *)
Definition upd_transform_listeners (img : Overlay) (f : gset string → gset string)
    (dc : DisplayContext) : DisplayContext :=
  mkDisplayContext (orderedOverlays dc) (name_listeners dc)
    (<[img := f (transform_listeners dc img)]> (transform_listeners dc))
    (opts_getTransform dc).

(** [display.addListener('name', self.name, ..., overwrite=True)] on the
    display of [img] *)
Definition add_name_listener (name : string) (img : Overlay)
    (dc : DisplayContext) : DisplayContext :=
  mkDisplayContext (orderedOverlays dc)
    (<[img := addListener name (name_listeners dc img)]> (name_listeners dc))
    (transform_listeners dc) (opts_getTransform dc).

(** [MeshOpts.__refImageChanged] *)
Definition refImageChanged (w : World) : result World :=
  let w :=
    match oldRefImage (self w) with
    | Some old =>
      if decide (old ∈ overlays (overlayList w))
      then upd_displayCtx (upd_transform_listeners old (removeListener (name (self w)))) w
      else w
    | None => w
    end in
  let w := upd_self (set_oldRefImage (refImage (self w))) w in
  let w :=
    match refImage (self w) with
    | Some ref =>
      upd_displayCtx (upd_transform_listeners ref (addListener (name (self w)))) w
    | None => w
    end in
  updateBounds w.

(** The assignment [self.refImage = v].  A value equal to the current one
    notifies nobody; a new value is stored and, on an instance whose
    listeners are registered, [__refImageChanged] runs at once
    ([immediate=True]). *)
Definition assign_refImage (v : option Overlay) (w : World) : result World :=
  if decide (refImage (self w) = v) then Ok w
  else
    let w := upd_self (set_refImage v) w in
    if registered (self w) then refImageChanged w else Ok w.

(** [self.overlayList.removeListener('overlays', self.name)] *)
Definition remove_overlays_listener (name : string) (ol : OverlayList) : OverlayList :=
  mkOverlayList (overlays ol) (removeListener name (overlays_listeners ol)).

(** [MeshOpts.__overlayListChanged] *)
Definition overlayListChanged (w : World) : result World :=
  let imgVal := refImage (self w) in
  let ovls := orderedOverlays (displayCtx w) in
  if decide (overlay (self w) ∉ ovls) then
    Ok (upd_overlayList (remove_overlays_listener (name (self w))) w)
  else
    let niftis := filter (λ o, isNifti o = true) ovls in
    let imgOptions := None :: (Some <$> niftis) in
    let w := foldl (λ w o, upd_displayCtx (add_name_listener (name (self w)) o) w) w niftis in
    w ← assign_refImage (if decide (imgVal ∈ imgOptions) then imgVal else None) w;
    Ok (upd_self (set_refImage_choices imgOptions) w).

(** [dutils.makeWriteable(array)]: the same array, in memory that can be
    written to. *)
Definition makeWriteable (a : ndarray) : ndarray := a.

(** The first statement of the [try] block of [__vdataChanged]: the data
    is loaded from the file when the mesh does not have it yet (which
    also adds it to the mesh), and taken from the mesh when it has. *)
Definition vdata_load (vdfile : string) (m : Mesh) : result (ndarray * Mesh) :=
  if decide (vdfile ∉ Mesh.vertexDataSets m)
  then Mesh.loadVertexData vdfile m
  else (d ← Mesh.getVertexData vdfile m; Ok (d, m)).

(** The whole [try] block: the data of [vdfile] and its range, or the
    exception raised on the way.  What loading added to the mesh stays
    there whatever happens afterwards. *)
Definition vdata_try (vdfile : option string) (m : Mesh)
    : Mesh * result (option ndarray * option (float64 * float64)) :=
  match vdfile with
  | None => (m, Ok (None, None))
  | Some vdfile =>
    match vdata_load vdfile m with
    | Raise e => (m, Raise e)
    | Ok (data, m) =>
      (m,
       lo ← nanmin data;
       hi ← nanmax data;
       let data :=
         if decide (length (shape data) = 1%nat) then reshape_column data
         else data in
       Ok (Some (makeWriteable data), Some (lo, hi)))
    end
  end.

(** The slot a property stands for; [__vdataChanged] raises
    [RuntimeError] for any other name. *)
Definition vdata_key (name : string) : option string :=
  if decide (name = "vertexData") then Some "vertex"
  else if decide (name = "modulateData") then Some "modulate"
  else None.

(** [MeshOpts.__vdataChanged(value, valid, ctx, name)].  The result is the
    state the call leaves behind and the exception it raised, if any. *)
Definition vdataChanged (value : option string) (name : string) (w : World)
    : World * option exn :=
  match vdata_key name with
  | None => (w, Some RuntimeError)
  | Some key =>
    let '(m, r) := vdata_try value (mesh w) in
    let w := upd_mesh (λ _, m) w in
    let '(data, range) :=
      match r with
      | Ok p => p
      | Raise _ => (None, None)
      end in
    let w := upd_self (set_vdata (<[key := data]> (vdata (self w)))) w in
    let w := upd_self (set_vdataRange (<[key := range]> (vdataRange (self w)))) w in
    let indexed :=
      if decide (key = "vertex") then
        npoints ← match data with
                  | Some a => shape1 a
                  | None => Ok 1%nat
                  end;
        let w := upd_self (set_vertexDataIndex 0) w in
        Ok (upd_self (set_vertexDataIndex_maxval (Z.of_nat npoints - 1)) w)
      else Ok w in
    match indexed with
    | Raise e => (w, Some e)
    | Ok w =>
      let '(drange, mrange) :=
        if decide (key = "vertex")
        then (true, bool_decide (modulateData (self w) = None))
        else (false, true) in
      (call (UpdateDataRange drange drange mrange) w, None)
    end
  end.

End MeshOpts.

(** ** A small scene used to run the methods

    One reference image and one mesh.  The mesh vertices are Freesurfer
    surface coordinates ([coordSpace = 'torig']); the file [lh.thickness]
    holds one value per vertex, one of them NaN, and no other file can be
    read. *)

Module Example.

Definition q (z : Z) : Qc := Q2Qc (inject_Z z).

Definition translate (a b c : Z) : mat4 :=
  M4 (V4 1 0 0 (q a)) (V4 0 1 0 (q b)) (V4 0 0 1 (q c)) (V4 0 0 0 1).

Definition scale (a b c : Z) : mat4 :=
  M4 (V4 (q a) 0 0 0) (V4 0 (q b) 0 0) (V4 0 0 (q c) 0) (V4 0 0 0 1).

Definition t1 : Overlay := mkOverlay 1 true.
Definition surface : Overlay := mkOverlay 2 false.

(** The image: voxels of 2 mm, world origin at voxel (1, 2, 3). *)
Definition t1_image : Nifti :=
  mkNifti
    (λ from_ to,
       if decide (from_ = "voxel" ∧ to = "world")
       then dot (translate (-2) (-4) (-6)) (scale 2 2 2)
       else if decide (from_ = "world" ∧ to = "voxel")
       then dot (translate 1 2 3) (M4 (V4 (Q2Qc (1 # 2)) 0 0 0) (V4 0 (Q2Qc (1 # 2)) 0 0)
                                      (V4 0 0 (Q2Qc (1 # 2)) 0) (V4 0 0 0 1))
       else eye)
    (dot (translate 10 20 30) (scale (-1) 1 1)).

(** Inverse of the matrices of the scene that are inverted; the others
    are left alone. *)
Definition invert (m : mat4) : mat4 :=
  if decide (m = dot (translate 10 20 30) (scale (-1) 1 1))
  then dot (scale (-1) 1 1) (translate (-10) (-20) (-30))
  else m.

(** The table of the image's display options: the display space is the
    world space shifted by 5 along x. *)
Definition t1_getTransform (from_ to : string) : mat4 :=
  if decide (to = "display") then
    if decide (from_ = "affine" ∨ from_ = "world") then translate 5 0 0
    else if decide (from_ = "display") then eye
    else dot (translate 5 0 0) (getAffine t1_image "voxel" "world")
  else if decide (from_ = "display") then translate (-5) 0 0
  else eye.

Definition thickness : ndarray :=
  mkArray [3%nat] [Num (q 3); NaN; Num (q (-1))].

Definition files (infile : string) : result ndarray :=
  if decide (infile = "lh.thickness") then Ok thickness
  else Raise (IOError infile).

Definition opts : MeshOpts :=
  mkMeshOpts "MeshOpts_1" surface true
    (Some t1) [None; Some t1] cs_torig [0; 0; 0; 0; 0; 0]%Qc (Some t1)
    None None [None; Some "lh.thickness"] [None; Some "lh.thickness"]
    0 0 ∅ ∅.

Definition world : World :=
  mkWorld opts
    (mkMesh ((q 0, q 0, q 0), (q 1, q 2, q 3)) ∅ files)
    (λ _, t1_image)
    (mkOverlayList [t1; surface] {["MeshOpts_1"]})
    (mkDisplayContext [t1; surface] (λ _, ∅)
       (λ o, if decide (o = t1) then {["MeshOpts_1"]} else ∅)
       (λ _, t1_getTransform))
    [].

(** The same scene without a reference image. *)
Definition world_noref : World :=
  upd_self (λ s, set_oldRefImage None (set_refImage None s)) world.

(** The same scene after the image was taken out of the overlay list and
    another one put in. *)
Definition flair : Overlay := mkOverlay 3 true.

Definition world_swapped : World :=
  mkWorld opts (mesh world) (images world)
    (mkOverlayList [surface; flair] {["MeshOpts_1"]})
    (mkDisplayContext [surface; flair] (λ _, ∅)
       (λ o, if decide (o = t1) then {["MeshOpts_1"]} else ∅)
       (λ _, t1_getTransform))
    [].

(** The same scene after the mesh itself was taken out. *)
Definition world_removed : World :=
  mkWorld opts (mesh world) (images world)
    (mkOverlayList [t1] {["MeshOpts_1"; "OverlayListPanel"]})
    (mkDisplayContext [t1] (λ _, ∅)
       (λ o, if decide (o = t1) then {["MeshOpts_1"]} else ∅)
       (λ _, t1_getTransform))
    [].

(** The scene with two vertex data sets already on the mesh. *)
Definition world_data : World :=
  upd_mesh (Mesh.addVertexData "thickness [1]" thickness)
    (upd_mesh (Mesh.addVertexData "thickness" thickness) world).

End Example.

(** ** Vocabulary of the statements *)

(** The five names the docstrings of [transformCoords] and [getTransform]
    list. *)
Definition is_space_name (space : string) : Prop :=
  space = "world" ∨ space = "display" ∨ space = "mesh" ∨ space = "voxel" ∨ space = "id".

(** [p] is one of the eight corners of the box spanned by [lo] and [hi]. *)
Definition box_corner (lo hi p : point) : Prop :=
  (p.1.1 = lo.1.1 ∨ p.1.1 = hi.1.1)
  ∧ (p.1.2 = lo.1.2 ∨ p.1.2 = hi.1.2)
  ∧ (p.2 = lo.2 ∨ p.2 = hi.2).

(** [m] is the least value [axis] takes on the corners of the box after
    they went through [xform]. *)
Definition least_on_corners (lo hi : point) (xform : mat4) (axis : point → Qc)
    (m : Qc) : Prop :=
  (∃ p, box_corner lo hi p ∧ axis (transform1 xform p) = m)
  ∧ ∀ p, box_corner lo hi p → (m ≤ axis (transform1 xform p))%Qc.

(** [m] is the greatest such value. *)
Definition greatest_on_corners (lo hi : point) (xform : mat4) (axis : point → Qc)
    (m : Qc) : Prop :=
  (∃ p, box_corner lo hi p ∧ axis (transform1 xform p) = m)
  ∧ ∀ p, box_corner lo hi p → (axis (transform1 xform p) ≤ m)%Qc.

(** The [bounds] of [w] are the bounding box, in display coordinates, of
    the mesh's own bounding box: [getTransform('mesh', 'display')] returns
    a matrix, and [bounds] lists the least and greatest x, y and z over the
    eight transformed corners. *)
Definition bounds_in_sync (invert : mat4 → mat4) (w : World) : Prop :=
  ∃ xform xlo xhi ylo yhi zlo zhi,
    getTransform invert w "mesh" "display" = Ok xform
    ∧ bounds (self w) = [xlo; xhi; ylo; yhi; zlo; zhi]
    ∧ least_on_corners (mesh_bounds (mesh w)).1 (mesh_bounds (mesh w)).2 xform (λ p, p.1.1) xlo
    ∧ greatest_on_corners (mesh_bounds (mesh w)).1 (mesh_bounds (mesh w)).2 xform (λ p, p.1.1) xhi
    ∧ least_on_corners (mesh_bounds (mesh w)).1 (mesh_bounds (mesh w)).2 xform (λ p, p.1.2) ylo
    ∧ greatest_on_corners (mesh_bounds (mesh w)).1 (mesh_bounds (mesh w)).2 xform (λ p, p.1.2) yhi
    ∧ least_on_corners (mesh_bounds (mesh w)).1 (mesh_bounds (mesh w)).2 xform (λ p, p.2) zlo
    ∧ greatest_on_corners (mesh_bounds (mesh w)).1 (mesh_bounds (mesh w)).2 xform (λ p, p.2) zhi.

(** The bounds of [w'] are the ones [__updateBounds] computes when it
    runs in the state [w]: there [getTransform('mesh', 'display')] returns
    a matrix, and the bounds of [w'] list the least and greatest x, y and z
    over the eight corners of the bounding box the mesh has in [w], taken
    through that matrix. *)
Definition bounds_computed_in (invert : mat4 → mat4) (w w' : World) : Prop :=
  ∃ xform xlo xhi ylo yhi zlo zhi,
    getTransform invert w "mesh" "display" = Ok xform
    ∧ bounds (self w') = [xlo; xhi; ylo; yhi; zlo; zhi]
    ∧ least_on_corners (mesh_bounds (mesh w)).1 (mesh_bounds (mesh w)).2 xform (λ p, p.1.1) xlo
    ∧ greatest_on_corners (mesh_bounds (mesh w)).1 (mesh_bounds (mesh w)).2 xform (λ p, p.1.1) xhi
    ∧ least_on_corners (mesh_bounds (mesh w)).1 (mesh_bounds (mesh w)).2 xform (λ p, p.1.2) ylo
    ∧ greatest_on_corners (mesh_bounds (mesh w)).1 (mesh_bounds (mesh w)).2 xform (λ p, p.1.2) yhi
    ∧ least_on_corners (mesh_bounds (mesh w)).1 (mesh_bounds (mesh w)).2 xform (λ p, p.2) zlo
    ∧ greatest_on_corners (mesh_bounds (mesh w)).1 (mesh_bounds (mesh w)).2 xform (λ p, p.2) zhi.

(** What [__updateBounds] may change: the bounds, and the log of calls. *)
Definition bounds_frame (w w' : World) : Prop :=
  (∀ b, set_bounds b (self w') = set_bounds b (self w))
  ∧ mesh w' = mesh w
  ∧ images w' = images w
  ∧ overlayList w' = overlayList w
  ∧ displayCtx w' = displayCtx w.

(** What [__refImageChanged] may change: the bounds, [__oldRefImage], the
    listeners on the [transform] property of display options, and the log
    of calls. *)
Definition refImage_frame (w w' : World) : Prop :=
  (∀ b o, set_bounds b (set_oldRefImage o (self w'))
          = set_bounds b (set_oldRefImage o (self w)))
  ∧ mesh w' = mesh w
  ∧ images w' = images w
  ∧ overlayList w' = overlayList w
  ∧ orderedOverlays (displayCtx w') = orderedOverlays (displayCtx w)
  ∧ name_listeners (displayCtx w') = name_listeners (displayCtx w)
  ∧ opts_getTransform (displayCtx w') = opts_getTransform (displayCtx w).

(** An array of per-vertex data has at least the axis of the vertices;
    the mesh class hands out no other arrays. *)
Definition per_vertex (a : ndarray) : Prop := shape a ≠ [].

Definition per_vertex_mesh (m : Mesh) : Prop :=
  (∀ key a, mesh_vertexData m !! key = Some a → per_vertex a)
  ∧ (∀ infile a, mesh_files m infile = Ok a → per_vertex a).

(** What the [try] block yields, with the [except] clause applied. *)
Definition vdata_outcome (value : option string) (m : Mesh)
    : option ndarray * option (float64 * float64) :=
  match (vdata_try value m).2 with
  | Ok p => p
  | Raise _ => (None, None)
  end.

(** * The two transformation routes, with rounding

    [transformCoords] and [getTransform] multiply the same matrices, but
    not in the same order of association, and in [float64] the product of
    matrices is not associative.  To compare the two routes they are read
    here over an arbitrary arithmetic: a type of numbers with a zero, a
    one, a sum and a product of which nothing is assumed.  [Float64]
    below is the instance the program runs in. *)

Module Numeric.

Section Arithmetic.

Context {R : Type}.
Variables (zero one : R) (add mul : R → R → R).

Local Notation "a ⊕ b" := (add a b) (at level 50, left associativity).
Local Notation "a ⊗ b" := (mul a b) (at level 40, left associativity).

Record vec4 : Type := V4 { v0 : R; v1 : R; v2 : R; v3 : R }.
Record mat4 : Type := M4 { r0 : vec4; r1 : vec4; r2 : vec4; r3 : vec4 }.

(** A point of an Nx3 coordinate array. *)
Definition point : Type := (R * R * R)%type.

(** [np.eye(4)] *)
Definition eye : mat4 :=
  M4 (V4 one zero zero zero) (V4 zero one zero zero)
     (V4 zero zero one zero) (V4 zero zero zero one).

(** The sum of the four products, accumulated from the left. *)
Definition inner (u w : vec4) : R :=
  v0 u ⊗ v0 w ⊕ v1 u ⊗ v1 w ⊕ v2 u ⊗ v2 w ⊕ v3 u ⊗ v3 w.

Definition col0 (m : mat4) : vec4 := V4 (v0 (r0 m)) (v0 (r1 m)) (v0 (r2 m)) (v0 (r3 m)).
Definition col1 (m : mat4) : vec4 := V4 (v1 (r0 m)) (v1 (r1 m)) (v1 (r2 m)) (v1 (r3 m)).
Definition col2 (m : mat4) : vec4 := V4 (v2 (r0 m)) (v2 (r1 m)) (v2 (r2 m)) (v2 (r3 m)).
Definition col3 (m : mat4) : vec4 := V4 (v3 (r0 m)) (v3 (r1 m)) (v3 (r2 m)) (v3 (r3 m)).

Definition row_dot (u : vec4) (b : mat4) : vec4 :=
  V4 (inner u (col0 b)) (inner u (col1 b)) (inner u (col2 b)) (inner u (col3 b)).

(** [np.dot] on two 4x4 matrices *)
Definition dot (a b : mat4) : mat4 :=
  M4 (row_dot (r0 a) b) (row_dot (r1 a) b) (row_dot (r2 a) b) (row_dot (r3 a) b).

(** [affine.concat(x, *xs)]: the product accumulated from the left. *)
Definition concat (x : mat4) (xs : list mat4) : mat4 := foldl dot x xs.

(** [affine.transform(p, xform)] on one point *)
Definition transform1 (xform : mat4) (p : point) : point :=
  let '(x, y, z) := p in
  let ap (r : vec4) : R := v0 r ⊗ x ⊕ v1 r ⊗ y ⊕ v2 r ⊗ z ⊕ v3 r in
  (ap (r0 xform), ap (r1 xform), ap (r2 xform)).

(** [affine.transform(coords, xform)] on an Nx3 array *)
Definition transform (coords : list point) (xform : mat4) : list point :=
  map (transform1 xform) coords.

(** What a reference image offers: [ref.getAffine(from, to)] and
    [fslmgh.voxToSurfMat(ref)]. *)
Record Nifti : Type := mkNifti {
  getAffine : string → string → mat4;
  voxToSurfMat : mat4
}.

(** The display options of a reference image, [displayCtx.getOpts(ref)]:
    the two methods of [NiftiOpts] that [MeshOpts] calls.  Neither is
    defined in this module; they are whatever the object brings. *)
Record NiftiOpts : Type := mkNiftiOpts {
  opts_getTransform : string → string → mat4;
  opts_transformCoords :
    list point → string → string → option mat4 → option mat4 → list point
}.

(** [affine.invert], the matrix inverse of the affine library. *)
Variable invert : mat4 → mat4.

(** [MeshOpts.transformCoords], called without extra arguments; the
    last two arguments of [opts_transformCoords] are [pre] and [post]. *)
Definition transformCoords (s : MeshOpts) (images : Overlay → Nifti)
    (getOpts : Overlay → NiftiOpts) (coords : list point) (from_ to : string)
    : result (list point) :=
  nfrom_ ← normaliseSpace s from_;
  nto ← normaliseSpace s to;
  match refImage s with
  | None => Ok coords
  | Some ref =>
    let pre :=
      if decide (from_ = "mesh" ∧ coordSpace s = cs_torig)
      then Some (concat (getAffine (images ref) "voxel" "world")
                        [invert (voxToSurfMat (images ref))])
      else None in
    let post :=
      if decide (to = "mesh" ∧ coordSpace s = cs_torig)
      then Some (concat (voxToSurfMat (images ref))
                        [getAffine (images ref) "world" "voxel"])
      else None in
    Ok (opts_transformCoords (getOpts ref) coords nfrom_ nto pre post)
  end.

(** [MeshOpts.getTransform] *)
Definition getTransform (s : MeshOpts) (images : Overlay → Nifti)
    (getOpts : Overlay → NiftiOpts) (from_ to : string) : result mat4 :=
  nfrom_ ← normaliseSpace s from_;
  nto ← normaliseSpace s to;
  match refImage s with
  | None => Ok eye
  | Some ref =>
    let xform := opts_getTransform (getOpts ref) nfrom_ nto in
    let xform :=
      if decide (from_ = "mesh" ∧ coordSpace s = cs_torig)
      then
        let surfToVox := invert (voxToSurfMat (images ref)) in
        concat xform [getAffine (images ref) "voxel" "world"; surfToVox]
      else xform in
    let xform :=
      if decide (to = "mesh" ∧ coordSpace s = cs_torig)
      then
        let voxToSurf := voxToSurfMat (images ref) in
        concat voxToSurf [getAffine (images ref) "world" "voxel"; xform]
      else xform in
    Ok xform
  end.


End Arithmetic.

End Numeric.

(** ** binary64 *)

Module Float64.

Import PrimFloat.
Local Open Scope float_scope.

Definition float64 : Type := float.

Definition mat4 : Type := Numeric.mat4 (R := float64).
Definition point : Type := Numeric.point (R := float64).

Definition dot : mat4 → mat4 → mat4 := Numeric.dot add mul.

Definition transform : list point → mat4 → list point := Numeric.transform add mul.

Definition transformCoords (invert : mat4 → mat4) :=
  Numeric.transformCoords add mul invert.

Definition getTransform (invert : mat4 → mat4) :=
  Numeric.getTransform 0 1 add mul invert.

(** A scene of scalings: the voxels of the image are 3 mm wide, there
    are ten surface units to a voxel, and the display space is 0.7 of the
    world.  Every entry of a product of scalings is a single product of
    two numbers next to zeros, so it is the same in whatever order
    [np.dot] adds up its four terms. *)
Module Example.

(** The matrix that scales the three axes by [a]. *)
Definition scale (a : float64) : mat4 :=
  Numeric.M4 (Numeric.V4 a 0 0 0) (Numeric.V4 0 a 0 0)
             (Numeric.V4 0 0 a 0) (Numeric.V4 0 0 0 1).

(** The inverse of a scaling, each entry of the diagonal by a division. *)
Definition invert (m : mat4) : mat4 :=
  Numeric.M4
    (Numeric.V4 (1 / Numeric.v0 (Numeric.r0 m)) 0 0 0)
    (Numeric.V4 0 (1 / Numeric.v1 (Numeric.r1 m)) 0 0)
    (Numeric.V4 0 0 (1 / Numeric.v2 (Numeric.r2 m)) 0)
    (Numeric.V4 0 0 0 (1 / Numeric.v3 (Numeric.r3 m))).


(** The table of the display options. *)
Definition table (from_ to : string) : mat4 :=
  if decide (from_ = to) then Numeric.eye 0 1 else scale (7 / 10).

(** Display options whose [transformCoords] composes [pre] and [post] as
    [composes_pre_post] says. *)
Definition opts : Numeric.NiftiOpts :=
  Numeric.mkNiftiOpts table
    (λ coords from_ to pre post,
       transform coords
         (let xform := table from_ to in
          let xform := match pre with
                       | Some pre => Numeric.concat add mul xform [pre]
                       | None => xform
                       end in
          match post with
          | Some post => Numeric.concat add mul post [xform]
          | None => xform
          end)).

Definition p : point := (1, 1, 1).


End Example.

End Float64.

(** * The rest of the module *)

(** ** The initial colour *)

(** [pattern in s] on strings: [pattern] occurs somewhere in [s]. *)
Fixpoint contains (pattern s : string) : bool :=
  String.prefix pattern s
  || match s with
     | EmptyString => false
     | String _ s' => contains pattern s'
     end.

(** What [genMeshColour] returns: the colour of a label of the
    ['freesurfercolorlut'] lookup table, or a random bright colour. *)
Inductive MeshColour : Type :=
| LutColour (label : nat)
| RandomBrightColour.

(** [genMeshColour(overlay)], on [filename = str(overlay.dataSource)] *)
Definition genMeshColour (filename : string) : MeshColour :=
  if contains "L_Thal" filename then LutColour 10
  else if contains "L_Caud" filename then LutColour 11
  else if contains "L_Puta" filename then LutColour 12
  else if contains "L_Pall" filename then LutColour 13
  else if contains "BrStem" filename then LutColour 16
  else if contains "L_Hipp" filename then LutColour 17
  else if contains "L_Amyg" filename then LutColour 18
  else if contains "L_Accu" filename then LutColour 26
  else if contains "R_Thal" filename then LutColour 49
  else if contains "R_Caud" filename then LutColour 50
  else if contains "R_Puta" filename then LutColour 51
  else if contains "R_Pall" filename then LutColour 52
  else if contains "R_Hipp" filename then LutColour 53
  else if contains "R_Amyg" filename then LutColour 54
  else if contains "R_Accu" filename then LutColour 58
  else RandomBrightColour.

(** ** Vertex sets

    The [vertexSet] property and its choices, and what the module asks of
    the mesh about its vertex sets. *)

Record VertexSets : Type := mkVertexSets {
  vertexSet : option string;
  vertexSet_choices : list (option string)
}.

(** [MeshOpts.addVertexSetOptions] *)
Definition addVertexSetOptions (newPaths : list (option string)) (vs : VertexSets)
    : VertexSets :=
  let paths := vertexSet_choices vs in
  let paths := (paths ++ filter (λ p, p ∉ paths) newPaths)%list in
  mkVertexSets (vertexSet vs) paths.

(** The [Display] of the mesh, as far as [getConstantColour] reads it. *)
Record Display : Type := mkDisplay {
  brightness : Qc;
  contrast : Qc;
  alpha : Qc
}.

Definition set_registered (v : bool) (s : MeshOpts) : MeshOpts :=
  mkMeshOpts (name s) (overlay s) v (refImage s) (refImage_choices s)
    (coordSpace s) (bounds s) (oldRefImage s) (vertexData s)
    (modulateData s) (vertexData_choices s) (modulateData_choices s)
    (vertexDataIndex s) (vertexDataIndex_maxval s) (vdata s) (vdataRange s).

(** [display.removeListener('name', self.name)] on the display of [img] *)
Definition remove_name_listener (name : string) (img : Overlay)
    (dc : DisplayContext) : DisplayContext :=
  mkDisplayContext (orderedOverlays dc)
    (<[img := removeListener name (name_listeners dc img)]> (name_listeners dc))
    (transform_listeners dc) (opts_getTransform dc).

(** [self.overlayList.addListener('overlays', self.name, ...)] *)
Definition add_overlays_listener (name : string) (ol : OverlayList) : OverlayList :=
  mkOverlayList (overlays ol) (addListener name (overlays_listeners ol)).

Section MoreMethods.

(** [affine.invert] *)
Variable invert : mat4 → mat4.

(** [fslcmaps.applyBricon(rgb, brightness, contrast)] *)
Variable applyBricon : list Qc → Qc → Qc → list Qc.

(** [self.overlay.trimesh.nearest.vertex(xyz)] on one point: the distance
    to the nearest vertex and its index. *)
Variable nearest : point → Qc * nat.

(** The vertex sets of the mesh: [overlay.vertexSets()],
    [overlay.selectedVertices()], [overlay.loadVertices(key)], which may
    raise, and the assignment [overlay.vertices = key]. *)
Variable mesh_vertexSets : Mesh → list (option string).
Variable mesh_selectedVertices : Mesh → option string.
Variable mesh_loadVertices : option string → Mesh → result Mesh.
Variable mesh_setVertices : option string → Mesh → Mesh.

(** [MeshOpts.getConstantColour], for [self.colour = colour] and
    [self.display = display] *)
Definition getConstantColour (colour : list Qc) (display : Display) (s : MeshOpts)
    : list Qc :=
  let '(brightness, contrast) :=
    match vertexData s with
    | None => (brightness display / Q2Qc 100, contrast display / Q2Qc 100)%Qc
    | Some _ => (Q2Qc (1 # 2), Q2Qc (1 # 2))
    end in
  let colour := applyBricon (take 3 colour) brightness contrast in
  (colour ++ [(alpha display / Q2Qc 100)%Qc])%list.

(** [MeshOpts.referenceImage] *)
Definition referenceImage (s : MeshOpts) : option Overlay := refImage s.

(** [MeshOpts.getVertex(xyz, tol)].  [location] is
    [self.displayCtx.location]; [tol = None] is Python's [None] (a caller
    who leaves [tol] out passes 1). *)
Definition getVertex (location : point) (w : World) (xyz : option point)
    (tol : option Qc) : result (option nat) :=
  let xyz := match xyz with None => location | Some xyz => xyz end in
  xyz ← transformCoords invert w [xyz] "display" "mesh";
  match xyz with
  | [xyz] =>
    let '(dist, vidx) := nearest xyz in
    match tol with
    | Some tol => if decide (tol < dist)%Qc then Ok None else Ok (Some vidx)
    | None => Ok (Some vidx)
    end
  | _ => Raise (ValueError "cannot reshape array into shape (1,3)")
  end.

(** [MeshOpts.__vertexSetChanged], with [self.vertexSet = vertexSet vs] *)
Definition vertexSetChanged (vs : VertexSets) (w : World) : result World :=
  m ← (if decide (vertexSet vs ∉ mesh_vertexSets (mesh w))
       then mesh_loadVertices (vertexSet vs) (mesh w)
       else Ok (mesh_setVertices (vertexSet vs) (mesh w)));
  updateBounds invert (upd_mesh (λ _, m) w).

(** The assignment [self.vertexSet = v]: as for [refImage], a new value
    is stored and, on an instance whose listeners are registered,
    [__vertexSetChanged] runs at once. *)
Definition assign_vertexSet (v : option string) (vs : VertexSets) (w : World)
    : result (VertexSets * World) :=
  if decide (vertexSet vs = v) then Ok (vs, w)
  else
    let vs := mkVertexSets v (vertexSet_choices vs) in
    if registered (self w)
    then w ← vertexSetChanged vs w; Ok (vs, w)
    else Ok (vs, w).

(** [MeshOpts.__overlayVerticesChanged] *)
Definition overlayVerticesChanged (vs : VertexSets) (w : World)
    : result (VertexSets * World) :=
  let vset := mesh_selectedVertices (mesh w) in
  let vs :=
    if decide (vset ∉ vertexSet_choices vs) then addVertexSetOptions [vset] vs
    else vs in
  assign_vertexSet vset vs w.

(** One round of the loop of [destroy].  [known o] tells whether the
    display context still has a display and options for [o]; when it has
    not, the lookup raises and the [except] clause passes. *)
Definition destroy_overlay (known : Overlay → bool) (w : World) (o : Overlay) : World :=
  if known o then
    let w := upd_displayCtx (remove_name_listener (name (self w)) o) w in
    if decide (Some o = refImage (self w))
    then upd_displayCtx (upd_transform_listeners o (removeListener (name (self w)))) w
    else w
  else w.

(** The listeners [destroy] removes: the block under
    [if self.__registered].  The listeners on [display.alpha] and on the
    instance's own [colour], and the registration on the mesh, are not part
    of the state. *)
Definition destroy_listeners (known : Overlay → bool) (w : World) : World :=
  if registered (self w) then
    let w := upd_overlayList (remove_overlays_listener (name (self w))) w in
    foldl (destroy_overlay known) w (overlays (overlayList w))
  else w.

(** The three blocks of [MeshOpts.__init__] after the base-class
    constructors, and then the constructor itself.  Each block returns
    the state it leaves and the exception that ended it early, if any. *)

(** The block on [self.__registered]: a parent instance takes the vertex
    sets and vertex data sets of the mesh as choices; a child instance
    registers its listeners and runs the callbacks once.  (The listeners
    on the instance's own properties are the [registered] flag; the
    registration on the mesh is not part of the state.) *)
Definition init_listeners (vs : VertexSets) (w : World)
    : (VertexSets * World) * option exn :=
  if negb (registered (self w)) then
    let vs := addVertexSetOptions (mesh_vertexSets (mesh w)) vs in
    let w := upd_self (addVertexDataOptions (Mesh.vertexDataSets (mesh w))) w in
    ((vs, w), None)
  else
    let w := upd_overlayList (add_overlays_listener (name (self w))) w in
    match overlayListChanged invert w with
    | Raise e => ((vs, w), Some e)
    | Ok w =>
      match updateBounds invert w with
      | Raise e => ((vs, w), Some e)
      | Ok w =>
        match refImageChanged invert w with
        | Raise e => ((vs, w), Some e)
        | Ok w => ((vs, w), None)
        end
      end
    end.

(** The block on inherited values: vertex and modulate data that are
    set already are loaded. *)
Definition init_vdata (w : World) : World * option exn :=
  let '(w, e) :=
    match vertexData (self w) with
    | Some _ => vdataChanged (vertexData (self w)) "vertexData" w
    | None => (w, None)
    end in
  match e with
  | Some e => (w, Some e)
  | None =>
    match modulateData (self w) with
    | Some _ => vdataChanged (modulateData (self w)) "modulateData" w
    | None => (w, None)
    end
  end.

(** The last block: without a reference image, the one
    [findMeshReferenceImage] found is taken. *)
Definition init_refImage (found : option Overlay) (w : World) : World * option exn :=
  match refImage (self w) with
  | None =>
    match assign_refImage invert found w with
    | Ok w => (w, None)
    | Raise e => (w, Some e)
    end
  | Some _ => (w, None)
  end.

(** [MeshOpts.__init__], from the point of view of the state: [w] holds
    the property values the base-class constructors leave (those of the
    parent instance, if there is one).  [hasParent] is
    [self.getParent() is not None], [found] is what
    [findMeshReferenceImage] returns. *)
Definition init (hasParent : bool) (found : option Overlay) (vs : VertexSets)
    (w : World) : (VertexSets * World) * option exn :=
  let w := upd_self (λ s, set_vdataRange ∅ (set_vdata ∅ (set_oldRefImage None s))) w in
  let w := upd_self (set_registered hasParent) w in
  match init_listeners vs w with
  | (r, Some e) => (r, Some e)
  | ((vs, w), None) =>
    match init_vdata w with
    | (w, Some e) => ((vs, w), Some e)
    | (w, None) =>
      let '(w, e) := init_refImage found w in ((vs, w), e)
    end
  end.

End MoreMethods.

(** ** Vocabulary of the further statements *)

(** The bounds [__updateBounds] computes, before it stores them. *)
Definition display_bounds (invert : mat4 → mat4) (w : World) : result (list Qc) :=
  let '(lo, hi) := mesh_bounds (mesh w) in
  xform ← getTransform invert w "mesh" "display";
  let bbox := transform (corners lo hi) xform in
  x ← sorted_min_max (bbox.*1.*1);
  y ← sorted_min_max (bbox.*1.*2);
  z ← sorted_min_max (bbox.*2);
  Ok [x.1; x.2; y.1; y.2; z.1; z.2].

(** The listeners on the [transform] property after [__refImageChanged]:
    the old reference image loses [name] if it is still in the overlay
    list, the new one gains it. *)
Definition transform_listeners_after (w : World) : Overlay → gset string :=
  let tl := transform_listeners (displayCtx w) in
  let tl :=
    match oldRefImage (self w) with
    | Some old =>
      if decide (old ∈ overlays (overlayList w))
      then <[old := removeListener (name (self w)) (tl old)]> tl
      else tl
    | None => tl
    end in
  match refImage (self w) with
  | Some ref => <[ref := addListener (name (self w)) (tl ref)]> tl
  | None => tl
  end.

(** The patterns of [genMeshColour] with their labels, in the order of
    the tests. *)
Definition subcortical_labels : list (string * nat) :=
  [("L_Thal", 10); ("L_Caud", 11); ("L_Puta", 12); ("L_Pall", 13);
   ("BrStem", 16); ("L_Hipp", 17); ("L_Amyg", 18); ("L_Accu", 26);
   ("R_Thal", 49); ("R_Caud", 50); ("R_Puta", 51); ("R_Pall", 52);
   ("R_Hipp", 53); ("R_Amyg", 54); ("R_Accu", 58)].

(** [pattern] occurs in [s]. *)
Definition occurs_in (pattern s : string) : Prop :=
  ∃ before after, s = before +:+ pattern +:+ after.

(** Of the attributes of [self] kept in [MeshOpts], [__vdataChanged]
    assigns to the two dictionaries, [vertexDataIndex] and its [maxval]
    only: [s'] is [s] but for these.  (The display and clipping ranges
    that [updateDataRange] sets are not attributes of [MeshOpts]; that
    method appears as a call.) *)
Definition vdata_frame (s s' : MeshOpts) : Prop :=
  ∀ d r (i m : Z),
    set_vdata d (set_vdataRange r (set_vertexDataIndex i (set_vertexDataIndex_maxval m s')))
    = set_vdata d (set_vdataRange r (set_vertexDataIndex i (set_vertexDataIndex_maxval m s))).

(** The label of the first pattern of [table] that occurs in [filename]. *)
Fixpoint first_match (table : list (string * nat)) (filename : string) : MeshColour :=
  match table with
  | [] => RandomBrightColour
  | (pattern, label) :: table =>
    if contains pattern filename then LutColour label
    else first_match table filename
  end.

(** The attributes of [self] that the callbacks on the reference image
    and on the overlay list may assign to are [refImage], its choices,
    [bounds] and [__oldRefImage]: [s'] is [s] but for these. *)
Definition ref_frame (s s' : MeshOpts) : Prop :=
  ∀ r c b o,
    set_refImage r (set_refImage_choices c (set_bounds b (set_oldRefImage o s')))
    = set_refImage r (set_refImage_choices c (set_bounds b (set_oldRefImage o s))).

(** The instance is wired up: its listeners are registered, its bounds
    are in sync, [__oldRefImage] is the reference image, and if there is
    one the instance listens on the transform of its display options. *)
Definition wired (invert : mat4 → mat4) (w : World) : Prop :=
  registered (self w) = true
  ∧ bounds_in_sync invert w
  ∧ oldRefImage (self w) = refImage (self w)
  ∧ ∀ ref, refImage (self w) = Some ref →
           name (self w) ∈ transform_listeners (displayCtx w) ref.

(** ** More of the scene *)

Module Scene.

(** The nearest vertex: the mesh has one vertex, number 7, at the origin;
    distances are taken along x. *)
Definition nearest (p : point) : Qc * nat := (Qcabs p.1.1, 7).

(** Brightness and contrast left alone. *)
Definition applyBricon (rgb : list Qc) (brightness contrast : Qc) : list Qc :=
  (λ c, c * (brightness + contrast))%Qc <$> rgb.

Definition display : Display :=
  mkDisplay (Example.q 50) (Example.q 50) (Example.q 100).

Definition dimmed : Display :=
  mkDisplay (Example.q 10) (Example.q 90) (Example.q 100).

(** The mesh has the vertex sets [lh.pial] and [lh.white]; [lh.white] is
    selected; [lh.inflated] can be loaded and is a bigger surface; no
    other file can. *)
Definition mesh_vertexSets (m : Mesh) : list (option string) :=
  [Some "lh.pial"; Some "lh.white"].

Definition mesh_selectedVertices (m : Mesh) : option string := Some "lh.white".

Definition inflated (m : Mesh) : Mesh :=
  mkMesh ((Example.q (-5), Example.q (-5), Example.q (-5)),
          (Example.q 5, Example.q 5, Example.q 5))
    (mesh_vertexData m) (mesh_files m).

Definition mesh_loadVertices (key : option string) (m : Mesh) : result Mesh :=
  if decide (key = Some "lh.inflated") then Ok (inflated m)
  else Raise (IOError (default "None" key)).

Definition mesh_setVertices (key : option string) (m : Mesh) : Mesh := m.

Definition vertexSets : VertexSets := mkVertexSets (Some "lh.pial") [None; Some "lh.pial"].

(** The state a child instance is constructed from: the values of the
    parent, no listener yet. *)
Definition unborn : World :=
  mkWorld
    (mkMeshOpts "MeshOpts_2" Example.surface false
       None [] cs_pixdim_flip [0; 0; 0; 0; 0; 0]%Qc None
       (Some "lh.thickness") None [None; Some "lh.thickness"] [None; Some "lh.thickness"]
       0 0 ∅ ∅)
    (mesh Example.world)
    (λ _, Example.t1_image)
    (mkOverlayList [Example.t1; Example.surface] ∅)
    (mkDisplayContext [Example.t1; Example.surface] (λ _, ∅) (λ _, ∅)
       (λ _, Example.t1_getTransform))
    [].

(** The scene with a third overlay, another image, which was the
    reference image before [refImage] was set to the first one: the
    instance still listens on its transform. *)
Definition retargeted : World :=
  mkWorld (set_oldRefImage (Some Example.flair) Example.opts)
    (mesh Example.world) (images Example.world)
    (mkOverlayList [Example.t1; Example.surface; Example.flair] {["MeshOpts_1"]})
    (mkDisplayContext [Example.t1; Example.surface; Example.flair] (λ _, ∅)
       (λ o, if decide (o = Example.flair) then {["MeshOpts_1"]} else ∅)
       (λ _, Example.t1_getTransform))
    [].

(** The scene with a vertex data set that holds no value at all. *)
Definition hollow : World :=
  upd_mesh (Mesh.addVertexData "nothing" (mkArray [0] [])) Example.world.

End Scene.
(** * Properties *)

(** ** Matrix algebra *)

Lemma transform1_eye (p : point) : transform1 eye p = p.
Proof.
  destruct p as [[x y] z]. unfold transform1, eye; cbn [r0 r1 r2 v0 v1 v2 v3].
  f_equal; [f_equal|]; ring.
Qed.

Lemma transform_eye (coords : list point) : transform coords eye = coords.
Proof.
  unfold transform. induction coords as [|p ps IH]; [done|].
  cbn [map]. by rewrite transform1_eye, IH.
Qed.

(** ** Coordinate spaces *)

Lemma is_space_name_valid (space : string) :
  is_space_name space ↔ space ∈ valid_spaces.
Proof.
  unfold is_space_name, valid_spaces. rewrite !elem_of_cons, elem_of_nil. tauto.
Qed.

Lemma normaliseSpace_valid (s : MeshOpts) (space : string) :
  space ∈ valid_spaces →
  normaliseSpace s space =
    Ok (if decide (space = "mesh")
        then if decide (coordSpace s = cs_torig) then "affine"
             else coordSpace_str (coordSpace s)
        else space).
Proof.
  intros Hin. unfold normaliseSpace.
  destruct (decide (space ∉ valid_spaces)) as [Hn|_]; [done|].
  destruct (decide (space = "mesh")) as [->|Hm].
  - by destruct (coordSpace s).
  - apply is_space_name_valid in Hin.
    destruct Hin as [->|[->|[->|[->| ->]]]]; done.
Qed.

Lemma normaliseSpace_invalid (s : MeshOpts) (space : string) :
  space ∉ valid_spaces →
  normaliseSpace s space = Raise (ValueError ("Invalid space: " +:+ space)).
Proof.
  intros Hn. unfold normaliseSpace. by destruct (decide (space ∉ valid_spaces)).
Qed.

(** ** Transformations with and without a reference image *)

Section Transforms.

Variable invert : mat4 → mat4.

(** C3. [normaliseSpace] returns a value exactly for the names 'world',
    'display', 'mesh', 'voxel' and 'id', and raises [ValueError] for every
    other string, 'torig' among them.  'mesh' becomes the value of
    [coordSpace], with 'affine' in place of 'torig'; the four other names
    are returned as they are.  [getTransform] and [transformCoords]
    normalise [from_] and then [to] before anything else, and so raise the
    same [ValueError] for the first of the two that is not a valid name. *)
Theorem normaliseSpace_spec (w : World) (coords : list point) (space other : string) :
  ((∃ r, normaliseSpace (self w) space = Ok r) ↔ is_space_name space)
  ∧ (¬ is_space_name space →
     normaliseSpace (self w) space = Raise (ValueError ("Invalid space: " +:+ space)))
  ∧ normaliseSpace (self w) "torig" = Raise (ValueError "Invalid space: torig")
  ∧ normaliseSpace (self w) "mesh" =
      Ok (if decide (coordSpace (self w) = cs_torig) then "affine"
          else coordSpace_str (coordSpace (self w)))
  ∧ (is_space_name space → space ≠ "mesh" → normaliseSpace (self w) space = Ok space)
  ∧ (¬ is_space_name space →
     getTransform invert w space other = Raise (ValueError ("Invalid space: " +:+ space))
     ∧ transformCoords invert w coords space other
       = Raise (ValueError ("Invalid space: " +:+ space)))
  ∧ (is_space_name other → ¬ is_space_name space →
     getTransform invert w other space = Raise (ValueError ("Invalid space: " +:+ space))
     ∧ transformCoords invert w coords other space
       = Raise (ValueError ("Invalid space: " +:+ space))).
Proof.
  split_and!.
  - split.
    + intros [r Hr]. apply is_space_name_valid.
      destruct (decide (space ∈ valid_spaces)) as [|Hn]; [done|].
      by rewrite (normaliseSpace_invalid _ _ Hn) in Hr.
    + intros H%is_space_name_valid. rewrite (normaliseSpace_valid _ _ H). eauto.
  - intros Hn. apply normaliseSpace_invalid. by rewrite <-is_space_name_valid.
  - done.
  - rewrite normaliseSpace_valid; [done|].
    apply is_space_name_valid. unfold is_space_name. auto.
  - intros H%is_space_name_valid Hm. rewrite (normaliseSpace_valid _ _ H).
    by destruct (decide (space = "mesh")).
  - intros Hn. rewrite is_space_name_valid in Hn.
    unfold getTransform, transformCoords.
    by rewrite (normaliseSpace_invalid _ _ Hn).
  - intros Ho%is_space_name_valid Hn. rewrite is_space_name_valid in Hn.
    unfold getTransform, transformCoords.
    by rewrite (normaliseSpace_valid _ _ Ho), (normaliseSpace_invalid _ _ Hn).
Qed.

(** C8. Without a reference image, [getTransform] returns the identity
    matrix and [transformCoords] returns the coordinates it was given, for
    every pair of valid space names. *)
Theorem no_refImage_identity (w : World) (coords : list point) (from_ to : string) :
  refImage (self w) = None →
  is_space_name from_ →
  is_space_name to →
  getTransform invert w from_ to = Ok eye
  ∧ transformCoords invert w coords from_ to = Ok coords.
Proof.
  intros Href Hf%is_space_name_valid Ht%is_space_name_valid.
  unfold getTransform, transformCoords.
  rewrite (normaliseSpace_valid _ _ Hf), (normaliseSpace_valid _ _ Ht).
  cbn [mbind result_bind]. by rewrite Href.
Qed.

End Transforms.


Lemma normaliseSpace_spec_witness :
  normaliseSpace Example.opts "voxel" = Ok "voxel"
  ∧ normaliseSpace Example.opts "surface" = Raise (ValueError "Invalid space: surface")
  ∧ getTransform Example.invert Example.world "mesh" "surface"
    = Raise (ValueError "Invalid space: surface").
Proof.
  destruct (normaliseSpace_spec Example.invert Example.world [] "voxel" "mesh")
    as (_ & _ & _ & _ & Hsame & _).
  destruct (normaliseSpace_spec Example.invert Example.world [] "surface" "mesh")
    as (_ & Hraise & _ & _ & _ & _ & Hto).
  assert (Hbad : ¬ is_space_name "surface")
    by (intros [H|[H|[H|[H|H]]]]; discriminate H).
  split_and!.
  - apply Hsame; [|done]. right; right; right; left; reflexivity.
  - apply Hraise, Hbad.
  - apply Hto; [|exact Hbad]. right; right; left; reflexivity.
Defined.

Lemma no_refImage_identity_witness :
  getTransform Example.invert Example.world_noref "mesh" "display" = Ok eye
  ∧ transformCoords Example.invert Example.world_noref
      [(Example.q 1, Example.q 2, Example.q 3)] "mesh" "display"
    = Ok [(Example.q 1, Example.q 2, Example.q 3)].
Proof.
  apply (no_refImage_identity Example.invert Example.world_noref).
  - reflexivity.
  - right; right; left; reflexivity.
  - right; left; reflexivity.
Defined.



(** ** The bounding box *)

Lemma Qcmin_cases (a b : Qc) :
  (Qcmin a b = a ∧ (a ≤ b)%Qc) ∨ (Qcmin a b = b ∧ (b ≤ a)%Qc).
Proof.
  unfold Qcmin. destruct (decide (a ≤ b)%Qc) as [H|H]; [by left|right].
  split; [done|]. apply Qclt_le_weak. by apply Qclt_nge.
Qed.

Lemma Qcmax_cases (a b : Qc) :
  (Qcmax a b = b ∧ (a ≤ b)%Qc) ∨ (Qcmax a b = a ∧ (b ≤ a)%Qc).
Proof.
  unfold Qcmax. destruct (decide (a ≤ b)%Qc) as [H|H]; [by left|right].
  split; [done|]. apply Qclt_le_weak. by apply Qclt_nge.
Qed.

Lemma amin_spec (x : Qc) (xs : list Qc) :
  amin x xs ∈ x :: xs ∧ ∀ y, y ∈ x :: xs → (amin x xs ≤ y)%Qc.
Proof.
  unfold amin. revert x. induction xs as [|z zs IH]; intros x; cbn [foldl].
  - split; [apply list_elem_of_here|].
    intros y ->%list_elem_of_singleton. apply Qcle_refl.
  - destruct (IH (Qcmin x z)) as [Hin Hle]. split.
    + apply elem_of_cons in Hin as [->|Hin].
      * destruct (Qcmin_cases x z) as [[-> _]|[-> _]];
          rewrite !elem_of_cons; auto.
      * rewrite !elem_of_cons; auto.
    + intros y Hy.
      assert (Hxz : (Qcmin x z ≤ x ∧ Qcmin x z ≤ z)%Qc).
      { destruct (Qcmin_cases x z) as [[-> ?]|[-> ?]]; split;
          done || apply Qcle_refl. }
      assert (H0 : (foldl Qcmin (Qcmin x z) zs ≤ Qcmin x z)%Qc)
        by (apply Hle, list_elem_of_here).
      apply elem_of_cons in Hy as [->|[->|Hy]%elem_of_cons].
      * eapply Qcle_trans; [exact H0|apply Hxz].
      * eapply Qcle_trans; [exact H0|apply Hxz].
      * apply Hle. by apply list_elem_of_further.
Qed.

Lemma amax_spec (x : Qc) (xs : list Qc) :
  amax x xs ∈ x :: xs ∧ ∀ y, y ∈ x :: xs → (y ≤ amax x xs)%Qc.
Proof.
  unfold amax. revert x. induction xs as [|z zs IH]; intros x; cbn [foldl].
  - split; [apply list_elem_of_here|].
    intros y ->%list_elem_of_singleton. apply Qcle_refl.
  - destruct (IH (Qcmax x z)) as [Hin Hle]. split.
    + apply elem_of_cons in Hin as [->|Hin].
      * destruct (Qcmax_cases x z) as [[-> _]|[-> _]];
          rewrite !elem_of_cons; auto.
      * rewrite !elem_of_cons; auto.
    + intros y Hy.
      assert (Hxz : (x ≤ Qcmax x z ∧ z ≤ Qcmax x z)%Qc).
      { destruct (Qcmax_cases x z) as [[-> ?]|[-> ?]]; split;
          done || apply Qcle_refl. }
      assert (H0 : (Qcmax x z ≤ foldl Qcmax (Qcmax x z) zs)%Qc)
        by (apply Hle, list_elem_of_here).
      apply elem_of_cons in Hy as [->|[->|Hy]%elem_of_cons].
      * eapply Qcle_trans; [apply Hxz|exact H0].
      * eapply Qcle_trans; [apply Hxz|exact H0].
      * apply Hle. by apply list_elem_of_further.
Qed.

(** Sorting first changes neither the least nor the greatest entry. *)
Lemma sorted_min_max_spec (column : list Qc) :
  column ≠ [] →
  ∃ lo hi,
    sorted_min_max column = Ok (lo, hi)
    ∧ (lo ∈ column ∧ ∀ y, y ∈ column → (lo ≤ y)%Qc)
    ∧ (hi ∈ column ∧ ∀ y, y ∈ column → (y ≤ hi)%Qc).
Proof.
  intros Hne. unfold sorted_min_max, np.sort.
  pose proof (merge_sort_Permutation Qcle column) as Hp.
  destruct (merge_sort Qcle column) as [|x xs] eqn:Hs.
  { symmetry in Hp. apply Permutation_nil_r in Hp. done. }
  destruct (amin_spec x xs) as [Hi1 Hl1], (amax_spec x xs) as [Hi2 Hl2].
  exists (amin x xs), (amax x xs). split; [done|].
  split; (split; [by rewrite <-Hp | intros y Hy; rewrite <-Hp in Hy; auto]).
Qed.

Lemma elem_of_corners (lo hi p : point) :
  p ∈ corners lo hi ↔ box_corner lo hi p.
Proof.
  destruct lo as [[xlo ylo] zlo], hi as [[xhi yhi] zhi], p as [[x y] z].
  unfold corners, box_corner; cbn.
  rewrite !elem_of_cons, elem_of_nil.
  split.
  - intros H. repeat destruct H as [H|H]; try done;
      injection H as -> -> ->; tauto.
  - intros ([->| ->] & [->| ->] & [->| ->]); tauto.
Qed.

Lemma least_of_column (lo hi : point) (xform : mat4) (axis : point → Qc) (m : Qc) :
  m ∈ axis <$> transform (corners lo hi) xform →
  (∀ y, y ∈ axis <$> transform (corners lo hi) xform → (m ≤ y)%Qc) →
  least_on_corners lo hi xform axis m.
Proof.
  unfold transform. intros Hin Hle. split.
  - apply list_elem_of_fmap in Hin as (t & -> & Ht).
    apply list_elem_of_fmap in Ht as (p & -> & Hp).
    exists p. by rewrite <-elem_of_corners.
  - intros p Hp%elem_of_corners. apply Hle.
    by do 2 apply list_elem_of_fmap_2.
Qed.

Lemma greatest_of_column (lo hi : point) (xform : mat4) (axis : point → Qc) (m : Qc) :
  m ∈ axis <$> transform (corners lo hi) xform →
  (∀ y, y ∈ axis <$> transform (corners lo hi) xform → (y ≤ m)%Qc) →
  greatest_on_corners lo hi xform axis m.
Proof.
  unfold transform. intros Hin Hle. split.
  - apply list_elem_of_fmap in Hin as (t & -> & Ht).
    apply list_elem_of_fmap in Ht as (p & -> & Hp).
    exists p. by rewrite <-elem_of_corners.
  - intros p Hp%elem_of_corners. apply Hle.
    by do 2 apply list_elem_of_fmap_2.
Qed.

Lemma column_nonempty (lo hi : point) (xform : mat4) (axis : point → Qc) :
  axis <$> transform (corners lo hi) xform ≠ [].
Proof. by destruct lo as [[??]?], hi as [[??]?]. Qed.

Lemma set_bounds_frame (s s' : MeshOpts) :
  (∀ b, set_bounds b s' = set_bounds b s) →
  name s' = name s ∧ overlay s' = overlay s
  ∧ refImage s' = refImage s ∧ refImage_choices s' = refImage_choices s
  ∧ coordSpace s' = coordSpace s ∧ oldRefImage s' = oldRefImage s.
Proof.
  intros H. specialize (H []). destruct s, s'. by injection H as -> -> -> -> -> -> ->.
Qed.

Section Bounds.

Variable invert : mat4 → mat4.

Lemma getTransform_mesh_display (w : World) :
  ∃ xform, getTransform invert w "mesh" "display" = Ok xform.
Proof.
  unfold getTransform.
  rewrite !normaliseSpace_valid by (apply is_space_name_valid; unfold is_space_name; auto).
  cbn [mbind result_bind]. destruct (refImage (self w)); eauto.
Qed.

(** [getTransform] reads the reference image, the coordinate space, the
    images and the tables of their display options, and nothing else. *)
Lemma getTransform_ext (w1 w2 : World) (from_ to : string) :
  refImage (self w1) = refImage (self w2) →
  coordSpace (self w1) = coordSpace (self w2) →
  images w1 = images w2 →
  opts_getTransform (displayCtx w1) = opts_getTransform (displayCtx w2) →
  getTransform invert w1 from_ to = getTransform invert w2 from_ to.
Proof.
  intros Hr Hc Hi Ho. unfold getTransform, normaliseSpace.
  by rewrite Hr, Hc, Hi, Ho.
Qed.

Lemma updateBounds_spec (w : World) :
  ∃ w', updateBounds invert w = Ok w'
        ∧ bounds_in_sync invert w'
        ∧ bounds_frame w w'.
Proof.
  unfold updateBounds.
  destruct (mesh_bounds (mesh w)) as [lo hi] eqn:Hb.
  destruct (getTransform_mesh_display w) as [xform Hx]. rewrite Hx.
  cbn [mbind result_bind].
  rewrite <-!list_fmap_compose.
  assert (Hcol : ∀ axis : point → Qc, ∃ m M,
            sorted_min_max (axis <$> transform (corners lo hi) xform) = Ok (m, M)
            ∧ least_on_corners lo hi xform axis m
            ∧ greatest_on_corners lo hi xform axis M).
  { intros axis.
    destruct (sorted_min_max_spec _ (column_nonempty lo hi xform axis))
      as (m & M & E & [Hm1 Hm2] & [HM1 HM2]).
    exists m, M. split; [done|].
    split; [by apply least_of_column | by apply greatest_of_column]. }
  destruct (Hcol (λ p, p.1.1)) as (xlo & xhi & Ex & Hxlo & Hxhi).
  destruct (Hcol (λ p, p.1.2)) as (ylo & yhi & Ey & Hylo & Hyhi).
  destruct (Hcol (λ p, p.2)) as (zlo & zhi & Ez & Hzlo & Hzhi).
  change (sorted_min_max (fst ∘ fst <$> transform (corners lo hi) xform))
    with (sorted_min_max ((λ p : point, p.1.1) <$> transform (corners lo hi) xform)).
  change (sorted_min_max (snd ∘ fst <$> transform (corners lo hi) xform))
    with (sorted_min_max ((λ p : point, p.1.2) <$> transform (corners lo hi) xform)).
  change (sorted_min_max (transform (corners lo hi) xform).*2)
    with (sorted_min_max ((λ p : point, p.2) <$> transform (corners lo hi) xform)).
  rewrite Ex, Ey, Ez.
  cbn [mbind result_bind].
  set (w1 := upd_self (set_bounds [xlo; xhi; ylo; yhi; zlo; zhi]) w).
  assert (Hsync : ∀ cs, bounds_in_sync invert
            (mkWorld (self w1) (mesh w1) (images w1) (overlayList w1) (displayCtx w1) cs)).
  { intros cs. exists xform, xlo, xhi, ylo, yhi, zlo, zhi.
    split; [by rewrite <-Hx; apply getTransform_ext|].
    split; [done|]. cbn [mesh w1 upd_self]. rewrite Hb. cbn [fst snd].
    by split_and!. }
  destruct (all_isclose _ _); eexists; (split; [reflexivity|]);
    (split; [apply Hsync | by split_and!; [intros b; destruct w as [[] ?]|..]]).
Qed.

(** In a state that differs from [w] by the bounds only, the bounds that
    are in sync are the ones computed in [w]. *)
Lemma bounds_computed_in_frame (w w' : World) :
  bounds_in_sync invert w' → bounds_frame w w' → bounds_computed_in invert w w'.
Proof.
  intros (xform & xlo & xhi & ylo & yhi & zlo & zhi & Hx & Hb & H)
         (Hs & Hm & Hi & _ & Hdc).
  apply set_bounds_frame in Hs as (_ & _ & Hr & _ & Hc & _).
  exists xform, xlo, xhi, ylo, yhi, zlo, zhi.
  rewrite <-Hm, <-(getTransform_ext w' w) by (by rewrite ?Hdc). auto.
Qed.

(** The state in which [__refImageChanged] calls [__updateBounds]. *)
Lemma refImageChanged_updateBounds (w : World) :
  ∃ w0, refImageChanged invert w = updateBounds invert w0
        ∧ refImage_frame w w0
        ∧ bounds (self w0) = bounds (self w)
        ∧ refImage (self w0) = refImage (self w)
        ∧ coordSpace (self w0) = coordSpace (self w).
Proof.
  unfold refImageChanged. eexists. split; [reflexivity|].
  destruct w as [s m i ol dc cs]; cbn.
  destruct (oldRefImage s) as [old|]; [destruct (decide (old ∈ overlays ol))|];
    destruct s; cbn; destruct refImage0; by cbn.
Qed.

(** C2. The callbacks for a change of [refImage], of [coordSpace] and of
    the reference image's [transform] all return normally, and the
    [bounds] they leave are [[xlo, xhi, ylo, yhi, zlo, zhi]], the least and
    the greatest x, y and z among the eight corners of the bounding box of
    the mesh, transformed by [getTransform('mesh', 'display')]: the box and
    the matrix of the state the callback runs in.  Besides the bounds, the
    callbacks for [coordSpace] and [transform] change nothing, and the one
    for [refImage] only [__oldRefImage] and the listeners on
    [transform]. *)
Theorem bounds_recomputed_on_change (w : World) :
  (∃ w', refImageChanged invert w = Ok w'
         ∧ bounds_computed_in invert w w'
         ∧ bounds_in_sync invert w'
         ∧ refImage_frame w w')
  ∧ (∃ w', coordSpaceChanged invert w = Ok w'
           ∧ bounds_computed_in invert w w'
           ∧ bounds_in_sync invert w'
           ∧ bounds_frame w w')
  ∧ (∃ w', transformChanged invert w = Ok w'
           ∧ bounds_computed_in invert w w'
           ∧ bounds_in_sync invert w'
           ∧ bounds_frame w w').
Proof.
  split_and!.
  - destruct (refImageChanged_updateBounds w)
      as (w0 & -> & (Hs0 & Hm0 & Hi0 & Hol0 & Hoo0 & Hnl0 & Hot0) & Hb0 & Hr0 & Hc0).
    destruct (updateBounds_spec w0) as (w' & -> & Hsync & Hframe).
    exists w'. split; [done|].
    pose proof (bounds_computed_in_frame w0 w' Hsync Hframe)
      as (xform & xlo & xhi & ylo & yhi & zlo & zhi & Hx & Hb & H).
    destruct Hframe as (Hs & Hm & Hi & Hol & Hdc).
    unfold refImage_frame. split_and!; try done.
    + exists xform, xlo, xhi, ylo, yhi, zlo, zhi.
      rewrite <-Hm0, <-(getTransform_ext w0 w) by done. auto.
    + intros b o. specialize (Hs b). specialize (Hs0 b o).
      rewrite <-Hs0. destruct (self w'), (self w0).
      by injection Hs as -> -> -> -> -> -> -> -> -> -> -> -> -> -> ->.
    + by rewrite Hm.
    + by rewrite Hi.
    + by rewrite Hol.
    + by rewrite Hdc.
    + by rewrite Hdc.
    + by rewrite Hdc.
  - unfold coordSpaceChanged.
    destruct (updateBounds_spec w) as (w' & -> & Hsync & Hframe).
    exists w'. split_and!; try done. by apply bounds_computed_in_frame.
  - unfold transformChanged.
    destruct (updateBounds_spec w) as (w' & -> & Hsync & Hframe).
    exists w'. split_and!; try done. by apply bounds_computed_in_frame.
Qed.

End Bounds.

(** ** The overlay list *)

Section OverlayList.

Variable invert : mat4 → mat4.

(** [__refImageChanged] returns normally; it keeps the value and the
    choices of [refImage], the overlay list and the ordered overlays. *)
Lemma refImageChanged_frame (w : World) :
  ∃ w', refImageChanged invert w = Ok w'
        ∧ name (self w') = name (self w)
        ∧ overlay (self w') = overlay (self w)
        ∧ refImage (self w') = refImage (self w)
        ∧ refImage_choices (self w') = refImage_choices (self w)
        ∧ overlayList w' = overlayList w
        ∧ orderedOverlays (displayCtx w') = orderedOverlays (displayCtx w).
Proof.
  unfold refImageChanged.
  match goal with |- context [updateBounds invert ?w0] =>
    destruct (updateBounds_spec invert w0) as (w' & -> & _ & Hs & _ & _ & Hol & Hdc) end.
  exists w'. split; [done|].
  apply set_bounds_frame in Hs as (-> & -> & -> & -> & _ & _).
  rewrite Hol, Hdc.
  destruct w as [s m im ol dc cs]; cbn.
  destruct (oldRefImage s) as [old|]; [destruct (decide (old ∈ overlays ol))|];
    destruct s; cbn; destruct refImage0; done.
Qed.

Lemma assign_refImage_spec (v : option Overlay) (w : World) :
  ∃ w', assign_refImage invert v w = Ok w'
        ∧ name (self w') = name (self w)
        ∧ overlay (self w') = overlay (self w)
        ∧ refImage (self w') = v
        ∧ refImage_choices (self w') = refImage_choices (self w)
        ∧ overlayList w' = overlayList w
        ∧ orderedOverlays (displayCtx w') = orderedOverlays (displayCtx w).
Proof.
  unfold assign_refImage.
  destruct (decide (refImage (self w) = v)) as [<-|Hne]; [by exists w|].
  destruct (registered (self (upd_self (set_refImage v) w))).
  - destruct (refImageChanged_frame (upd_self (set_refImage v) w))
      as (w' & -> & H1 & H2 & H3 & H4 & H5 & H6).
    exists w'. rewrite H1, H2, H3, H4, H5, H6. by destruct w as [[] ?].
  - eexists. split; [done|]. by destruct w as [[] ?].
Qed.

Lemma add_name_listeners_frame (niftis : list Overlay) (w : World) :
  let w' := foldl (λ w o, upd_displayCtx (add_name_listener (name (self w)) o) w) w niftis in
  self w' = self w ∧ overlayList w' = overlayList w
  ∧ orderedOverlays (displayCtx w') = orderedOverlays (displayCtx w).
Proof.
  revert w. induction niftis as [|o os IH]; intros w; cbn [foldl]; [done|].
  destruct (IH (upd_displayCtx (add_name_listener (name (self w)) o) w)) as (-> & -> & ->).
  done.
Qed.

(** C7. When the mesh of this [MeshOpts] is not among the ordered
    overlays of the display context, the overlay-list callback removes
    the instance's listener on [overlays] and returns at once: the value
    and the choices of [refImage], like everything else, stay as they
    were. *)
Theorem overlayListChanged_own_overlay_removed (w : World) :
  overlay (self w) ∉ orderedOverlays (displayCtx w) →
  ∃ w', overlayListChanged invert w = Ok w'
        ∧ (name (self w) ∉ overlays_listeners (overlayList w'))
        ∧ overlays_listeners (overlayList w')
          = (overlays_listeners (overlayList w)) ∖ {[name (self w)]}
        ∧ refImage (self w') = refImage (self w)
        ∧ refImage_choices (self w') = refImage_choices (self w)
        ∧ self w' = self w
        ∧ overlays (overlayList w') = overlays (overlayList w)
        ∧ displayCtx w' = displayCtx w
        ∧ mesh w' = mesh w
        ∧ calls w' = calls w.
Proof.
  intros Hout. unfold overlayListChanged.
  destruct (decide (overlay (self w) ∉ orderedOverlays (displayCtx w))); [|done].
  eexists. split; [reflexivity|].
  cbn. unfold removeListener. split_and!; try done.
  rewrite elem_of_difference, elem_of_singleton. tauto.
Qed.

(** C4. When the mesh of this [MeshOpts] is among the ordered overlays,
    the overlay-list callback returns normally; afterwards the choices of
    [refImage] are [None] followed by the ordered overlays that are
    [Nifti] instances, in their order, and [refImage] has its former value
    if that is one of these choices and is [None] if not. *)
Theorem overlayListChanged_refImage_choices (w : World) :
  overlay (self w) ∈ orderedOverlays (displayCtx w) →
  ∃ w', overlayListChanged invert w = Ok w'
        ∧ refImage_choices (self w')
          = None :: (Some <$> filter (λ o, isNifti o = true) (orderedOverlays (displayCtx w)))
        ∧ (∀ o, Some o ∈ refImage_choices (self w')
                ↔ o ∈ orderedOverlays (displayCtx w) ∧ isNifti o = true)
        ∧ (refImage (self w) ∈ refImage_choices (self w') →
           refImage (self w') = refImage (self w))
        ∧ (refImage (self w) ∉ refImage_choices (self w') →
           refImage (self w') = None).
Proof.
  intros Hin. unfold overlayListChanged.
  destruct (decide (overlay (self w) ∉ orderedOverlays (displayCtx w))); [done|].
  set (niftis := filter (λ o, isNifti o = true) (orderedOverlays (displayCtx w))).
  set (w1 := foldl _ w niftis).
  destruct (add_name_listeners_frame niftis w) as (Hs & _ & _).
  fold w1 in Hs.
  match goal with |- context [assign_refImage invert ?v w1] =>
    destruct (assign_refImage_spec v w1) as (w' & -> & _ & _ & Hv & _ & _ & _) end.
  cbn [mbind result_bind]. eexists. split; [reflexivity|].
  assert (Hc : refImage_choices (self (upd_self (set_refImage_choices (None :: (Some <$> niftis))) w'))
               = None :: (Some <$> niftis)) by (by destruct w' as [[] ?]).
  assert (Hr : refImage (self (upd_self (set_refImage_choices (None :: (Some <$> niftis))) w'))
               = refImage (self w')) by (by destruct w' as [[] ?]).
  rewrite Hc, Hr, Hv. split_and!.
  - done.
  - intros o. rewrite elem_of_cons, list_elem_of_fmap. split.
    + intros [?|(o' & [= <-] & Ho)]; [done|].
      by apply list_elem_of_filter in Ho as [? ?].
    + intros [? ?]. right. exists o. split; [done|]. by apply list_elem_of_filter.
  - intros H. by destruct (decide (refImage (self w) ∈ None :: (Some <$> niftis))).
  - intros H. by destruct (decide (refImage (self w) ∈ None :: (Some <$> niftis))).
Qed.

End OverlayList.

Lemma overlayListChanged_own_overlay_removed_witness :
  ∃ w', overlayListChanged Example.invert Example.world_removed = Ok w'
        ∧ ("MeshOpts_1" ∉ overlays_listeners (overlayList w'))
        ∧ refImage (self w') = Some Example.t1
        ∧ refImage_choices (self w') = [None; Some Example.t1].
Proof.
  destruct (overlayListChanged_own_overlay_removed Example.invert Example.world_removed)
    as (w' & H & Hl & _ & Hr & Hc & _).
  - cbn. rewrite list_elem_of_singleton. discriminate.
  - exists w'. rewrite Hr, Hc. done.
Defined.

Lemma overlayListChanged_refImage_choices_witness :
  ∃ w', overlayListChanged Example.invert Example.world_swapped = Ok w'
        ∧ refImage_choices (self w') = [None; Some Example.flair]
        ∧ refImage (self w') = None.
Proof.
  destruct (overlayListChanged_refImage_choices Example.invert Example.world_swapped)
    as (w' & H & Hc & _ & _ & Hn).
  - cbn. apply list_elem_of_here.
  - exists w'. split; [done|]. split; [by rewrite Hc|].
    apply Hn. rewrite Hc. intros H1.
    apply elem_of_cons in H1 as [H1|H1]; [discriminate H1|].
    apply list_elem_of_fmap in H1 as (o & H1 & Ho). injection H1 as <-.
    apply list_elem_of_filter in Ho as [_ Ho].
    apply elem_of_cons in Ho as [Ho|Ho]; [discriminate Ho|].
    apply list_elem_of_singleton in Ho. discriminate Ho.
Defined.

(** ** Least and greatest entries of vertex data *)

Lemma elem_of_numbers (q : Qc) (xs : list float64) : q ∈ numbers xs ↔ Num q ∈ xs.
Proof.
  unfold numbers. rewrite list_elem_of_omap. split.
  - intros ([|q'] & Hin & Hq); [done|]. by injection Hq as ->.
  - intros Hin. by exists (Num q).
Qed.

(** [np.nanmin] returns a number only if it is an entry of the array
    below all its other numbers; [np.nanmax], one above them. *)
Lemma nanmin_number (a : ndarray) (q : Qc) :
  nanmin a = Ok (Num q) →
  Num q ∈ flat a ∧ ∀ x, Num x ∈ flat a → (q ≤ x)%Qc.
Proof.
  unfold nanmin. destruct (flat a) as [|y ys] eqn:Hf; [done|].
  destruct (numbers (y :: ys)) as [|n ns] eqn:Hn; [done|].
  intros [= <-]. destruct (amin_spec n ns) as [Hin Hle].
  rewrite <-Hn in Hin, Hle. split.
  - by apply elem_of_numbers.
  - intros x Hx. by apply Hle, elem_of_numbers.
Qed.

Lemma nanmax_number (a : ndarray) (q : Qc) :
  nanmax a = Ok (Num q) →
  Num q ∈ flat a ∧ ∀ x, Num x ∈ flat a → (x ≤ q)%Qc.
Proof.
  unfold nanmax. destruct (flat a) as [|y ys] eqn:Hf; [done|].
  destruct (numbers (y :: ys)) as [|n ns] eqn:Hn; [done|].
  intros [= <-]. destruct (amax_spec n ns) as [Hin Hle].
  rewrite <-Hn in Hin, Hle. split.
  - by apply elem_of_numbers.
  - intros x Hx. by apply Hle, elem_of_numbers.
Qed.

(** Both raise on an array without entries, and only then. *)
Lemma nanmin_nanmax_raise (a : ndarray) :
  ((∃ e, nanmin a = Raise e) ↔ flat a = [])
  ∧ ((∃ e, nanmax a = Raise e) ↔ flat a = []).
Proof.
  unfold nanmin, nanmax. destruct (flat a) as [|y ys].
  - split; split; eauto.
  - destruct (numbers (y :: ys)); split; split;
      (by intros [e He]) || (by intros He).
Qed.

(** ** Vertex data *)

Lemma dict_get_insert {A} (d : gmap string (option A)) (key : string) (v : option A) :
  dict_get (<[key := v]> d) key = v.
Proof. unfold dict_get. by rewrite lookup_insert_eq. Qed.

Lemma dict_get_insert_ne {A} (d : gmap string (option A)) (key key' : string)
    (v : option A) :
  key ≠ key' → dict_get (<[key := v]> d) key' = dict_get d key'.
Proof. intros. unfold dict_get. by rewrite lookup_insert_ne. Qed.

(** Unfolds [vdataChanged] for one of the two property names and settles
    the tests on the slot. *)
Ltac vdata_slot :=
  unfold vdataChanged;
  first [ change (vdata_key "vertexData") with (Some "vertex")
        | change (vdata_key "modulateData") with (Some "modulate") ];
  cbv beta iota;
  first [ destruct (decide ("vertex" = "vertex")) as [_|]; [|done]
        | destruct (decide ("modulate" = "vertex")) as [|_]; [done|] ].

(** The two dictionaries after [__vdataChanged], whether it returns or
    raises. *)
Lemma vdataChanged_stores (value : option string) (name key : string) (w : World) :
  (name = "vertexData" ∧ key = "vertex") ∨ (name = "modulateData" ∧ key = "modulate") →
  vdata (self (vdataChanged value name w).1)
    = <[key := (vdata_outcome value (mesh w)).1]> (vdata (self w))
  ∧ vdataRange (self (vdataChanged value name w).1)
    = <[key := (vdata_outcome value (mesh w)).2]> (vdataRange (self w)).
Proof.
  unfold vdata_outcome.
  intros [[-> ->]|[-> ->]]; vdata_slot; destruct (vdata_try value (mesh w)) as [m r].
  - destruct r as [[[a|] range]|e']; cbn -[shape1]; [destruct (shape1 a)|..];
      by destruct w as [[] ?].
  - destruct r as [[data range]|e']; by destruct w as [[] ?].
Qed.

Lemma vdata_outcome_loaded (vdfile : string) (m m' : Mesh) (data : ndarray)
    (lo hi : float64) :
  vdata_load vdfile m = Ok (data, m') →
  nanmin data = Ok lo →
  nanmax data = Ok hi →
  vdata_outcome (Some vdfile) m
  = (Some (if decide (length (shape data) = 1%nat) then reshape_column data else data),
     Some (lo, hi)).
Proof.
  intros Hl Hlo Hhi. unfold vdata_outcome, vdata_try.
  by rewrite Hl; cbn; rewrite Hlo, Hhi.
Qed.

Lemma vdata_outcome_failed (value : option string) (m : Mesh) (e : exn) :
  (vdata_try value m).2 = Raise e →
  vdata_outcome value m = (None, None).
Proof. intros H. unfold vdata_outcome. by rewrite H. Qed.

Lemma vdata_outcome_None (m : Mesh) : vdata_outcome None m = (None, None).
Proof. done. Qed.

(** C5. When [vertexData] is set to a file whose data is obtained and has
    a least and a greatest value, the range stored for the vertex data is
    [(nanmin(data), nanmax(data))] and [getDataRange] returns that pair.
    When no vertex data is selected, or the [try] block raised,
    [getDataRange] returns [(0, 1)]; so it does on an instance for which
    nothing was stored yet. *)
Theorem vertexData_range (w : World) :
  (∀ vdfile data m' lo hi,
     vdata_load vdfile (mesh w) = Ok (data, m') →
     nanmin data = Ok lo →
     nanmax data = Ok hi →
     let w' := (vdataChanged (Some vdfile) "vertexData" w).1 in
     vdataRange (self w') !! "vertex" = Some (Some (lo, hi))
     ∧ getDataRange (self w') = (lo, hi))
  ∧ getDataRange (self (vdataChanged None "vertexData" w).1) = (Num 0, Num 1)
  ∧ (∀ vdfile e,
       (vdata_try (Some vdfile) (mesh w)).2 = Raise e →
       getDataRange (self (vdataChanged (Some vdfile) "vertexData" w).1) = (Num 0, Num 1))
  ∧ (vdataRange (self w) = ∅ → getDataRange (self w) = (Num 0, Num 1)).
Proof.
  split_and!.
  - intros vdfile data m' lo hi Hl Hlo Hhi w'. subst w'.
    destruct (vdataChanged_stores (Some vdfile) "vertexData" "vertex" w) as [_ Hr];
      [by left|].
    unfold getDataRange. rewrite Hr, dict_get_insert, lookup_insert_eq.
    by rewrite (vdata_outcome_loaded _ _ _ _ _ _ Hl Hlo Hhi).
  - destruct (vdataChanged_stores None "vertexData" "vertex" w) as [_ Hr]; [by left|].
    unfold getDataRange. by rewrite Hr, dict_get_insert, vdata_outcome_None.
  - intros vdfile e He.
    destruct (vdataChanged_stores (Some vdfile) "vertexData" "vertex" w) as [_ Hr];
      [by left|].
    unfold getDataRange. by rewrite Hr, dict_get_insert, (vdata_outcome_failed _ _ _ He).
  - intros He. unfold getDataRange, dict_get. by rewrite He, lookup_empty.
Qed.

Lemma vdata_load_failed (vdfile : string) (m : Mesh) (e : exn) :
  vdata_load vdfile m = Raise e → (vdata_try (Some vdfile) m).2 = Raise e.
Proof. intros H. unfold vdata_try. by rewrite H. Qed.

(** C6. When loading the file named by [vertexData] or [modulateData]
    raises, whatever the exception, [__vdataChanged] returns normally; the
    data and the range stored for the slot are [None], so [getVertexData]
    returns [None] for the slot and, for the modulate slot,
    [getModulateRange] returns [None]. *)
Theorem vdataChanged_load_failure (w : World) (vdfile name key : string) (e : exn) :
  (name = "vertexData" ∧ key = "vertex") ∨ (name = "modulateData" ∧ key = "modulate") →
  vdata_load vdfile (mesh w) = Raise e →
  (vdataChanged (Some vdfile) name w).2 = None
  ∧ vdata (self (vdataChanged (Some vdfile) name w).1) !! key = Some None
  ∧ vdataRange (self (vdataChanged (Some vdfile) name w).1) !! key = Some None
  ∧ getVertexData key (self (vdataChanged (Some vdfile) name w).1) = None
  ∧ (key = "modulate" →
     getModulateRange (self (vdataChanged (Some vdfile) name w).1) = None).
Proof.
  intros Hk He%vdata_load_failed.
  destruct (vdataChanged_stores (Some vdfile) name key w Hk) as [Hd Hr].
  unfold getVertexData, getModulateRange.
  rewrite Hd, Hr, (vdata_outcome_failed _ _ _ He). cbn [fst snd].
  rewrite !lookup_insert_eq, dict_get_insert. split_and!; try done.
  - destruct Hk as [[-> ->]|[-> ->]]; vdata_slot;
      destruct (vdata_try (Some vdfile) (mesh w)) as [m r];
      cbn [snd] in He; by subst r.
  - intros ->. by rewrite dict_get_insert.
Qed.

Lemma shape1_reshaped (a : ndarray) :
  per_vertex a →
  ∃ n, shape1 (if decide (length (shape a) = 1%nat) then reshape_column a else a) = Ok n
       ∧ length (shape (if decide (length (shape a) = 1%nat) then reshape_column a else a)) ≠ 1%nat.
Proof.
  unfold per_vertex, shape1. intros Hne.
  destruct (decide (length (shape a) = 1%nat)) as [|H1]; [by exists 1%nat|].
  destruct (shape a) as [|n0 [|n1 rest]]; [done|done|]. by exists n1.
Qed.

Lemma vdata_load_per_vertex (vdfile : string) (m m' : Mesh) (data : ndarray) :
  per_vertex_mesh m → vdata_load vdfile m = Ok (data, m') → per_vertex data.
Proof.
  intros [Hsets Hfiles]. unfold vdata_load, Mesh.loadVertexData, Mesh.getVertexData.
  destruct (decide (vdfile ∉ Mesh.vertexDataSets m)).
  - destruct (mesh_files m vdfile) as [a|] eqn:Hf; [|done].
    intros [= <- _]. eauto.
  - destruct (mesh_vertexData m !! vdfile) as [a|] eqn:Hs; [|done].
    intros [= <- _]. eauto.
Qed.

(** The data the [try] block yields has a second axis. *)
Lemma vdata_outcome_shape (value : option string) (m : Mesh) (a : ndarray) :
  per_vertex_mesh m →
  (vdata_outcome value m).1 = Some a →
  (∃ n, shape1 a = Ok n) ∧ length (shape a) ≠ 1%nat.
Proof.
  intros Hm. unfold vdata_outcome, vdata_try.
  destruct value as [vdfile|]; [|done].
  destruct (vdata_load vdfile m) as [[data m']|] eqn:Hl; [|done].
  cbn [snd]. destruct (nanmin data); [|done]. destruct (nanmax data); [|done].
  cbn. intros [= <-].
  destruct (shape1_reshaped data) as (n & Hn & H1); [by eapply vdata_load_per_vertex|].
  unfold makeWriteable. eauto.
Qed.

(** A run of [__vdataChanged] for one slot leaves the data and the range
    of the other slot alone. *)
Lemma vdataChanged_other_slot (value : option string) (name key other : string)
    (w : World) :
  (name = "vertexData" ∧ key = "vertex") ∨ (name = "modulateData" ∧ key = "modulate") →
  other ≠ key →
  getVertexData other (self (vdataChanged value name w).1) = getVertexData other (self w)
  ∧ dict_get (vdataRange (self (vdataChanged value name w).1)) other
    = dict_get (vdataRange (self w)) other.
Proof.
  intros Hk Hne.
  destruct (vdataChanged_stores value name key w Hk) as [Hd Hr].
  unfold getVertexData. rewrite Hd, Hr. by rewrite !dict_get_insert_ne.
Qed.

(** C10. After [__vdataChanged] ran for [vertexData] on a mesh whose
    arrays are per-vertex arrays, it has returned normally,
    [vertexDataIndex] is 0, and: when data is stored, [vertexDataLen()]
    returns a number [n], the data points per vertex, and the [maxval] of
    [vertexDataIndex] is [n - 1]; when no data is stored, the [maxval] is
    0.  A run for [modulateData] changes neither [vertexDataIndex] nor its
    [maxval]. *)
Theorem vertexDataIndex_after_change (w : World) (value : option string) :
  (per_vertex_mesh (mesh w) →
   let w' := (vdataChanged value "vertexData" w).1 in
   (vdataChanged value "vertexData" w).2 = None
   ∧ vertexDataIndex (self w') = 0%Z
   ∧ (∀ a, getVertexData "vertex" (self w') = Some a →
           ∃ n, shape1 a = Ok n
                ∧ vertexDataLen (self w') = Ok n
                ∧ vertexDataIndex_maxval (self w') = (Z.of_nat n - 1)%Z)
   ∧ (getVertexData "vertex" (self w') = None →
      vertexDataIndex_maxval (self w') = 0%Z)
   ∧ ((value = None ∨ ∃ e, (vdata_try value (mesh w)).2 = Raise e) →
      getVertexData "vertex" (self w') = None))
  ∧ (let w' := (vdataChanged value "modulateData" w).1 in
     vertexDataIndex (self w') = vertexDataIndex (self w)
     ∧ vertexDataIndex_maxval (self w') = vertexDataIndex_maxval (self w)).
Proof.
  split.
  - intros Hm w'. subst w'.
    destruct (vdataChanged_stores value "vertexData" "vertex" w) as [Hd _]; [by left|].
    unfold getVertexData, vertexDataLen. rewrite Hd, dict_get_insert.
    pose proof (vdata_outcome_shape value (mesh w)) as Hshape.
    assert (Hnone : (value = None ∨ ∃ e, (vdata_try value (mesh w)).2 = Raise e) →
                    (vdata_outcome value (mesh w)).1 = None).
    { intros [->|[e He]]; [done|]. by rewrite (vdata_outcome_failed _ _ _ He). }
    revert Hshape Hnone. unfold vdata_outcome. vdata_slot.
    destruct (vdata_try value (mesh w)) as [m r]. cbn [snd].
    destruct r as [[[a|] range]|e']; cbn -[shape1]; intros Hshape Hnone.
    + destruct (Hshape a Hm eq_refl) as [[n Hn] H1]. rewrite Hn. cbn.
      destruct (decide (length (shape a) = 1%nat)); [done|].
      split_and!; try done.
      all: intros ? [= <-]; by exists n.
    + split_and!; try done; by destruct w as [[] ?].
    + split_and!; try done; by destruct w as [[] ?].
  - vdata_slot. destruct (vdata_try value (mesh w)) as [m r].
    destruct r as [[data range]|e']; by destruct w as [[] ?].
Qed.

(** ** Keys of added vertex data *)

Lemma append_bracket_inj (s1 s2 : string) : s1 +:+ "]" = s2 +:+ "]" → s1 = s2.
Proof.
  revert s2. induction s1 as [|c s1 IH]; intros [|d s2]; cbn; intros H.
  - done.
  - injection H as _ H. by destruct s2.
  - injection H as _ H. by destruct s1.
  - injection H as -> H. f_equal. by apply IH.
Qed.

Global Instance format_key_inj (origKey : string) : Inj (=) (=) (format_key origKey).
Proof.
  intros n m H. unfold format_key in H.
  apply (inj (String.app origKey)), (inj (String.app " [")) in H.
  by apply append_bracket_inj, (inj pretty) in H.
Qed.

Lemma elem_of_vertexDataSets (key : string) (m : Mesh) :
  key ∈ Mesh.vertexDataSets m ↔ is_Some (mesh_vertexData m !! key).
Proof.
  unfold Mesh.vertexDataSets. rewrite list_elem_of_fmap. split.
  - intros ([k a] & -> & H%elem_of_map_to_list). by exists a.
  - intros [a H]. exists (key, a). by rewrite elem_of_map_to_list.
Qed.

(** The loop of [addVertexData], whatever the fuel: a result is the first
    candidate that is not taken; running out means the key and the next
    [fuel] numbered keys are all taken. *)
Lemma uniqueKey_spec (fuel : nat) (origKey key : string) (count : nat)
    (sets : list string) :
  match uniqueKey fuel origKey key count sets with
  | Some k =>
    (k ∉ sets)
    ∧ (((key ∉ sets) ∧ k = key)
       ∨ (key ∈ sets
          ∧ ∃ n, count ≤ n ∧ k = format_key origKey n
                 ∧ ∀ m, count ≤ m < n → format_key origKey m ∈ sets))
  | None =>
    key ∈ sets ∧ ∀ m, count ≤ m < count + fuel → format_key origKey m ∈ sets
  end.
Proof.
  revert key count. induction fuel as [|fuel IH]; intros key count; cbn [uniqueKey].
  - destruct (decide (key ∈ sets)); [|by auto].
    split; [done|]. intros m ?. lia.
  - destruct (decide (key ∈ sets)) as [Hin|]; [|by auto].
    specialize (IH (format_key origKey count) (count + 1)).
    destruct (uniqueKey fuel origKey (format_key origKey count) (count + 1) sets) as [k|].
    + destruct IH as [Hk [[Hc ->]|(Hc & n & Hn & -> & Hall)]].
      * split; [done|]. right. split; [done|]. exists count.
        split; [done|]. split; [done|]. intros m ?. lia.
      * split; [done|]. right. split; [done|]. exists n.
        split; [lia|]. split; [done|]. intros m Hm.
        destruct (decide (m = count)) as [->|]; [done|]. apply Hall. lia.
    + destruct IH as [Hc Hall]. split; [done|]. intros m Hm.
      destruct (decide (m = count)) as [->|]; [done|]. apply Hall. lia.
Qed.

(** More fuel does not change what the loop returns: the bound on the
    iterations is no restriction. *)
Lemma uniqueKey_fuel_mono (fuel extra : nat) (origKey key k : string) (count : nat)
    (sets : list string) :
  uniqueKey fuel origKey key count sets = Some k →
  uniqueKey (fuel + extra) origKey key count sets = Some k.
Proof.
  revert key count. induction fuel as [|fuel IH]; intros key count; cbn [uniqueKey].
  - destruct (decide (key ∈ sets)) as [Hin|Hout]; [done|].
    intros [= <-]. destruct (0 + extra); cbn [uniqueKey];
      by destruct (decide (key ∈ sets)).
  - cbn [Nat.add uniqueKey]. destruct (decide (key ∈ sets)); [apply IH|done].
Qed.

(** The loop ends before the fuel does: the numbered keys are pairwise
    different, so the data sets cannot hold one more of them than there
    are data sets. *)
Lemma uniqueKey_total (origKey key : string) (sets : list string) :
  is_Some (uniqueKey (S (length sets)) origKey key 1 sets).
Proof.
  pose proof (uniqueKey_spec (S (length sets)) origKey key 1 sets) as H.
  destruct (uniqueKey _ _ _ _ _) as [k|]; [done|].
  destruct H as [_ Hall]. exfalso.
  assert (Hsub : format_key origKey <$> seq 1 (S (length sets)) ⊆+ sets).
  { apply NoDup_submseteq.
    - apply (NoDup_fmap_2 _), NoDup_seq.
    - intros x (m & -> & Hm%elem_of_seq)%list_elem_of_fmap. apply Hall. lia. }
  apply submseteq_length in Hsub. rewrite length_fmap, length_seq in Hsub. lia.
Qed.

(** C9. [addVertexData] returns a key that no vertex data set of the mesh
    had before the call, and the mesh holds the data under that key
    afterwards.  The key is the one given when that was not taken;
    otherwise it is ['key [n]'] for the least [n >= 1] such that this is
    not taken.  The returned key is among the choices of [vertexData] (and
    of [modulateData]) afterwards. *)
Theorem addVertexData_unique_key (key : string) (data : ndarray) (w : World) :
  ∃ k w',
    addVertexData key data w = Some (k, w')
    ∧ mesh_vertexData (mesh w) !! k = None
    ∧ mesh_vertexData (mesh w') = <[k := data]> (mesh_vertexData (mesh w))
    ∧ mesh_vertexData (mesh w') !! k = Some data
    ∧ (mesh_vertexData (mesh w) !! key = None → k = key)
    ∧ (is_Some (mesh_vertexData (mesh w) !! key) →
       ∃ n, 1 ≤ n
            ∧ k = key +:+ " [" +:+ pretty n +:+ "]"
            ∧ ∀ m, 1 ≤ m < n →
                   is_Some (mesh_vertexData (mesh w) !! (key +:+ " [" +:+ pretty m +:+ "]")))
    ∧ Some k ∈ vertexData_choices (self w')
    ∧ Some k ∈ modulateData_choices (self w').
Proof.
  unfold addVertexData.
  pose proof (uniqueKey_spec (S (length (Mesh.vertexDataSets (mesh w)))) key key 1
                (Mesh.vertexDataSets (mesh w))) as Hspec.
  destruct (uniqueKey_total key key (Mesh.vertexDataSets (mesh w))) as [k Hk].
  rewrite Hk in Hspec. rewrite Hk. cbn [mbind option_bind].
  destruct Hspec as [Hfresh Hcases].
  rewrite elem_of_vertexDataSets, <-eq_None_not_Some in Hfresh.
  eexists _, _. split; [reflexivity|].
  assert (Hchoices : ∀ s : MeshOpts,
            Some k ∈ vertexData_choices (addVertexDataOptions [k] s)
            ∧ Some k ∈ modulateData_choices (addVertexDataOptions [k] s)).
  { intros s. unfold addVertexDataOptions.
    assert (Some k ∈ vertexData_choices s
                     ++ filter (λ p, p ∉ vertexData_choices s) (Some <$> [k])).
    { rewrite elem_of_app, list_elem_of_filter.
      destruct (decide (Some k ∈ vertexData_choices s)); [by left|right].
      split; [done|]. cbn. apply list_elem_of_here. }
    by destruct s. }
  split_and!.
  - done.
  - done.
  - cbn. apply lookup_insert_eq.
  - intros Hnone. destruct Hcases as [[_ ->]|[Hin _]]; [done|].
    apply elem_of_vertexDataSets in Hin. rewrite Hnone in Hin. by destruct Hin.
  - intros Hsome%elem_of_vertexDataSets.
    destruct Hcases as [[Hn _]|(_ & n & Hn & -> & Hall)]; [done|].
    exists n. split; [done|]. split; [done|].
    intros m Hm. apply elem_of_vertexDataSets, Hall, Hm.
  - apply Hchoices.
  - apply Hchoices.
Qed.

(** ** The statements at work on the scene *)

Lemma vertexData_range_witness :
  getDataRange (self (vdataChanged (Some "lh.thickness") "vertexData" Example.world).1)
  = (Num (Example.q (-1)), Num (Example.q 3))
  ∧ getDataRange (self (vdataChanged (Some "lh.curv") "vertexData" Example.world).1)
    = (Num 0, Num 1).
Proof.
  destruct (vertexData_range Example.world) as (Hloaded & _ & Hfailed & _).
  split.
  - apply (Hloaded "lh.thickness" Example.thickness
             (Mesh.addVertexData "lh.thickness" Example.thickness (mesh Example.world)));
      reflexivity.
  - apply (Hfailed "lh.curv" (IOError "lh.curv")). reflexivity.
Defined.

Lemma vdataChanged_load_failure_witness :
  (vdataChanged (Some "lh.curv") "modulateData" Example.world).2 = None
  ∧ getVertexData "modulate"
      (self (vdataChanged (Some "lh.curv") "modulateData" Example.world).1) = None
  ∧ getModulateRange
      (self (vdataChanged (Some "lh.curv") "modulateData" Example.world).1) = None.
Proof.
  destruct (vdataChanged_load_failure Example.world "lh.curv" "modulateData" "modulate"
              (IOError "lh.curv")) as (H1 & _ & _ & H2 & H3).
  - right. split; reflexivity.
  - reflexivity.
  - split; [exact H1|]. split; [exact H2|]. apply H3. reflexivity.
Defined.

Lemma per_vertex_example : per_vertex_mesh (mesh Example.world).
Proof.
  split.
  - intros key a H. cbn in H. by rewrite lookup_empty in H.
  - intros infile a. cbn. unfold Example.files.
    destruct (decide (infile = "lh.thickness")); [|done].
    intros [= <-]. done.
Defined.

Lemma vertexDataIndex_after_change_witness :
  vertexDataIndex
    (self (vdataChanged (Some "lh.thickness") "vertexData" Example.world).1) = 0%Z
  ∧ vertexDataLen
      (self (vdataChanged (Some "lh.thickness") "vertexData" Example.world).1) = Ok 1
  ∧ vertexDataIndex_maxval
      (self (vdataChanged (Some "lh.thickness") "vertexData" Example.world).1) = 0%Z.
Proof.
  destruct (vertexDataIndex_after_change Example.world (Some "lh.thickness")) as [H _].
  destruct (H per_vertex_example) as (_ & Hi & Hstored & _).
  split; [exact Hi|].
  destruct (Hstored (reshape_column Example.thickness)) as (n & Hn & Hlen & Hmax).
  - reflexivity.
  - injection Hn as <-. split; [exact Hlen | exact Hmax].
Defined.

Lemma addVertexData_unique_key_witness :
  ∃ w', addVertexData "thickness" Example.thickness Example.world_data
        = Some ("thickness [2]", w').
Proof.
  destruct (addVertexData_unique_key "thickness" Example.thickness Example.world_data)
    as (k & w' & H & Hfresh & _ & _ & _ & Htaken & _).
  exists w'. rewrite H. do 2 f_equal.
  destruct Htaken as (n & Hn & -> & Hall); [by eexists|].
  destruct n as [|[|[|n]]].
  - lia.
  - discriminate Hfresh.
  - reflexivity.
  - destruct (Hall 2) as [a Ha]; [lia|]. discriminate Ha.
Defined.

(** The bounds of the scene: the surface box [0,1] x [0,2] x [0,3] seen
    through surface-to-voxel, voxel-to-world and world-to-display. *)
Example updateBounds_example :
  (λ w, (this <$> bounds (self w), calls w)) <$>
    (match updateBounds Example.invert Example.world with
     | Ok w => Some w
     | Raise _ => None
     end)
  = Some ([21; 23; -44; -40; -66; -60]%Q, []).
Proof. vm_compute. reflexivity. Qed.

(** After the image was swapped out of the overlay list, the callback
    offers the new image, drops the reference to the old one and puts the
    bounds back to the mesh's own box. *)
Example overlayListChanged_example :
  (λ w, (refImage (self w), refImage_choices (self w), oldRefImage (self w),
         this <$> bounds (self w))) <$>
    (match overlayListChanged Example.invert Example.world_swapped with
     | Ok w => Some w
     | Raise _ => None
     end)
  = Some (None, [None; Some Example.flair], None, [0; 1; 0; 2; 0; 3]%Q).
Proof. vm_compute. reflexivity. Qed.

(** An unknown property name makes [__vdataChanged] raise before it
    touches anything. *)
Example vdataChanged_other_name :
  (vdataChanged (Some "lh.thickness") "vertexSet" Example.world).2 = Some RuntimeError.
Proof. reflexivity. Qed.

(** * Properties of the rest of the module *)

(** ** Without a reference image *)

(** Without a reference image [getTransform] is the identity for valid
    names (shared with the statements below). *)
Lemma no_refImage_frame (invert : mat4 → mat4) (w : World) :
  refImage (self w) = None →
  getTransform invert w "mesh" "display" = Ok eye
  ∧ getTransform invert w "display" "mesh" = Ok eye.
Proof.
  intros Href. unfold getTransform.
  rewrite !normaliseSpace_valid by (apply is_space_name_valid; unfold is_space_name; auto).
  cbn [mbind result_bind]. by rewrite Href.
Qed.

(** ** More on the bounding box *)

Lemma least_le_greatest (lo hi : point) (xform : mat4) (axis : point → Qc) (m M : Qc) :
  least_on_corners lo hi xform axis m →
  greatest_on_corners lo hi xform axis M →
  (m ≤ M)%Qc.
Proof. intros [(p & Hp & <-) _] [_ HM]. by apply HM. Qed.

Lemma least_unique (lo hi : point) (xform : mat4) (axis : point → Qc) (m m' : Qc) :
  least_on_corners lo hi xform axis m →
  least_on_corners lo hi xform axis m' →
  m = m'.
Proof.
  intros [(p & Hp & <-) H1] [(p' & Hp' & <-) H2].
  apply Qcle_antisym; auto.
Qed.

Lemma greatest_unique (lo hi : point) (xform : mat4) (axis : point → Qc) (m m' : Qc) :
  greatest_on_corners lo hi xform axis m →
  greatest_on_corners lo hi xform axis m' →
  m = m'.
Proof.
  intros [(p & Hp & <-) H1] [(p' & Hp' & <-) H2].
  apply Qcle_antisym; auto.
Qed.

Lemma Qcmin_le (a b : Qc) : (Qcmin a b ≤ a ∧ Qcmin a b ≤ b)%Qc.
Proof.
  destruct (Qcmin_cases a b) as [[-> ?]|[-> ?]]; split; done || apply Qcle_refl.
Qed.

Lemma Qcmax_ge (a b : Qc) : (a ≤ Qcmax a b ∧ b ≤ Qcmax a b)%Qc.
Proof.
  destruct (Qcmax_cases a b) as [[-> ?]|[-> ?]]; split; done || apply Qcle_refl.
Qed.

(** The extremes of an axis over the corners of a box left where it is. *)
Lemma least_on_own_corners (lo hi : point) (axis : point → Qc) :
  (∀ p q, (axis p = axis lo ∨ axis p = axis hi) → box_corner lo hi q →
          axis q = axis lo ∨ axis q = axis hi) →
  (∃ p, box_corner lo hi p ∧ axis p = axis lo) →
  (∃ p, box_corner lo hi p ∧ axis p = axis hi) →
  least_on_corners lo hi eye axis (Qcmin (axis lo) (axis hi))
  ∧ greatest_on_corners lo hi eye axis (Qcmax (axis lo) (axis hi)).
Proof.
  intros Hax (pl & Hpl & Hl) (ph & Hph & Hh).
  destruct (Qcmin_le (axis lo) (axis hi)) as [Hm1 Hm2].
  destruct (Qcmax_ge (axis lo) (axis hi)) as [HM1 HM2].
  split; split.
  - destruct (Qcmin_cases (axis lo) (axis hi)) as [[-> _]|[-> _]];
      [exists pl|exists ph]; by rewrite transform1_eye.
  - intros q Hq. rewrite transform1_eye.
    destruct (Hax lo q (or_introl eq_refl) Hq) as [->| ->]; done.
  - destruct (Qcmax_cases (axis lo) (axis hi)) as [[-> _]|[-> _]];
      [exists ph|exists pl]; by rewrite transform1_eye.
  - intros q Hq. rewrite transform1_eye.
    destruct (Hax lo q (or_introl eq_refl) Hq) as [->| ->]; done.
Qed.

Lemma isclose_refl (a : Qc) : isclose a a = true.
Proof.
  unfold isclose. apply bool_decide_eq_true_2.
  replace (a - a)%Qc with (Q2Qc 0) by ring.
  rewrite Qcabs_pos by apply Qcle_refl.
  apply Qcplus_nonneg_nonneg; [done|].
  rewrite <-(Qcmult_0_r (Q2Qc (1 # 100000))).
  apply Qcmult_le_mono_nonneg_l; [done|apply Qcabs_nonneg].
Qed.

Lemma all_isclose_refl (b : list Qc) : all_isclose b b = true.
Proof.
  unfold all_isclose. induction b as [|x b IH]; [done|].
  cbn. by rewrite isclose_refl.
Qed.

Section BoundsMore.

Variable invert : mat4 → mat4.

(** X2. Whatever the reference image and the coordinate space,
    [__updateBounds] returns normally and the bounds it stores are in
    order on every axis: low is at most high. *)
Theorem updateBounds_ordered (w : World) :
  ∃ w' xlo xhi ylo yhi zlo zhi,
    updateBounds invert w = Ok w'
    ∧ bounds (self w') = [xlo; xhi; ylo; yhi; zlo; zhi]
    ∧ (xlo ≤ xhi)%Qc ∧ (ylo ≤ yhi)%Qc ∧ (zlo ≤ zhi)%Qc.
Proof.
  destruct (updateBounds_spec invert w) as (w' & Hu & Hs & _).
  destruct Hs as (xform & xlo & xhi & ylo & yhi & zlo & zhi & _ & Hb
                  & Hxl & Hxh & Hyl & Hyh & Hzl & Hzh).
  exists w', xlo, xhi, ylo, yhi, zlo, zhi.
  split_and!; [done|done|..]; by eapply least_le_greatest.
Qed.

(** X3. Without a reference image the bounds are those of the mesh's own
    box: on every axis the smaller and the larger of its two corner
    values, whichever way round the mesh reports them; the box itself
    when its low corner is below its high corner. *)
Theorem updateBounds_no_refImage (w w' : World) (xlo ylo zlo xhi yhi zhi : Qc) :
  refImage (self w) = None →
  mesh_bounds (mesh w) = ((xlo, ylo, zlo), (xhi, yhi, zhi)) →
  updateBounds invert w = Ok w' →
  bounds (self w')
  = [Qcmin xlo xhi; Qcmax xlo xhi; Qcmin ylo yhi; Qcmax ylo yhi;
     Qcmin zlo zhi; Qcmax zlo zhi]
  ∧ ((xlo ≤ xhi)%Qc → (ylo ≤ yhi)%Qc → (zlo ≤ zhi)%Qc →
     bounds (self w') = [xlo; xhi; ylo; yhi; zlo; zhi]).
Proof.
  intros Href Hmb Hu.
  destruct (updateBounds_spec invert w) as (w1 & Hu1 & Hs & Hfr).
  rewrite Hu in Hu1. injection Hu1 as <-.
  destruct Hfr as (Hself & Hmesh & Himg & _ & Hdc).
  apply set_bounds_frame in Hself as (_ & _ & Href' & _ & Hcs & _).
  destruct Hs as (xform & xl & xh & yl & yh & zl & zh & Hx & Hb
                  & Hxl & Hxh & Hyl & Hyh & Hzl & Hzh).
  destruct (no_refImage_frame invert w') as [Heye _]; [by rewrite Href', Href|].
  rewrite Heye in Hx. injection Hx as <-.
  rewrite Hmesh, Hmb in Hxl, Hxh, Hyl, Hyh, Hzl, Hzh. cbn [fst snd] in *.
  assert (Hcorner : ∀ a b c, (a = xlo ∨ a = xhi) → (b = ylo ∨ b = yhi) →
                             (c = zlo ∨ c = zhi) →
                             box_corner (xlo, ylo, zlo) (xhi, yhi, zhi) (a, b, c))
    by (by intros a b c ???).
  destruct (least_on_own_corners (xlo, ylo, zlo) (xhi, yhi, zhi) (λ p, p.1.1))
    as [Hx1 Hx2]; [by intros p q _ (?&?&?)|exists (xlo, ylo, zlo); auto
                   |exists (xhi, yhi, zhi); auto|].
  destruct (least_on_own_corners (xlo, ylo, zlo) (xhi, yhi, zhi) (λ p, p.1.2))
    as [Hy1 Hy2]; [by intros p q _ (?&?&?)|exists (xlo, ylo, zlo); auto
                   |exists (xhi, yhi, zhi); auto|].
  destruct (least_on_own_corners (xlo, ylo, zlo) (xhi, yhi, zhi) (λ p, p.2))
    as [Hz1 Hz2]; [by intros p q _ (?&?&?)|exists (xlo, ylo, zlo); auto
                   |exists (xhi, yhi, zhi); auto|].
  cbn [fst snd] in *.
  assert (Hall : bounds (self w')
                 = [Qcmin xlo xhi; Qcmax xlo xhi; Qcmin ylo yhi; Qcmax ylo yhi;
                    Qcmin zlo zhi; Qcmax zlo zhi]).
  { rewrite Hb.
    rewrite (least_unique _ _ _ _ _ _ Hxl Hx1), (greatest_unique _ _ _ _ _ _ Hxh Hx2),
      (least_unique _ _ _ _ _ _ Hyl Hy1), (greatest_unique _ _ _ _ _ _ Hyh Hy2),
      (least_unique _ _ _ _ _ _ Hzl Hz1), (greatest_unique _ _ _ _ _ _ Hzh Hz2).
    done. }
  split; [done|]. intros Hxo Hyo Hzo. rewrite Hall.
  unfold Qcmin, Qcmax.
  by rewrite !decide_True.
Qed.

End BoundsMore.

Section BoundsAgain.

Variable invert : mat4 → mat4.

Lemma updateBounds_display_bounds (w : World) :
  updateBounds invert w
  = (b ← display_bounds invert w;
     if all_isclose (bounds (self w)) b
     then Ok (call (PropNotify "bounds") (upd_self (set_bounds b) w))
     else Ok (upd_self (set_bounds b) w)).
Proof.
  unfold updateBounds, display_bounds.
  destruct (mesh_bounds (mesh w)) as [lo hi].
  destruct (getTransform invert w "mesh" "display") as [xform|]; [|done].
  cbn [mbind result_bind].
  repeat (match goal with
          | |- context [sorted_min_max ?c] =>
            destruct (sorted_min_max c) as [[??]|]
          end; cbn [mbind result_bind fst snd]; try done).
Qed.

(** The computed bounds read the mesh's box and what [getTransform]
    reads. *)
Lemma display_bounds_ext (w1 w2 : World) :
  mesh_bounds (mesh w1) = mesh_bounds (mesh w2) →
  refImage (self w1) = refImage (self w2) →
  coordSpace (self w1) = coordSpace (self w2) →
  images w1 = images w2 →
  opts_getTransform (displayCtx w1) = opts_getTransform (displayCtx w2) →
  display_bounds invert w1 = display_bounds invert w2.
Proof.
  intros Hm Hr Hc Hi Ho. unfold display_bounds.
  by rewrite Hm, (getTransform_ext invert w1 w2 _ _ Hr Hc Hi Ho).
Qed.

(** X4. Running [__updateBounds] again when nothing it reads has changed
    stores the same bounds and, the value being the old one, calls
    [propNotify('bounds')]: listeners hear of every run. *)
Theorem updateBounds_again (w w1 : World) :
  updateBounds invert w = Ok w1 →
  ∃ w2, updateBounds invert w1 = Ok w2
        ∧ bounds (self w2) = bounds (self w1)
        ∧ calls w2 = (calls w1 ++ [PropNotify "bounds"])%list.
Proof.
  rewrite !updateBounds_display_bounds.
  destruct (display_bounds invert w) as [b|] eqn:Hb; [|done].
  cbn [mbind result_bind]. intros Hw1.
  assert (H1 : bounds (self w1) = b ∧ display_bounds invert w1 = Ok b).
  { rewrite <-Hb.
    destruct (all_isclose (bounds (self w)) b); injection Hw1 as <-;
      (split; [by destruct w as [[] ?]|]);
      apply display_bounds_ext; by destruct w as [[] ?]. }
  destruct H1 as [Hb1 ->]. cbn [mbind result_bind].
  rewrite Hb1, all_isclose_refl. eexists. split; [reflexivity|].
  split; [|done]. rewrite <-Hb1. by destruct w1 as [[] ?].
Qed.

End BoundsAgain.

Lemma updateBounds_again_witness :
  ∃ w1 w2,
    updateBounds Example.invert Example.world = Ok w1
    ∧ updateBounds Example.invert w1 = Ok w2
    ∧ bounds (self w2) = bounds (self w1)
    ∧ calls w2 = (calls w1 ++ [PropNotify "bounds"])%list.
Proof.
  destruct (updateBounds Example.invert Example.world) as [w1|e] eqn:H;
    [|by vm_compute in H].
  destruct (updateBounds_again Example.invert _ _ H) as (w2 & H2).
  exists w1, w2. by split.
Defined.

Lemma updateBounds_no_refImage_witness :
  ∃ w', updateBounds Example.invert Example.world_noref = Ok w'
        ∧ bounds (self w')
          = [Example.q 0; Example.q 1; Example.q 0; Example.q 2;
             Example.q 0; Example.q 3].
Proof.
  destruct (updateBounds Example.invert Example.world_noref) as [w'|e] eqn:H;
    [|by vm_compute in H].
  exists w'. split; [done|].
  by apply (updateBounds_no_refImage Example.invert Example.world_noref w'
              (Example.q 0) (Example.q 0) (Example.q 0)
              (Example.q 1) (Example.q 2) (Example.q 3)).
Defined.

(** ** The listener on the reference image *)

(** Membership in a set of listener names after [addListener] and
    [removeListener]. *)
Ltac listeners :=
  rewrite ?elem_of_union, ?elem_of_difference, ?elem_of_singleton; tauto.

Section RefImageListener.

Variable invert : mat4 → mat4.

(** [__refImageChanged] in one piece: what it returns, the attributes
    of [self] it keeps, and the listeners it leaves. *)
Lemma refImageChanged_inv (w : World) :
  ∃ w', refImageChanged invert w = Ok w'
        ∧ bounds_in_sync invert w'
        ∧ oldRefImage (self w') = refImage (self w)
        ∧ refImage (self w') = refImage (self w)
        ∧ refImage_choices (self w') = refImage_choices (self w)
        ∧ name (self w') = name (self w)
        ∧ registered (self w') = registered (self w)
        ∧ coordSpace (self w') = coordSpace (self w)
        ∧ transform_listeners (displayCtx w') = transform_listeners_after w
        ∧ name_listeners (displayCtx w') = name_listeners (displayCtx w)
        ∧ orderedOverlays (displayCtx w') = orderedOverlays (displayCtx w)
        ∧ opts_getTransform (displayCtx w') = opts_getTransform (displayCtx w)
        ∧ overlayList w' = overlayList w
        ∧ mesh w' = mesh w
        ∧ images w' = images w.
Proof.
  unfold refImageChanged, transform_listeners_after.
  match goal with |- context [updateBounds invert ?w0] =>
    destruct (updateBounds_spec invert w0) as (w' & -> & Hs & Hb & Hm & Hi & Hol & Hdc) end.
  exists w'. split; [done|]. split; [done|].
  assert (Hreg : registered (self w') = registered (self w)
                 ∧ oldRefImage (self w') = refImage (self w)).
  { specialize (Hb []). destruct (self w') eqn:E'.
    destruct w as [s m im ol dc cs]; cbn in *.
    destruct (oldRefImage s) as [old|]; [destruct (decide (old ∈ overlays ol))|];
      destruct s; cbn in *; destruct refImage1; cbn in *; by injection Hb as -> -> -> -> -> -> ->. }
  apply set_bounds_frame in Hb as (-> & _ & -> & -> & -> & _).
  destruct Hreg as [-> ->].
  rewrite Hm, Hi, Hol, Hdc.
  destruct w as [s m im ol dc cs]; cbn.
  destruct (oldRefImage s) as [old|]; [destruct (decide (old ∈ overlays ol))|];
    destruct s; cbn; destruct refImage0; done.
Qed.

(** X5. [__refImageChanged] returns and keeps [refImage]; afterwards
    [__oldRefImage] is that value; if it is an image, the instance
    listens on the [transform] property of its display options; and if
    the former reference image is another one that is still in the
    overlay list, the instance no longer listens on that one. *)
Theorem refImageChanged_listens_on_refImage (w : World) :
  ∃ w', refImageChanged invert w = Ok w'
        ∧ refImage (self w') = refImage (self w)
        ∧ oldRefImage (self w') = refImage (self w)
        ∧ (∀ ref, refImage (self w) = Some ref →
             name (self w) ∈ transform_listeners (displayCtx w') ref)
        ∧ (∀ old, oldRefImage (self w) = Some old →
             old ∈ overlays (overlayList w) →
             refImage (self w) ≠ Some old →
             name (self w) ∉ transform_listeners (displayCtx w') old).
Proof.
  destruct (refImageChanged_inv w)
    as (w' & Hr & _ & Hold & Href & _ & Hn & _ & _ & Htl & _).
  exists w'. rewrite Htl. split; [done|]. split; [done|]. split; [done|].
  unfold transform_listeners_after, addListener, removeListener. split.
  - intros ref ->. rewrite fn_lookup_insert. listeners.
  - intros old -> Hin Hne. rewrite decide_True by done.
    destruct (refImage (self w)) as [ref|].
    + rewrite fn_lookup_insert_ne by congruence.
      rewrite fn_lookup_insert. listeners.
    + rewrite fn_lookup_insert. listeners.
Qed.

(** X6. [__refImageChanged] takes the instance's listener off the former
    reference image only when that image is still in the overlay list:
    on any image other than the new reference image and such a former
    one, the listeners stay exactly as they were; and the listeners
    registered under other names are never touched. *)
Theorem refImageChanged_other_listeners (w : World) :
  ∃ w', refImageChanged invert w = Ok w'
        ∧ (∀ o, refImage (self w) ≠ Some o →
             (oldRefImage (self w) ≠ Some o ∨ o ∉ overlays (overlayList w)) →
             transform_listeners (displayCtx w') o = transform_listeners (displayCtx w) o)
        ∧ (∀ o n, n ≠ name (self w) →
             n ∈ transform_listeners (displayCtx w') o
             ↔ n ∈ transform_listeners (displayCtx w) o).
Proof.
  destruct (refImageChanged_inv w) as (w' & Hr & _ & _ & _ & _ & _ & _ & _ & Htl & _).
  exists w'. rewrite Htl. split; [done|].
  unfold transform_listeners_after, addListener, removeListener. split.
  - intros o Href Hold.
    assert (Hstep : (match oldRefImage (self w) with
                     | Some old =>
                       if decide (old ∈ overlays (overlayList w))
                       then <[old := transform_listeners (displayCtx w) old ∖ {[name (self w)]}]>
                              (transform_listeners (displayCtx w))
                       else transform_listeners (displayCtx w)
                     | None => transform_listeners (displayCtx w)
                     end) o = transform_listeners (displayCtx w) o).
    { destruct (oldRefImage (self w)) as [old|]; [|done].
      destruct (decide (old ∈ overlays (overlayList w))); [|done].
      rewrite fn_lookup_insert_ne; [done|].
      intros ->. by destruct Hold. }
    destruct (refImage (self w)) as [ref|]; [|done].
    rewrite fn_lookup_insert_ne by congruence. done.
  - intros o n Hn.
    assert (Hstep : n ∈ (match oldRefImage (self w) with
                     | Some old =>
                       if decide (old ∈ overlays (overlayList w))
                       then <[old := transform_listeners (displayCtx w) old ∖ {[name (self w)]}]>
                              (transform_listeners (displayCtx w))
                       else transform_listeners (displayCtx w)
                     | None => transform_listeners (displayCtx w)
                     end) o ↔ n ∈ transform_listeners (displayCtx w) o).
    { destruct (oldRefImage (self w)) as [old|]; [|done].
      destruct (decide (old ∈ overlays (overlayList w))); [|done].
      destruct (decide (old = o)) as [->|].
      - rewrite fn_lookup_insert. listeners.
      - by rewrite fn_lookup_insert_ne. }
    destruct (refImage (self w)) as [ref|]; [|done].
    destruct (decide (ref = o)) as [->|].
    + rewrite fn_lookup_insert, elem_of_union, elem_of_singleton, Hstep. tauto.
    + by rewrite fn_lookup_insert_ne.
Qed.

End RefImageListener.

(** ** More on the overlay list *)

Lemma bounds_in_sync_ext (invert : mat4 → mat4) (w1 w2 : World) :
  bounds (self w1) = bounds (self w2) →
  mesh_bounds (mesh w1) = mesh_bounds (mesh w2) →
  refImage (self w1) = refImage (self w2) →
  coordSpace (self w1) = coordSpace (self w2) →
  images w1 = images w2 →
  opts_getTransform (displayCtx w1) = opts_getTransform (displayCtx w2) →
  bounds_in_sync invert w1 → bounds_in_sync invert w2.
Proof.
  intros Hb Hm Hr Hc Hi Ho (xform & xlo & xhi & ylo & yhi & zlo & zhi & Hx & Hbs & H).
  exists xform, xlo, xhi, ylo, yhi, zlo, zhi.
  rewrite <-(getTransform_ext invert w1 w2 _ _ Hr Hc Hi Ho), <-Hb, <-Hm. auto.
Qed.

Section OverlayListMore.

Variable invert : mat4 → mat4.

(** The assignment [self.refImage = v] in one piece. *)
Lemma assign_refImage_inv (v : option Overlay) (w : World) :
  ∃ w', assign_refImage invert v w = Ok w'
        ∧ refImage (self w') = v
        ∧ (refImage (self w) = v → w' = w)
        ∧ (refImage (self w) ≠ v → registered (self w) = true →
           bounds_in_sync invert w' ∧ oldRefImage (self w') = v)
        ∧ refImage_choices (self w') = refImage_choices (self w)
        ∧ name (self w') = name (self w)
        ∧ overlay (self w') = overlay (self w)
        ∧ registered (self w') = registered (self w)
        ∧ coordSpace (self w') = coordSpace (self w)
        ∧ name_listeners (displayCtx w') = name_listeners (displayCtx w)
        ∧ orderedOverlays (displayCtx w') = orderedOverlays (displayCtx w)
        ∧ opts_getTransform (displayCtx w') = opts_getTransform (displayCtx w)
        ∧ overlayList w' = overlayList w
        ∧ mesh w' = mesh w
        ∧ images w' = images w.
Proof.
  unfold assign_refImage.
  destruct (decide (refImage (self w) = v)) as [<-|Hne].
  { exists w. by split_and!. }
  destruct (registered (self (upd_self (set_refImage v) w))) eqn:Hreg.
  - destruct (refImageChanged_inv invert (upd_self (set_refImage v) w))
      as (w' & Hrc & Hs & Ho & Hr & Hc & Hn & Hrg & Hcs & _ & Hnl & Hoo & Hot & Hol & Hm & Hi).
    exists w'. rewrite Hrc, Ho, Hr, Hc, Hn, Hrg, Hcs, Hnl, Hoo, Hot, Hol, Hm, Hi.
    assert (Hov : overlay (self w') = overlay (self w)).
    { destruct (refImageChanged_frame invert (upd_self (set_refImage v) w))
        as (w'' & Hw'' & _ & Hov & _).
      assert (w'' = w') as -> by congruence. rewrite Hov. by destruct w as [[] ?]. }
    rewrite Hov.
    by destruct w as [[] ?]; split_and!.
  - eexists. split; [reflexivity|].
    destruct w as [[] ?]; cbn in *. split_and!; try done. intros _ ?. congruence.
Qed.

(** The listeners on the names of the images after the loop of
    [__overlayListChanged]. *)
Lemma add_name_listeners_inv (niftis : list Overlay) (w : World) :
  let w' := foldl (λ w o, upd_displayCtx (add_name_listener (name (self w)) o) w) w niftis in
  self w' = self w ∧ overlayList w' = overlayList w
  ∧ mesh w' = mesh w ∧ images w' = images w ∧ calls w' = calls w
  ∧ orderedOverlays (displayCtx w') = orderedOverlays (displayCtx w)
  ∧ transform_listeners (displayCtx w') = transform_listeners (displayCtx w)
  ∧ opts_getTransform (displayCtx w') = opts_getTransform (displayCtx w)
  ∧ (∀ o, o ∈ niftis → name (self w) ∈ name_listeners (displayCtx w') o)
  ∧ (∀ o n, n ∈ name_listeners (displayCtx w) o → n ∈ name_listeners (displayCtx w') o).
Proof.
  revert w. induction niftis as [|x xs IH]; intros w; cbn [foldl].
  { split_and!; try done. by intros o ?%elem_of_nil. }
  destruct (IH (upd_displayCtx (add_name_listener (name (self w)) x) w))
    as (-> & -> & -> & -> & -> & -> & -> & -> & Hadd & Hkeep).
  split_and!; try done.
  - intros o [->|Ho]%elem_of_cons; [|by apply Hadd].
    apply Hkeep. cbn. rewrite fn_lookup_insert. unfold addListener. listeners.
  - intros o n Hn. apply Hkeep. cbn.
    destruct (decide (x = o)) as [->|].
    + rewrite fn_lookup_insert. unfold addListener. listeners.
    + by rewrite fn_lookup_insert_ne.
Qed.

(** The overlay-list callback for a mesh that is among the ordered
    overlays, in one piece. *)
Lemma overlayListChanged_present (w : World) :
  overlay (self w) ∈ orderedOverlays (displayCtx w) →
  ∃ w', overlayListChanged invert w = Ok w'
        ∧ refImage (self w') ∈ refImage_choices (self w')
        ∧ (∀ o, o ∈ orderedOverlays (displayCtx w) → isNifti o = true →
             name (self w) ∈ name_listeners (displayCtx w') o)
        ∧ overlayList w' = overlayList w
        ∧ orderedOverlays (displayCtx w') = orderedOverlays (displayCtx w).
Proof.
  intros Hin. unfold overlayListChanged.
  destruct (decide (overlay (self w) ∉ orderedOverlays (displayCtx w))); [done|].
  set (niftis := filter (λ o, isNifti o = true) (orderedOverlays (displayCtx w))).
  destruct (add_name_listeners_inv niftis w)
    as (Hs & Hol & _ & _ & _ & Hoo & _ & _ & Hadd & _).
  set (w1 := foldl _ w niftis) in *.
  match goal with |- context [assign_refImage invert ?v w1] =>
    destruct (assign_refImage_inv v w1)
      as (w2 & -> & Hv & _ & _ & _ & _ & _ & _ & _ & Hnl & Hoo2 & _ & Hol2 & _) end.
  cbn [mbind result_bind]. eexists. split; [reflexivity|].
  replace (overlayList (upd_self (set_refImage_choices (None :: (Some <$> niftis))) w2))
    with (overlayList w2) by done.
  replace (displayCtx (upd_self (set_refImage_choices (None :: (Some <$> niftis))) w2))
    with (displayCtx w2) by done.
  rewrite Hol2, Hol, Hoo2, Hoo, Hnl. split_and!; try done.
  - replace (refImage (self (upd_self (set_refImage_choices (None :: (Some <$> niftis))) w2)))
      with (refImage (self w2)) by (by destruct w2 as [[] ?]).
    replace (refImage_choices (self (upd_self (set_refImage_choices (None :: (Some <$> niftis))) w2)))
      with (None :: (Some <$> niftis)) by (by destruct w2 as [[] ?]).
    rewrite Hv.
    destruct (decide (refImage (self w) ∈ None :: (Some <$> niftis))); [done|].
    apply list_elem_of_here.
  - intros o Ho Hn. apply Hadd. by apply list_elem_of_filter.
Qed.

(** X7. After the overlay-list callback, for a mesh that is among the
    ordered overlays: [refImage] is one of its own choices; the instance
    listens on the name of every [Nifti] overlay of the list; and its
    listener on the overlay list is still there. *)
Theorem overlayListChanged_keeps_refImage_valid (w : World) :
  overlay (self w) ∈ orderedOverlays (displayCtx w) →
  ∃ w', overlayListChanged invert w = Ok w'
        ∧ refImage (self w') ∈ refImage_choices (self w')
        ∧ (∀ o, o ∈ orderedOverlays (displayCtx w) → isNifti o = true →
             name (self w) ∈ name_listeners (displayCtx w') o)
        ∧ overlayList w' = overlayList w
        ∧ orderedOverlays (displayCtx w') = orderedOverlays (displayCtx w).
Proof. apply overlayListChanged_present. Qed.

(** X8. When the overlay list changes so that the reference image of a
    registered instance is no longer a [Nifti] overlay of the list, the
    reference to it is dropped on the spot: [refImage] and
    [__oldRefImage] are [None] and the bounds are back in sync, without a
    reference image. *)
Theorem overlayListChanged_drops_refImage (w : World) (ref : Overlay) :
  registered (self w) = true →
  overlay (self w) ∈ orderedOverlays (displayCtx w) →
  refImage (self w) = Some ref →
  (ref ∉ orderedOverlays (displayCtx w) ∨ isNifti ref = false) →
  ∃ w', overlayListChanged invert w = Ok w'
        ∧ refImage (self w') = None
        ∧ oldRefImage (self w') = None
        ∧ bounds_in_sync invert w'.
Proof.
  intros Hreg Hin Href Hgone. unfold overlayListChanged.
  destruct (decide (overlay (self w) ∉ orderedOverlays (displayCtx w))); [done|].
  set (niftis := filter (λ o, isNifti o = true) (orderedOverlays (displayCtx w))).
  destruct (add_name_listeners_inv niftis w) as (Hs & _).
  set (w1 := foldl _ w niftis) in *.
  rewrite Href.
  destruct (decide (Some ref ∈ None :: (Some <$> niftis))) as [Hopt|_].
  { exfalso. apply elem_of_cons in Hopt as [?|Hopt]; [done|].
    apply list_elem_of_fmap in Hopt as (o & [= <-] & [Hn Ho]%list_elem_of_filter).
    destruct Hgone as [?|Hf]; [done|]. congruence. }
  destruct (assign_refImage_inv None w1)
    as (w2 & -> & Hv & _ & Hch & _).
  destruct Hch as [Hsync Hold]; [by rewrite Hs, Href|by rewrite Hs|].
  cbn [mbind result_bind]. eexists. split; [reflexivity|].
  split_and!.
  - rewrite <-Hv. by destruct w2 as [[] ?].
  - rewrite <-Hold. by destruct w2 as [[] ?].
  - eapply bounds_in_sync_ext; [..|exact Hsync]; by destruct w2 as [[] ?].
Qed.

(** X9. The overlay-list callback is idempotent on the instance: run a
    second time on an unchanged list it leaves [self] as the first run
    left it, and calls nothing. *)
Theorem overlayListChanged_idempotent (w w1 : World) :
  overlay (self w) ∈ orderedOverlays (displayCtx w) →
  overlayListChanged invert w = Ok w1 →
  ∃ w2, overlayListChanged invert w1 = Ok w2
        ∧ self w2 = self w1
        ∧ calls w2 = calls w1
        ∧ overlayList w2 = overlayList w1
        ∧ mesh w2 = mesh w1.
Proof.
  intros Hin H1.
  destruct (overlayListChanged_present w Hin)
    as (w1' & H1' & Hvalid & _ & _ & Hoo).
  assert (w1' = w1) as -> by congruence.
  assert (Hch : refImage_choices (self w1)
                = None :: (Some <$> filter (λ o, isNifti o = true)
                                      (orderedOverlays (displayCtx w1)))
                ∧ overlay (self w1) = overlay (self w)).
  { clear Hvalid H1'. rewrite Hoo. revert H1. unfold overlayListChanged.
    destruct (decide (overlay (self w) ∉ orderedOverlays (displayCtx w))); [done|].
    set (niftis := filter (λ o, isNifti o = true) (orderedOverlays (displayCtx w))).
    destruct (add_name_listeners_inv niftis w) as (Hs & _).
    set (w0 := foldl _ w niftis) in *.
    match goal with |- context [assign_refImage invert ?v w0] =>
      destruct (assign_refImage_inv v w0)
        as (w2 & -> & _ & _ & _ & _ & _ & Hov & _) end.
    cbn [mbind result_bind]. intros [= <-]. rewrite <-Hs, <-Hov.
    by destruct w2 as [[] ?]. }
  destruct Hch as [Hch Hov].
  unfold overlayListChanged.
  destruct (decide (overlay (self w1) ∉ orderedOverlays (displayCtx w1))) as [Hout|_].
  { rewrite Hov, Hoo in Hout. done. }
  set (niftis := filter (λ o, isNifti o = true) (orderedOverlays (displayCtx w1))) in *.
  destruct (add_name_listeners_inv niftis w1) as (Hs & Hol & Hm & _ & Hc & _).
  set (w0 := foldl _ w1 niftis) in *.
  destruct (decide (refImage (self w1) ∈ None :: (Some <$> niftis))) as [_|Hn];
    [|by rewrite Hch in Hvalid].
  unfold assign_refImage. rewrite Hs. rewrite decide_True by done.
  cbn [mbind result_bind]. eexists. split; [reflexivity|].
  cbn. rewrite Hs, Hol, Hm, Hc. split_and!; try done.
  destruct (self w1); cbn in *. by rewrite Hch.
Qed.

End OverlayListMore.

(** ** More on vertex data *)

Lemma vdata_key_cases (name : string) :
  (name = "vertexData" ∧ vdata_key name = Some "vertex")
  ∨ (name = "modulateData" ∧ vdata_key name = Some "modulate")
  ∨ (name ≠ "vertexData" ∧ name ≠ "modulateData" ∧ vdata_key name = None).
Proof.
  unfold vdata_key.
  destruct (decide (name = "vertexData")) as [->|]; [by left|].
  destruct (decide (name = "modulateData")) as [->|]; [by right; left|].
  by right; right.
Qed.

(** What the [try] block does to the mesh: it may add the data of a file
    under a name that was free. *)
Lemma vdata_try_mesh (value : option string) (m : Mesh) :
  mesh_bounds (vdata_try value m).1 = mesh_bounds m
  ∧ mesh_files (vdata_try value m).1 = mesh_files m
  ∧ ∀ key, is_Some (mesh_vertexData m !! key) →
           mesh_vertexData (vdata_try value m).1 !! key = mesh_vertexData m !! key.
Proof.
  unfold vdata_try, vdata_load, Mesh.loadVertexData, Mesh.getVertexData.
  destruct value as [vdfile|]; [|done].
  destruct (decide (vdfile ∉ Mesh.vertexDataSets m)) as [Hfree|].
  - destruct (mesh_files m vdfile) as [d|]; [|done]. cbn.
    split_and!; try done. intros key Hkey.
    rewrite lookup_insert_ne; [done|]. intros <-.
    by apply Hfree, elem_of_vertexDataSets.
  - by destruct (mesh_vertexData m !! vdfile).
Qed.

(** X10. [__vdataChanged] called for a property other than [vertexData]
    and [modulateData] raises [RuntimeError] before it does anything: no
    file is read and the state is as it was. *)
Theorem vdataChanged_unknown_name (value : option string) (name : string) (w : World) :
  name ≠ "vertexData" →
  name ≠ "modulateData" →
  vdataChanged value name w = (w, Some RuntimeError).
Proof.
  intros H1 H2. unfold vdataChanged.
  destruct (vdata_key_cases name) as [[? _]|[[? _]|(_ & _ & ->)]]; done.
Qed.

Lemma vdataChanged_unknown_name_witness :
  vdataChanged (Some "lh.thickness") "vertexSet" Example.world
  = (Example.world, Some RuntimeError).
Proof. by apply vdataChanged_unknown_name. Defined.

(** What [__vdataChanged] leaves alone. *)
Lemma vdataChanged_keeps (value : option string) (name : string) (w : World) :
  vdata_frame (self w) (self (vdataChanged value name w).1)
  ∧ displayCtx (vdataChanged value name w).1 = displayCtx w
  ∧ overlayList (vdataChanged value name w).1 = overlayList w
  ∧ images (vdataChanged value name w).1 = images w
  ∧ mesh_bounds (mesh (vdataChanged value name w).1) = mesh_bounds (mesh w)
  ∧ ∀ key, is_Some (mesh_vertexData (mesh w) !! key) →
           mesh_vertexData (mesh (vdataChanged value name w).1) !! key
           = mesh_vertexData (mesh w) !! key.
Proof.
  pose proof (vdata_try_mesh value (mesh w)) as (Hb & _ & Hd).
  unfold vdataChanged.
  destruct (vdata_key_cases name) as [[-> ->]|[[-> ->]|(_ & _ & ->)]];
    [| |by split_and!];
    destruct (vdata_try value (mesh w)) as [m r]; cbn [fst] in Hb, Hd.
  - destruct (decide ("vertex" = "vertex")) as [_|]; [|done].
    destruct r as [[[a|] range]|e']; cbn -[shape1]; [destruct (shape1 a)|..];
      cbn; (split_and!; [by intros ????; destruct w as [[] ?]|done..]).
  - destruct (decide ("modulate" = "vertex")) as [|_]; [done|].
    destruct r as [[data range]|e']; cbn;
      (split_and!; [by intros ????; destruct w as [[] ?]|done..]).
Qed.

(** X11. Whatever it is called with, [__vdataChanged] itself assigns to
    none of the attributes of [self] kept in [MeshOpts] but the two
    dictionaries, [vertexDataIndex] and its [maxval].  Whatever else
    changes on [self] changes inside [updateDataRange], which it calls
    exactly once, as its last step, when it returns, and not at all when
    it raises.  It leaves the display context, the overlay list and the
    images alone; and on the mesh it changes neither the bounding box nor
    any data set the mesh already had. *)
Theorem vdataChanged_frame (value : option string) (name : string) (w : World) :
  vdata_frame (self w) (self (vdataChanged value name w).1)
  ∧ ((vdataChanged value name w).2 = None →
     ∃ resetDR resetCR resetMR,
       calls (vdataChanged value name w).1
       = (calls w ++ [UpdateDataRange resetDR resetCR resetMR])%list)
  ∧ ((vdataChanged value name w).2 ≠ None →
     calls (vdataChanged value name w).1 = calls w)
  ∧ displayCtx (vdataChanged value name w).1 = displayCtx w
  ∧ overlayList (vdataChanged value name w).1 = overlayList w
  ∧ images (vdataChanged value name w).1 = images w
  ∧ mesh_bounds (mesh (vdataChanged value name w).1) = mesh_bounds (mesh w)
  ∧ ∀ key, is_Some (mesh_vertexData (mesh w) !! key) →
           mesh_vertexData (mesh (vdataChanged value name w).1) !! key
           = mesh_vertexData (mesh w) !! key.
Proof.
  destruct (vdataChanged_keeps value name w) as (Hf & Hdc & Hol & Hi & Hb & Hd).
  split_and!; try done.
  - unfold vdataChanged.
    destruct (vdata_key_cases name) as [[-> ->]|[[-> ->]|(_ & _ & ->)]]; [| |done];
      destruct (vdata_try value (mesh w)) as [m r].
    + destruct (decide ("vertex" = "vertex")) as [_|]; [|done].
      destruct r as [[[a|] range]|e']; cbn -[shape1]; [destruct (shape1 a)|..];
        cbn; intros; done || eauto.
    + destruct (decide ("modulate" = "vertex")) as [|_]; [done|].
      destruct r as [[data range]|e']; cbn; eauto.
  - unfold vdataChanged.
    destruct (vdata_key_cases name) as [[-> ->]|[[-> ->]|(_ & _ & ->)]]; [| |done];
      destruct (vdata_try value (mesh w)) as [m r].
    + destruct (decide ("vertex" = "vertex")) as [_|]; [|done].
      destruct r as [[[a|] range]|e']; cbn -[shape1]; [destruct (shape1 a)|..];
        cbn; intros; done.
    + destruct (decide ("modulate" = "vertex")) as [|_]; [done|].
      destruct r as [[data range]|e']; cbn; done.
Qed.

Lemma vdataChanged_modulateData_returns (value : option string) (w : World) :
  (vdataChanged value "modulateData" w).2 = None.
Proof.
  vdata_slot. destruct (vdata_try value (mesh w)) as [m [[data range]|e']]; done.
Qed.

(** X12. A change of [modulateData] never raises, and ends with
    [updateDataRange(False, False, True)]; a change of [vertexData] that
    returns ends with [updateDataRange(True, True, m)], where [m] tells
    whether [modulateData] is [None]; one that raises does not call
    it. *)
Theorem vdataChanged_updateDataRange (value : option string) (w : World) :
  (vdataChanged value "modulateData" w).2 = None
  ∧ calls (vdataChanged value "modulateData" w).1
    = (calls w ++ [UpdateDataRange false false true])%list
  ∧ ((vdataChanged value "vertexData" w).2 = None →
     calls (vdataChanged value "vertexData" w).1
     = (calls w ++ [UpdateDataRange true true
                      (bool_decide (modulateData (self w) = None))])%list)
  ∧ ((vdataChanged value "vertexData" w).2 ≠ None →
     (vdataChanged value "vertexData" w).2 = Some IndexError
     ∧ calls (vdataChanged value "vertexData" w).1 = calls w).
Proof.
  split_and!.
  - vdata_slot. destruct (vdata_try value (mesh w)) as [m [[data range]|e']]; done.
  - vdata_slot. destruct (vdata_try value (mesh w)) as [m [[data range]|e']]; done.
  - vdata_slot. destruct (vdata_try value (mesh w)) as [m [[[a|] range]|e']];
      cbn -[shape1]; [unfold shape1; destruct (shape a !! 1)|..]; cbn;
      intros; try done; by destruct w as [[] ?].
  - vdata_slot. destruct (vdata_try value (mesh w)) as [m [[[a|] range]|e']];
      cbn -[shape1]; [unfold shape1; destruct (shape a !! 1)|..]; cbn;
      intros; done.
Qed.

(** X13. The data [__vdataChanged] stores is never one-dimensional: a
    one-dimensional array of [n] values is stored as the column of shape
    [(n, 1)] with the same values, any other array as it is. *)
Theorem vdataChanged_stores_columns (w : World) (vdfile name key : string)
    (data : ndarray) (m' : Mesh) (lo hi : float64) :
  (name = "vertexData" ∧ key = "vertex") ∨ (name = "modulateData" ∧ key = "modulate") →
  vdata_load vdfile (mesh w) = Ok (data, m') →
  nanmin data = Ok lo →
  nanmax data = Ok hi →
  ∃ stored,
    getVertexData key (self (vdataChanged (Some vdfile) name w).1) = Some stored
    ∧ length (shape stored) ≠ 1
    ∧ flat stored = flat data
    ∧ (length (shape data) = 1 → shape stored = [length (flat data); 1])
    ∧ (length (shape data) ≠ 1 → stored = data).
Proof.
  intros Hk Hl Hlo Hhi.
  destruct (vdataChanged_stores (Some vdfile) name key w Hk) as [Hd _].
  unfold getVertexData. rewrite Hd, dict_get_insert.
  rewrite (vdata_outcome_loaded _ _ _ _ _ _ Hl Hlo Hhi). cbn [fst].
  eexists. split; [reflexivity|].
  destruct (decide (length (shape data) = 1)); by split_and!.
Qed.

(** X14. Data without a single value counts as data that failed to load:
    [np.nanmin] raises on it, so nothing is stored for the slot,
    [getDataRange] is [(0, 1)] and the [maxval] of [vertexDataIndex] is
    0. *)
Theorem vdataChanged_empty_data (w : World) (vdfile : string) (data : ndarray) (m' : Mesh) :
  vdata_load vdfile (mesh w) = Ok (data, m') →
  flat data = [] →
  (vdataChanged (Some vdfile) "vertexData" w).2 = None
  ∧ getVertexData "vertex" (self (vdataChanged (Some vdfile) "vertexData" w).1) = None
  ∧ getDataRange (self (vdataChanged (Some vdfile) "vertexData" w).1) = (Num 0, Num 1)
  ∧ vertexDataIndex_maxval (self (vdataChanged (Some vdfile) "vertexData" w).1) = 0%Z.
Proof.
  intros Hl Hempty.
  assert (Htry : ∃ e, (vdata_try (Some vdfile) (mesh w)).2 = Raise e).
  { unfold vdata_try. rewrite Hl. cbn [snd]. unfold nanmin. rewrite Hempty. eauto. }
  destruct Htry as [e He].
  destruct (vdataChanged_stores (Some vdfile) "vertexData" "vertex" w) as [Hd Hr];
    [by left|].
  unfold getVertexData, getDataRange.
  rewrite Hd, Hr, !dict_get_insert, (vdata_outcome_failed _ _ _ He). cbn [fst snd].
  vdata_slot. destruct (vdata_try (Some vdfile) (mesh w)) as [m r].
  cbn [snd] in He. subst r. cbn. by split_and!.
Qed.

(** ** The choices of [vertexData] and the keys of added data *)

Lemma filter_none {A} (P : A → Prop) `{∀ x, Decision (P x)} (l : list A) :
  (∀ x, x ∈ l → ¬ P x) → filter P l = [].
Proof.
  induction l as [|x l IH]; intros Hall; [done|].
  rewrite filter_cons_False by (apply Hall, list_elem_of_here).
  apply IH. intros y Hy. by apply Hall, list_elem_of_further.
Qed.

Lemma addVertexDataOptions_choices (paths : list string) (s : MeshOpts) :
  vertexData_choices (addVertexDataOptions paths s)
  = (vertexData_choices s
       ++ filter (λ p, p ∉ vertexData_choices s) (Some <$> paths))%list
  ∧ modulateData_choices (addVertexDataOptions paths s)
    = vertexData_choices (addVertexDataOptions paths s).
Proof. by destruct s. Qed.

(** X15. [addVertexDataOptions] keeps the choices of [vertexData] there
    are, in their places, and puts behind them those of the new paths
    that were not among them; every new path is a choice afterwards.  The
    choices of [modulateData] become the very same list, whatever they
    were. *)
Theorem addVertexDataOptions_extends (paths : list string) (s : MeshOpts) :
  (∃ added,
     vertexData_choices (addVertexDataOptions paths s)
     = (vertexData_choices s ++ added)%list
     ∧ ∀ p, p ∈ added ↔ (∃ q, p = Some q ∧ q ∈ paths) ∧ p ∉ vertexData_choices s)
  ∧ modulateData_choices (addVertexDataOptions paths s)
    = vertexData_choices (addVertexDataOptions paths s)
  ∧ ∀ q, q ∈ paths → Some q ∈ vertexData_choices (addVertexDataOptions paths s).
Proof.
  assert (Hv : vertexData_choices (addVertexDataOptions paths s)
               = vertexData_choices s
                   ++ filter (λ p, p ∉ vertexData_choices s) (Some <$> paths))
    by (by destruct s).
  assert (Hm : modulateData_choices (addVertexDataOptions paths s)
               = vertexData_choices s
                   ++ filter (λ p, p ∉ vertexData_choices s) (Some <$> paths))
    by (by destruct s).
  rewrite Hm, Hv. split_and!.
  - eexists. split; [reflexivity|]. intros p.
    rewrite list_elem_of_filter, list_elem_of_fmap. split.
    + intros [Hout (q & -> & Hq)]. eauto.
    + intros [(q & -> & Hq) Hout]. eauto.
  - done.
  - intros q Hq. rewrite elem_of_app, list_elem_of_filter, list_elem_of_fmap.
    destruct (decide (Some q ∈ vertexData_choices s)); [by left|right]. eauto.
Qed.

(** X16. [addVertexDataOptions] introduces no duplicate when the new
    paths have none, and adding the same paths a second time changes
    nothing. *)
Theorem addVertexDataOptions_idempotent (paths : list string) (s : MeshOpts) :
  (NoDup (vertexData_choices s) → NoDup paths →
   NoDup (vertexData_choices (addVertexDataOptions paths s)))
  ∧ addVertexDataOptions paths (addVertexDataOptions paths s)
    = addVertexDataOptions paths s.
Proof.
  assert (Hv : vertexData_choices (addVertexDataOptions paths s)
               = vertexData_choices s
                   ++ filter (λ p, p ∉ vertexData_choices s) (Some <$> paths))
    by (by destruct s).
  split.
  - intros Hc Hp. rewrite Hv. apply list.NoDup_app. split_and!.
    + done.
    + intros p Hin [Hout _]%list_elem_of_filter. done.
    + apply list.NoDup_filter, (NoDup_fmap_2 _), Hp.
  - assert (Hnone : filter (λ p, p ∉ vertexData_choices (addVertexDataOptions paths s))
                      (Some <$> paths) = []).
    { apply filter_none. intros p Hp Hout. apply Hout.
      rewrite Hv, elem_of_app, list_elem_of_filter.
      destruct (decide (p ∈ vertexData_choices s)); auto. }
    unfold addVertexDataOptions at 1. rewrite Hnone, app_nil_r.
    destruct s; cbn. done.
Qed.

Lemma addVertexDataOptions_idempotent_witness :
  NoDup (vertexData_choices
           (addVertexDataOptions ["lh.thickness"; "lh.curv"] Example.opts)).
Proof.
  apply (addVertexDataOptions_idempotent ["lh.thickness"; "lh.curv"] Example.opts).
  - by apply (bool_decide_unpack (NoDup (vertexData_choices Example.opts))).
  - by apply (bool_decide_unpack (NoDup ["lh.thickness"; "lh.curv"])).
Defined.

(** [addVertexData] in one piece. *)
Lemma addVertexData_inv (key : string) (data : ndarray) (w : World) (k : string)
    (w' : World) :
  addVertexData key data w = Some (k, w') →
  mesh_vertexData (mesh w) !! k = None
  ∧ mesh w' = Mesh.addVertexData k data (mesh w)
  ∧ self w' = addVertexDataOptions [k] (self w)
  ∧ displayCtx w' = displayCtx w ∧ overlayList w' = overlayList w
  ∧ images w' = images w ∧ calls w' = calls w.
Proof.
  unfold addVertexData.
  pose proof (uniqueKey_spec (S (length (Mesh.vertexDataSets (mesh w)))) key key 1
                (Mesh.vertexDataSets (mesh w))) as Hspec.
  destruct (uniqueKey _ _ _ _ _) as [k0|]; [|done].
  cbn [mbind option_bind]. intros [= <- <-].
  destruct Hspec as [Hfresh _].
  rewrite elem_of_vertexDataSets, <-eq_None_not_Some in Hfresh. done.
Qed.

(** X17. [addVertexData] never replaces data the mesh already has: every
    data set there was is still there, unchanged, and the choices of
    [vertexData] there were are still there, in their places.  It touches
    neither the bounding box of the mesh nor the bounds. *)
Theorem addVertexData_preserves (key : string) (data : ndarray) (w : World)
    (k : string) (w' : World) :
  addVertexData key data w = Some (k, w') →
  (∀ k0, is_Some (mesh_vertexData (mesh w) !! k0) →
         mesh_vertexData (mesh w') !! k0 = mesh_vertexData (mesh w) !! k0)
  ∧ (∃ added, vertexData_choices (self w')
              = (vertexData_choices (self w) ++ added)%list)
  ∧ mesh_bounds (mesh w') = mesh_bounds (mesh w)
  ∧ bounds (self w') = bounds (self w).
Proof.
  intros (Hfresh & -> & -> & _)%addVertexData_inv. split_and!.
  - intros k0 Hk0. cbn. rewrite lookup_insert_ne; [done|].
    intros <-. rewrite Hfresh in Hk0. by destruct Hk0.
  - destruct (addVertexDataOptions_choices [k] (self w)) as [-> _]. eauto.
  - done.
  - by destruct (self w).
Qed.

(** X18. Data added twice under the same key is stored twice: the two
    calls return different keys, and the mesh holds each data under its
    key afterwards. *)
Theorem addVertexData_twice (key : string) (d1 d2 : ndarray) (w w1 w2 : World)
    (k1 k2 : string) :
  addVertexData key d1 w = Some (k1, w1) →
  addVertexData key d2 w1 = Some (k2, w2) →
  k1 ≠ k2
  ∧ mesh_vertexData (mesh w2) !! k1 = Some d1
  ∧ mesh_vertexData (mesh w2) !! k2 = Some d2.
Proof.
  intros (_ & Hm1 & _)%addVertexData_inv (Hfresh2 & Hm2 & _)%addVertexData_inv.
  rewrite Hm1 in Hfresh2. cbn in Hfresh2.
  assert (Hne : k1 ≠ k2).
  { intros ->. by rewrite lookup_insert_eq in Hfresh2. }
  rewrite Hm2, Hm1. cbn. split_and!; [done|..].
  - by rewrite lookup_insert_ne, lookup_insert_eq.
  - by rewrite lookup_insert_eq.
Qed.

(** ** The initial colour *)

Lemma prefix_app (p s : string) :
  String.prefix p s = true ↔ ∃ rest, s = p +:+ rest.
Proof.
  revert s. induction p as [|c p IH]; intros [|d s]; cbn.
  - split; [|done]. intros _. by exists "".
  - split; [|done]. intros _. by exists (String d s).
  - split; [done|]. by intros [rest Hr].
  - destruct (Ascii.ascii_dec c d) as [->|Hne].
    + rewrite IH. split; intros [rest Hr]; exists rest.
      * by rewrite Hr.
      * by injection Hr.
    + split; [done|]. intros [rest Hr]. by injection Hr.
Qed.

Lemma contains_occurs_in (pattern s : string) :
  contains pattern s = true ↔ occurs_in pattern s.
Proof.
  unfold occurs_in. induction s as [|c s IH]; cbn [contains].
  - rewrite orb_false_r, prefix_app. split.
    + intros [rest ->]. by exists "", rest.
    + intros (before & after & H). destruct before; [by exists after|done].
  - rewrite orb_true_iff, prefix_app, IH. split.
    + intros [[rest ->]|(before & after & ->)].
      * by exists "", rest.
      * by exists (String c before), after.
    + intros ([|d before] & after & H).
      * left. by exists after.
      * right. injection H as -> ->. by exists before, after.
Qed.

Lemma first_match_spec (table : list (string * nat)) (filename : string) :
  match first_match table filename with
  | LutColour label =>
    ∃ i pattern,
      table !! i = Some (pattern, label)
      ∧ occurs_in pattern filename
      ∧ ∀ j pattern' label', j < i → table !! j = Some (pattern', label') →
                             ¬ occurs_in pattern' filename
  | RandomBrightColour =>
    ∀ pattern label, (pattern, label) ∈ table → ¬ occurs_in pattern filename
  end.
Proof.
  induction table as [|[pattern label] table IH]; cbn [first_match].
  - intros pattern label Hin. by apply elem_of_nil in Hin.
  - destruct (contains pattern filename) eqn:Hc.
    + exists 0, pattern. split; [done|]. split; [by apply contains_occurs_in|].
      intros j ?? Hj. lia.
    + assert (Hno : ¬ occurs_in pattern filename)
        by (rewrite <-contains_occurs_in; congruence).
      destruct (first_match table filename) as [lbl|].
      * destruct IH as (i & pat & Hi & Hocc & Hfirst).
        exists (S i), pat. split; [done|]. split; [done|].
        intros [|j] pat' lbl' Hj Hl.
        -- by injection Hl as <- <-.
        -- apply (Hfirst j pat' lbl'); [lia|done].
      * intros pat lbl [[= -> ->]|Hin]%elem_of_cons; [done|]. by apply (IH pat lbl).
Qed.

(** X19. [genMeshColour] gives the colour of a lookup-table label exactly
    when one of its fifteen patterns occurs in the file name, and then
    the label of the first such pattern in the order of the tests.  With
    no pattern in the name the colour is a random one. *)
Theorem genMeshColour_first_pattern (filename : string) :
  (genMeshColour filename = RandomBrightColour
   ↔ ∀ pattern label, (pattern, label) ∈ subcortical_labels →
                      ¬ occurs_in pattern filename)
  ∧ ∀ label,
      genMeshColour filename = LutColour label →
      ∃ i pattern,
        subcortical_labels !! i = Some (pattern, label)
        ∧ occurs_in pattern filename
        ∧ ∀ j pattern' label', j < i →
            subcortical_labels !! j = Some (pattern', label') →
            ¬ occurs_in pattern' filename.
Proof.
  change (genMeshColour filename) with (first_match subcortical_labels filename).
  pose proof (first_match_spec subcortical_labels filename) as H.
  destruct (first_match subcortical_labels filename) as [lbl|]; split.
  - split; [done|]. intros Hnone.
    destruct H as (i & pat & Hi & Hocc & _).
    destruct (Hnone pat lbl); [|done]. by eapply list_elem_of_lookup_2.
  - by intros label [= <-].
  - done.
  - done.
Qed.

Lemma genMeshColour_first_pattern_witness :
  ∃ i pattern,
    subcortical_labels !! i = Some (pattern, 17)
    ∧ occurs_in pattern "sub01-L_Hipp_first-R_Hipp.vtk".
Proof.
  destruct (genMeshColour_first_pattern "sub01-L_Hipp_first-R_Hipp.vtk") as [_ H].
  destruct (H 17) as (i & pattern & Hi & Hocc & _); [reflexivity|].
  by exists i, pattern.
Defined.

(** ** Removing the listeners *)

(** The loop of [destroy]: what is left of the listeners on names and on
    transforms. *)
Lemma destroy_overlays_inv (known : Overlay → bool) (l : list Overlay) (w : World) :
  let w' := foldl (destroy_overlay known) w l in
  self w' = self w ∧ overlayList w' = overlayList w
  ∧ (∀ o n, n ∈ name_listeners (displayCtx w') o
            ↔ n ∈ name_listeners (displayCtx w) o
              ∧ ¬ (n = name (self w) ∧ o ∈ l ∧ known o = true))
  ∧ (∀ o n, n ∈ transform_listeners (displayCtx w') o
            ↔ n ∈ transform_listeners (displayCtx w) o
              ∧ ¬ (n = name (self w) ∧ o ∈ l ∧ known o = true
                   ∧ refImage (self w) = Some o)).
Proof.
  revert w. induction l as [|x l IH]; intros w; cbn [foldl].
  { split_and!; try done; intros o n; rewrite elem_of_nil; tauto. }
  destruct (IH (destroy_overlay known w x)) as (Hs & Hol & Hnl & Htl).
  assert (Hs1 : self (destroy_overlay known w x) = self w).
  { unfold destroy_overlay. destruct (known x); [|done]. by case_decide. }
  assert (Hol1 : overlayList (destroy_overlay known w x) = overlayList w).
  { unfold destroy_overlay. destruct (known x); [|done]. by case_decide. }
  assert (Hnl1 : ∀ o n, n ∈ name_listeners (displayCtx (destroy_overlay known w x)) o
                        ↔ n ∈ name_listeners (displayCtx w) o
                          ∧ ¬ (n = name (self w) ∧ o = x ∧ known o = true)).
  { intros o n. unfold destroy_overlay. destruct (known x) eqn:Hk.
    - assert (Hnl0 : ∀ w1 : World,
                name_listeners (displayCtx w1)
                = name_listeners (displayCtx (upd_displayCtx (remove_name_listener (name (self w)) x) w)) →
                name_listeners (displayCtx w1)
                = <[x := removeListener (name (self w)) (name_listeners (displayCtx w) x)]>
                    (name_listeners (displayCtx w))) by (by intros w1 ->).
      rewrite Hnl0 by (by case_decide).
      destruct (decide (x = o)) as [->|Hne].
      + rewrite fn_lookup_insert. unfold removeListener.
        rewrite elem_of_difference, elem_of_singleton. rewrite Hk. tauto.
      + rewrite fn_lookup_insert_ne by done. split; [|tauto].
        intros Hn. split; [done|]. intros (_ & -> & _). done.
    - split; [|tauto]. intros Hn. split; [done|]. intros (_ & -> & Hk'). congruence. }
  assert (Htl1 : ∀ o n, n ∈ transform_listeners (displayCtx (destroy_overlay known w x)) o
                        ↔ n ∈ transform_listeners (displayCtx w) o
                          ∧ ¬ (n = name (self w) ∧ o = x ∧ known o = true
                               ∧ refImage (self w) = Some o)).
  { intros o n. unfold destroy_overlay. destruct (known x) eqn:Hk.
    - cbn [self upd_displayCtx].
      destruct (decide (Some x = refImage (self w))) as [Hr|Hr]; cbn.
      + destruct (decide (x = o)) as [->|Hne].
        * rewrite fn_lookup_insert. unfold removeListener.
          rewrite elem_of_difference, elem_of_singleton. rewrite Hk. split.
          -- intros [? ?]. split; [done|]. tauto.
          -- intros [? Hnot]. split; [done|]. intros ->. apply Hnot. auto.
        * rewrite fn_lookup_insert_ne by done. split; [|tauto].
          intros Hn. split; [done|]. intros (_ & -> & _). done.
      + split; [|tauto]. intros Hn. split; [done|].
        intros (_ & -> & _ & Hr'). congruence.
    - split; [|tauto]. intros Hn. split; [done|]. intros (_ & -> & Hk' & _). congruence. }
  rewrite Hs, Hol, Hs1, Hol1. split_and!; try done.
  - intros o n. rewrite Hnl, Hnl1, Hs1, elem_of_cons.
    split.
    + intros [[Hn Hx] Hl]. split; [done|]. intros (-> & [->|Hin] & Hk); tauto.
    + intros [Hn Hnot]. split; [split; [done|]|]; intros (? & ? & ?); apply Hnot; auto.
  - intros o n. rewrite Htl, Htl1, Hs1, elem_of_cons.
    split.
    + intros [[Hn Hx] Hl]. split; [done|]. intros (-> & [->|Hin] & Hk & Hr); tauto.
    + intros [Hn Hnot]. split; [split; [done|]|]; intros (? & ? & ? & ?); apply Hnot; auto.
Qed.

(** X20. On a registered instance [destroy] takes the instance's name off
    the listeners of the overlay list, off the listeners on the name of
    every overlay of the list that the display context still knows, and
    off the listeners on the transform of the reference image if that is
    such an overlay.  Listeners under other names stay; so do the
    instance's own on overlays that are no longer in the list, or that
    the display context does not know any more. *)
Theorem destroy_listeners_removes (known : Overlay → bool) (w : World) :
  registered (self w) = true →
  (name (self w) ∉ overlays_listeners (overlayList (destroy_listeners known w)))
  ∧ (∀ o, o ∈ overlays (overlayList w) → known o = true →
       (name (self w) ∉ name_listeners (displayCtx (destroy_listeners known w)) o)
       ∧ (refImage (self w) = Some o →
          name (self w) ∉ transform_listeners (displayCtx (destroy_listeners known w)) o))
  ∧ (∀ o n, (n ≠ name (self w) ∨ o ∉ overlays (overlayList w) ∨ known o = false) →
       (n ∈ name_listeners (displayCtx (destroy_listeners known w)) o
        ↔ n ∈ name_listeners (displayCtx w) o)
       ∧ (n ∈ transform_listeners (displayCtx (destroy_listeners known w)) o
          ↔ n ∈ transform_listeners (displayCtx w) o))
  ∧ self (destroy_listeners known w) = self w.
Proof.
  intros Hreg. unfold destroy_listeners. rewrite Hreg.
  set (w0 := upd_overlayList (remove_overlays_listener (name (self w))) w).
  destruct (destroy_overlays_inv known (overlays (overlayList w0)) w0)
    as (Hs & Hol & Hnl & Htl).
  rewrite Hs, Hol. cbn [w0 self upd_overlayList overlayList overlays
                        remove_overlays_listener overlays_listeners] in *.
  split_and!.
  - unfold removeListener. rewrite elem_of_difference, elem_of_singleton. tauto.
  - intros o Hin Hk. split.
    + rewrite Hnl. tauto.
    + intros Hr. rewrite Htl. tauto.
  - intros o n Hcase. split.
    + rewrite Hnl. split; [tauto|]. intros Hn. split; [done|].
      intros (? & ? & Hk). destruct Hcase as [?|[?|Hk']]; [done|done|congruence].
    + rewrite Htl. split; [tauto|]. intros Hn. split; [done|].
      intros (? & ? & Hk & _). destruct Hcase as [?|[?|Hk']]; [done|done|congruence].
  - done.
Qed.

Lemma destroy_listeners_removes_witness :
  ("MeshOpts_1" ∉ overlays_listeners
     (overlayList (destroy_listeners (λ _, true) Example.world)))
  ∧ ("MeshOpts_1" ∉ transform_listeners
       (displayCtx (destroy_listeners (λ _, true) Example.world)) Example.t1).
Proof.
  destruct (destroy_listeners_removes (λ _, true) Example.world) as (H1 & H2 & _);
    [reflexivity|].
  split; [exact H1|].
  apply (H2 Example.t1); [apply list_elem_of_here|reflexivity|reflexivity].
Defined.

(** ** Looking up a vertex, and the flat colour *)

Section Lookup.

Variable invert : mat4 → mat4.
Variable applyBricon : list Qc → Qc → Qc → list Qc.
Variable nearest : point → Qc * nat.

(** For valid names, and from a space other than 'mesh',
    [transformCoords] applies the matrix of [getTransform], with or
    without a reference image: nothing is multiplied on the right of the
    matrix of the display options, and what is multiplied on the left is
    multiplied in the same order on both routes. *)
Lemma transformCoords_matrix (w : World) (coords : list point) (from_ to : string) :
  is_space_name from_ → is_space_name to → from_ ≠ "mesh" →
  ∃ xform, getTransform invert w from_ to = Ok xform
           ∧ transformCoords invert w coords from_ to = Ok (transform coords xform).
Proof.
  intros Hf%is_space_name_valid Ht%is_space_name_valid Hmesh.
  unfold getTransform, transformCoords, NiftiOpts_transformCoords.
  rewrite (normaliseSpace_valid _ _ Hf), (normaliseSpace_valid _ _ Ht).
  cbn [mbind result_bind]. destruct (refImage (self w)) as [ref|].
  - eexists; split; [reflexivity|]. do 2 f_equal.
    rewrite !(decide_False (P := from_ = "mesh" ∧ _)) by (by intros [? _]).
    by destruct (decide (to = "mesh" ∧ coordSpace (self w) = cs_torig)).
  - exists eye. by rewrite transform_eye.
Qed.

(** X21. [getVertex] never raises.  It asks the mesh for the vertex
    nearest to the given display location (the current location of the
    display context when none is given) taken through
    [getTransform('display', 'mesh')], and returns that vertex, or [None]
    when a tolerance is given and the vertex is farther away than that;
    with [tol = None] it always returns a vertex. *)
Theorem getVertex_nearest (location : point) (w : World) (xyz : option point)
    (tol : option Qc) :
  ∃ xform,
    getTransform invert w "display" "mesh" = Ok xform
    ∧ (tol = None →
       getVertex invert nearest location w xyz tol
       = Ok (Some (nearest (transform1 xform (default location xyz))).2))
    ∧ (∀ t, tol = Some t →
         ((t < (nearest (transform1 xform (default location xyz))).1)%Qc →
          getVertex invert nearest location w xyz tol = Ok None)
         ∧ (¬ (t < (nearest (transform1 xform (default location xyz))).1)%Qc →
            getVertex invert nearest location w xyz tol
            = Ok (Some (nearest (transform1 xform (default location xyz))).2))).
Proof.
  destruct (transformCoords_matrix w [default location xyz] "display" "mesh")
    as (xform & Hx & Ht); [unfold is_space_name; auto..|done|].
  exists xform. split; [done|].
  unfold getVertex.
  replace (match xyz with None => location | Some xyz0 => xyz0 end)
    with (default location xyz) by (by destruct xyz).
  rewrite Ht. cbn [mbind result_bind transform map].
  destruct (nearest (transform1 xform (default location xyz))) as [dist vidx].
  cbn [fst snd]. split.
  - by intros ->.
  - intros t ->. split; intros Hd.
    + by rewrite decide_True.
    + by rewrite decide_False.
Qed.

(** X22. The flat colour is the brightness/contrast-adjusted red, green
    and blue of [colour] followed by the alpha of the display over 100:
    the fourth channel of [colour] itself is never used; and once vertex
    data is selected the brightness and contrast of the display are not
    used either. *)
Theorem getConstantColour_channels (colour colour' : list Qc) (display display' : Display)
    (s : MeshOpts) :
  list.last (getConstantColour applyBricon colour display s)
  = Some (alpha display / Q2Qc 100)%Qc
  ∧ (take 3 colour = take 3 colour' →
     getConstantColour applyBricon colour display s
     = getConstantColour applyBricon colour' display s)
  ∧ (vertexData s ≠ None → alpha display = alpha display' →
     getConstantColour applyBricon colour display s
     = getConstantColour applyBricon colour display' s).
Proof.
  unfold getConstantColour. split_and!.
  - destruct (vertexData s); by rewrite list.last_snoc.
  - intros ->. done.
  - intros Hv ->. by destruct (vertexData s).
Qed.

End Lookup.

Lemma getVertex_nearest_witness :
  getVertex Example.invert Scene.nearest (Example.q 1, Example.q 0, Example.q 0)
    Example.world_noref None (Some (Q2Qc (1 # 2)))
  = Ok None.
Proof.
  destruct (getVertex_nearest Example.invert Scene.nearest
              (Example.q 1, Example.q 0, Example.q 0) Example.world_noref None
              (Some (Q2Qc (1 # 2)))) as (xform & Hx & _ & Ht).
  destruct (Ht (Q2Qc (1 # 2)) eq_refl) as [Hfar _].
  apply Hfar.
  assert (xform = eye) as -> by (vm_compute in Hx; by injection Hx).
  by vm_compute.
Defined.

Lemma getConstantColour_channels_witness :
  getConstantColour Scene.applyBricon
    [Example.q 1; Example.q 0; Example.q 0; Example.q 1] Scene.display
    (set_vertexData (Some "lh.thickness") Example.opts)
  = getConstantColour Scene.applyBricon
      [Example.q 1; Example.q 0; Example.q 0; Example.q 1] Scene.dimmed
      (set_vertexData (Some "lh.thickness") Example.opts).
Proof.
  by apply (getConstantColour_channels Scene.applyBricon
              [Example.q 1; Example.q 0; Example.q 0; Example.q 1]
              [Example.q 1; Example.q 0; Example.q 0; Example.q 1]
              Scene.display Scene.dimmed
              (set_vertexData (Some "lh.thickness") Example.opts)).
Defined.

(** ** Vertex sets *)

Section VertexSetsProps.

Variable invert : mat4 → mat4.
Variable mesh_vertexSets : Mesh → list (option string).
Variable mesh_selectedVertices : Mesh → option string.
Variable mesh_loadVertices : option string → Mesh → result Mesh.
Variable mesh_setVertices : option string → Mesh → Mesh.

(** X23. When the vertex set changes the bounds follow the new vertices:
    a set the mesh has is selected, one it has not is loaded, and the
    bounds are then in sync with the mesh as it is afterwards.  If
    loading raises, the exception goes to the caller and the bounds are
    not recomputed: unlike for vertex data, nothing catches it. *)
Theorem vertexSetChanged_bounds (vs : VertexSets) (w : World) :
  (vertexSet vs ∈ mesh_vertexSets (mesh w) →
   ∃ w', vertexSetChanged invert mesh_vertexSets mesh_loadVertices mesh_setVertices vs w
         = Ok w'
         ∧ mesh w' = mesh_setVertices (vertexSet vs) (mesh w)
         ∧ bounds_in_sync invert w')
  ∧ (vertexSet vs ∉ mesh_vertexSets (mesh w) →
     ∀ m, mesh_loadVertices (vertexSet vs) (mesh w) = Ok m →
     ∃ w', vertexSetChanged invert mesh_vertexSets mesh_loadVertices mesh_setVertices vs w
           = Ok w'
           ∧ mesh w' = m
           ∧ bounds_in_sync invert w')
  ∧ (vertexSet vs ∉ mesh_vertexSets (mesh w) →
     ∀ e, mesh_loadVertices (vertexSet vs) (mesh w) = Raise e →
     vertexSetChanged invert mesh_vertexSets mesh_loadVertices mesh_setVertices vs w
     = Raise e).
Proof.
  unfold vertexSetChanged. split_and!.
  - intros Hin. rewrite decide_False by (by intros ?).
    cbn [mbind result_bind].
    match goal with |- context [updateBounds invert ?w0] =>
      destruct (updateBounds_spec invert w0) as (w' & -> & Hs & _ & Hm & _) end.
    exists w'. by rewrite Hm.
  - intros Hout m Hl. rewrite decide_True by done. rewrite Hl.
    cbn [mbind result_bind].
    match goal with |- context [updateBounds invert ?w0] =>
      destruct (updateBounds_spec invert w0) as (w' & -> & Hs & _ & Hm & _) end.
    exists w'. by rewrite Hm.
  - intros Hout e Hl. rewrite decide_True by done. by rewrite Hl.
Qed.

(** [addVertexSetOptions] keeps the choices there are and appends. *)
Lemma addVertexSetOptions_choices (paths : list (option string)) (vs : VertexSets) :
  vertexSet (addVertexSetOptions paths vs) = vertexSet vs
  ∧ vertexSet_choices (addVertexSetOptions paths vs)
    = (vertexSet_choices vs ++ filter (λ p, p ∉ vertexSet_choices vs) paths)%list.
Proof. done. Qed.

(** X24. When the vertices of the mesh change and the callback returns,
    [vertexSet] is the vertex set selected on the mesh and is one of its
    own choices; the choices there were are still there, in their
    places.  On an instance that is not registered, and whenever
    [vertexSet] had that value already, nothing else changes and the
    callback cannot raise. *)
Theorem overlayVerticesChanged_selects (vs : VertexSets) (w : World) :
  (∀ vs' w',
     overlayVerticesChanged invert mesh_vertexSets mesh_selectedVertices
       mesh_loadVertices mesh_setVertices vs w = Ok (vs', w') →
     vertexSet vs' = mesh_selectedVertices (mesh w)
     ∧ vertexSet vs' ∈ vertexSet_choices vs'
     ∧ ∃ added, vertexSet_choices vs' = (vertexSet_choices vs ++ added)%list)
  ∧ ((registered (self w) = false ∨ vertexSet vs = mesh_selectedVertices (mesh w)) →
     ∃ vs', overlayVerticesChanged invert mesh_vertexSets mesh_selectedVertices
              mesh_loadVertices mesh_setVertices vs w = Ok (vs', w)).
Proof.
  unfold overlayVerticesChanged, assign_vertexSet.
  set (vset := mesh_selectedVertices (mesh w)).
  set (vs1 := if decide (vset ∉ vertexSet_choices vs)
              then addVertexSetOptions [vset] vs else vs).
  assert (H1 : vertexSet vs1 = vertexSet vs
               ∧ vset ∈ vertexSet_choices vs1
               ∧ ∃ added, vertexSet_choices vs1 = (vertexSet_choices vs ++ added)%list).
  { unfold vs1. destruct (decide (vset ∉ vertexSet_choices vs)) as [Hout|Hin].
    - destruct (addVertexSetOptions_choices [vset] vs) as [-> ->].
      split; [done|]. split; [|eauto].
      rewrite elem_of_app, list_elem_of_filter. right. split; [done|].
      apply list_elem_of_here.
    - split; [done|]. split; [by apply dec_stable|]. exists []. by rewrite app_nil_r. }
  destruct H1 as (Hv & Hin & Hadd).
  split.
  - intros vs' w'. destruct (decide (vertexSet vs1 = vset)) as [Heq|Hne].
    + intros [= <- <-]. by rewrite Heq.
    + destruct (registered (self w)).
      * destruct (vertexSetChanged _ _ _ _ _ _) as [w2|]; [|done].
        cbn [mbind result_bind]. intros [= <- <-]. done.
      * intros [= <- <-]. done.
  - intros [Hreg|Hsame].
    + rewrite Hreg. destruct (decide (vertexSet vs1 = vset)); eauto.
    + rewrite decide_True by congruence. eauto.
Qed.

End VertexSetsProps.

Lemma vertexSetChanged_bounds_witness :
  vertexSetChanged Example.invert Scene.mesh_vertexSets Scene.mesh_loadVertices
    Scene.mesh_setVertices (mkVertexSets (Some "lh.sphere") [None]) Example.world
  = Raise (IOError "lh.sphere")
  ∧ ∃ w', vertexSetChanged Example.invert Scene.mesh_vertexSets Scene.mesh_loadVertices
            Scene.mesh_setVertices (mkVertexSets (Some "lh.inflated") [None]) Example.world
          = Ok w'
          ∧ mesh w' = Scene.inflated (mesh Example.world)
          ∧ bounds_in_sync Example.invert w'.
Proof.
  destruct (vertexSetChanged_bounds Example.invert Scene.mesh_vertexSets
              Scene.mesh_loadVertices Scene.mesh_setVertices
              (mkVertexSets (Some "lh.sphere") [None]) Example.world) as (_ & _ & Hraise).
  destruct (vertexSetChanged_bounds Example.invert Scene.mesh_vertexSets
              Scene.mesh_loadVertices Scene.mesh_setVertices
              (mkVertexSets (Some "lh.inflated") [None]) Example.world) as (_ & Hload & _).
  split.
  - apply Hraise; [|reflexivity].
    by apply (bool_decide_unpack (Some "lh.sphere" ∉ [Some "lh.pial"; Some "lh.white"])).
  - apply Hload; [|reflexivity].
    by apply (bool_decide_unpack (Some "lh.inflated" ∉ [Some "lh.pial"; Some "lh.white"])).
Defined.

Lemma overlayVerticesChanged_selects_witness :
  ∃ vs', overlayVerticesChanged Example.invert Scene.mesh_vertexSets
           Scene.mesh_selectedVertices Scene.mesh_loadVertices Scene.mesh_setVertices
           Scene.vertexSets (upd_self (set_registered false) Example.world_noref)
         = Ok (vs', upd_self (set_registered false) Example.world_noref)
         ∧ vertexSet vs' = Some "lh.white"
         ∧ Some "lh.white" ∈ vertexSet_choices vs'.
Proof.
  destruct (overlayVerticesChanged_selects Example.invert Scene.mesh_vertexSets
              Scene.mesh_selectedVertices Scene.mesh_loadVertices Scene.mesh_setVertices
              Scene.vertexSets (upd_self (set_registered false) Example.world_noref))
    as [Hsel Hok].
  destruct Hok as [vs' Hvs']; [by left|].
  destruct (Hsel vs' _ Hvs') as (Hv & Hin & _).
  exists vs'. split; [exact Hvs'|]. split; [exact Hv|].
  rewrite Hv in Hin. exact Hin.
Defined.

(** ** How the callbacks keep the instance wired up *)

Lemma ref_frame_proj (s s' : MeshOpts) :
  ref_frame s s' →
  name s' = name s ∧ overlay s' = overlay s ∧ registered s' = registered s
  ∧ coordSpace s' = coordSpace s
  ∧ vertexData s' = vertexData s ∧ modulateData s' = modulateData s
  ∧ vertexData_choices s' = vertexData_choices s
  ∧ modulateData_choices s' = modulateData_choices s
  ∧ vertexDataIndex s' = vertexDataIndex s
  ∧ vertexDataIndex_maxval s' = vertexDataIndex_maxval s
  ∧ vdata s' = vdata s ∧ vdataRange s' = vdataRange s.
Proof.
  intros H. specialize (H None [] [] None). destruct s, s'.
  by injection H as -> -> -> -> -> -> -> -> -> -> -> ->.
Qed.

Lemma ref_frame_refl (s : MeshOpts) : ref_frame s s.
Proof. by intros r c b o. Qed.

Lemma ref_frame_trans (s1 s2 s3 : MeshOpts) :
  ref_frame s1 s2 → ref_frame s2 s3 → ref_frame s1 s3.
Proof. intros H1 H2 r c b o. by rewrite H2, H1. Qed.

Lemma vdata_frame_proj (s s' : MeshOpts) :
  vdata_frame s s' →
  name s' = name s ∧ overlay s' = overlay s ∧ registered s' = registered s
  ∧ refImage s' = refImage s ∧ refImage_choices s' = refImage_choices s
  ∧ coordSpace s' = coordSpace s ∧ bounds s' = bounds s
  ∧ oldRefImage s' = oldRefImage s
  ∧ vertexData s' = vertexData s ∧ modulateData s' = modulateData s
  ∧ vertexData_choices s' = vertexData_choices s
  ∧ modulateData_choices s' = modulateData_choices s.
Proof.
  intros H. specialize (H ∅ ∅ 0%Z 0%Z). destruct s, s'.
  by injection H as -> -> -> -> -> -> -> -> -> -> -> ->.
Qed.

Section Wiring.

Variable invert : mat4 → mat4.

Lemma updateBounds_frames (w : World) :
  ∃ w', updateBounds invert w = Ok w'
        ∧ bounds_in_sync invert w'
        ∧ ref_frame (self w) (self w')
        ∧ refImage (self w') = refImage (self w)
        ∧ refImage_choices (self w') = refImage_choices (self w)
        ∧ oldRefImage (self w') = oldRefImage (self w)
        ∧ mesh w' = mesh w ∧ images w' = images w
        ∧ overlayList w' = overlayList w ∧ displayCtx w' = displayCtx w.
Proof.
  destruct (updateBounds_spec invert w) as (w' & Hu & Hs & Hb & Hm & Hi & Hol & Hdc).
  exists w'. split_and!; try done.
  - intros r c b o. specialize (Hb []). destruct (self w), (self w').
    by injection Hb as -> -> -> -> -> -> -> -> -> -> -> -> -> -> ->.
  - by apply set_bounds_frame in Hb as (_ & _ & ? & _).
  - by apply set_bounds_frame in Hb as (_ & _ & _ & ? & _).
  - by apply set_bounds_frame in Hb as (_ & _ & _ & _ & _ & ?).
Qed.

(** [__refImageChanged] wires the instance up, whatever went before. *)
Lemma refImageChanged_frames (w : World) :
  ∃ w', refImageChanged invert w = Ok w'
        ∧ bounds_in_sync invert w'
        ∧ oldRefImage (self w') = refImage (self w')
        ∧ (∀ ref, refImage (self w') = Some ref →
             name (self w') ∈ transform_listeners (displayCtx w') ref)
        ∧ ref_frame (self w) (self w')
        ∧ refImage (self w') = refImage (self w)
        ∧ refImage_choices (self w') = refImage_choices (self w)
        ∧ mesh w' = mesh w ∧ images w' = images w
        ∧ overlayList w' = overlayList w
        ∧ orderedOverlays (displayCtx w') = orderedOverlays (displayCtx w)
        ∧ opts_getTransform (displayCtx w') = opts_getTransform (displayCtx w)
        ∧ name_listeners (displayCtx w') = name_listeners (displayCtx w).
Proof.
  destruct (refImageChanged_inv invert w)
    as (w' & Hr & Hs & Hold & Href & Hc & Hn & Hreg & Hcs & Htl & Hnl & Hoo & Hot
        & Hol & Hm & Hi).
  exists w'. rewrite Hold, Href, Hn, Htl. split_and!; try done.
  - intros ref Hrf. unfold transform_listeners_after. rewrite Hrf.
    rewrite fn_lookup_insert. unfold addListener. listeners.
  - revert Hr. unfold refImageChanged.
    match goal with |- context [updateBounds invert ?w0] =>
      destruct (updateBounds_frames w0) as (w'' & -> & _ & Hf & _) end.
    intros [= <-]. eapply ref_frame_trans; [|exact Hf].
    intros r c b o. destruct w as [s ? ? ? ? ?]; cbn.
    destruct (oldRefImage s) as [old|]; [destruct (decide (old ∈ overlays _))|];
      destruct s; cbn; by destruct refImage0.
Qed.

Lemma assign_refImage_frames (v : option Overlay) (w : World) :
  ∃ w', assign_refImage invert v w = Ok w'
        ∧ refImage (self w') = v
        ∧ (wired invert w → wired invert w')
        ∧ ref_frame (self w) (self w')
        ∧ refImage_choices (self w') = refImage_choices (self w)
        ∧ mesh w' = mesh w ∧ images w' = images w
        ∧ overlayList w' = overlayList w
        ∧ orderedOverlays (displayCtx w') = orderedOverlays (displayCtx w)
        ∧ opts_getTransform (displayCtx w') = opts_getTransform (displayCtx w)
        ∧ name_listeners (displayCtx w') = name_listeners (displayCtx w)
        ∧ (registered (self w) = false → displayCtx w' = displayCtx w
                                          ∧ bounds (self w') = bounds (self w)).
Proof.
  unfold assign_refImage.
  destruct (decide (refImage (self w) = v)) as [<-|Hne].
  { exists w. split_and!; done || apply ref_frame_refl. }
  assert (Hf0 : ref_frame (self w) (self (upd_self (set_refImage v) w)))
    by (intros r c b o; by destruct w as [[] ?]).
  destruct (registered (self (upd_self (set_refImage v) w))) eqn:Hreg.
  - destruct (refImageChanged_frames (upd_self (set_refImage v) w))
      as (w' & -> & Hs & Hold & Hl & Hf & Href & Hc & Hm & Hi & Hol & Hoo & Hot & Hnl).
    exists w'. rewrite Href, Hc, Hm, Hi, Hol, Hoo, Hot, Hnl.
    split_and!; try done; try (by destruct w as [[] ?]).
    + intros _. split_and!; try done.
      apply ref_frame_proj in Hf as (_ & _ & -> & _). done.
    + intros Hreg'. destruct w as [[] ?]; cbn in *. congruence.
  - eexists. split; [reflexivity|].
    split_and!; try done; try (by destruct w as [[] ?]).
    intros (Hreg' & _). destruct w as [[] ?]; cbn in *. congruence.
Qed.

Lemma overlayListChanged_frames (w : World) :
  ∃ w', overlayListChanged invert w = Ok w'
        ∧ (wired invert w → wired invert w')
        ∧ ref_frame (self w) (self w')
        ∧ mesh w' = mesh w ∧ images w' = images w
        ∧ overlays (overlayList w') = overlays (overlayList w)
        ∧ orderedOverlays (displayCtx w') = orderedOverlays (displayCtx w)
        ∧ opts_getTransform (displayCtx w') = opts_getTransform (displayCtx w)
        ∧ (overlay (self w) ∈ orderedOverlays (displayCtx w) →
           overlayList w' = overlayList w
           ∧ refImage_choices (self w')
             = None :: (Some <$> filter (λ o, isNifti o = true)
                                   (orderedOverlays (displayCtx w)))
           ∧ refImage (self w')
             = (if decide (refImage (self w)
                           ∈ None :: (Some <$> filter (λ o, isNifti o = true)
                                               (orderedOverlays (displayCtx w))))
                then refImage (self w) else None)).
Proof.
  unfold overlayListChanged.
  destruct (decide (overlay (self w) ∉ orderedOverlays (displayCtx w))) as [Hout|Hin].
  { eexists. split; [reflexivity|]. split_and!; done || apply ref_frame_refl. }
  set (niftis := filter (λ o, isNifti o = true) (orderedOverlays (displayCtx w))).
  destruct (add_name_listeners_inv niftis w)
    as (Hs & Hol & Hm & Hi & _ & Hoo & Htl & Hot & _).
  set (w1 := foldl _ w niftis) in *.
  assert (Hw1 : wired invert w → wired invert w1).
  { intros (Hreg & Hsync & Hold & Hl). unfold wired. rewrite Hs, Htl.
    split_and!; try done.
    eapply bounds_in_sync_ext; [..|exact Hsync]; by rewrite ?Hs, ?Hm, ?Hi, ?Hot. }
  match goal with |- context [assign_refImage invert ?v w1] =>
    destruct (assign_refImage_frames v w1)
      as (w2 & -> & Hv & Hwired & Hf & Hc & Hm2 & Hi2 & Hol2 & Hoo2 & Hot2 & _) end.
  cbn [mbind result_bind]. eexists. split; [reflexivity|].
  rewrite Hs in Hf.
  split_and!.
  - intros Hw. destruct (Hwired (Hw1 Hw)) as (Hreg & Hsync & Hold & Hl).
    by destruct w2 as [[] ?].
  - eapply ref_frame_trans; [exact Hf|]. intros r c b o. by destruct w2 as [[] ?].
  - cbn. by rewrite Hm2.
  - cbn. by rewrite Hi2.
  - cbn. by rewrite Hol2, Hol.
  - cbn. by rewrite Hoo2.
  - cbn. by rewrite Hot2.
  - intros _. split_and!.
    + cbn. by rewrite Hol2.
    + by destruct w2 as [[] ?].
    + rewrite <-Hv. by destruct w2 as [[] ?].
Qed.

End Wiring.

Lemma vdata_frame_refl (s : MeshOpts) : vdata_frame s s.
Proof. by intros d r i m. Qed.

Lemma vdata_frame_trans (s1 s2 s3 : MeshOpts) :
  vdata_frame s1 s2 → vdata_frame s2 s3 → vdata_frame s1 s3.
Proof. intros H1 H2 d r i m. by rewrite H2, H1. Qed.

(** On a mesh of per-vertex arrays a change of [vertexData] returns. *)
Lemma vdataChanged_vertexData_returns (value : option string) (w : World) :
  per_vertex_mesh (mesh w) →
  (vdataChanged value "vertexData" w).2 = None.
Proof.
  intros Hm. pose proof (vdata_outcome_shape value (mesh w)) as Hshape.
  revert Hshape. unfold vdata_outcome. vdata_slot.
  destruct (vdata_try value (mesh w)) as [m r]. cbn [snd].
  destruct r as [[[a|] range]|e']; cbn -[shape1]; intros Hshape; [|done..].
  destruct (Hshape a Hm eq_refl) as [[n ->] _]. done.
Qed.

Section Constructor.

Variable invert : mat4 → mat4.
Variable mesh_vertexSets : Mesh → list (option string).

Lemma vdataChanged_wired (value : option string) (name : string) (w : World) :
  wired invert w → wired invert (vdataChanged value name w).1.
Proof.
  intros (Hreg & Hsync & Hold & Hl).
  destruct (vdataChanged_keeps value name w) as (Hf & Hdc & _ & Hi & Hmb & _).
  apply vdata_frame_proj in Hf as (Hn & _ & Hr & Href & _ & Hcs & Hb & Ho & _).
  unfold wired. rewrite Hn, Hr, Href, Ho, Hdc. split_and!; try done.
  eapply bounds_in_sync_ext; [..|exact Hsync]; by rewrite ?Hdc.
Qed.

(** The block of [__init__] that loads inherited vertex data. *)
Lemma init_vdata_inv (w : World) :
  ((init_vdata w).2 ≠ None → (init_vdata w).2 = Some IndexError)
  ∧ (per_vertex_mesh (mesh w) → (init_vdata w).2 = None)
  ∧ (wired invert w → wired invert (init_vdata w).1)
  ∧ vdata_frame (self w) (self (init_vdata w).1)
  ∧ displayCtx (init_vdata w).1 = displayCtx w
  ∧ overlayList (init_vdata w).1 = overlayList w
  ∧ (∀ key, is_Some (mesh_vertexData (mesh w) !! key) →
            is_Some (mesh_vertexData (mesh (init_vdata w).1) !! key)).
Proof.
  unfold init_vdata.
  set (r1 := match vertexData (self w) with
             | Some _ => vdataChanged (vertexData (self w)) "vertexData" w
             | None => (w, None)
             end).
  assert (H1 : (r1.2 ≠ None → r1.2 = Some IndexError)
               ∧ (per_vertex_mesh (mesh w) → r1.2 = None)
               ∧ (wired invert w → wired invert r1.1)
               ∧ vdata_frame (self w) (self r1.1)
               ∧ displayCtx r1.1 = displayCtx w
               ∧ overlayList r1.1 = overlayList w
               ∧ (∀ key, is_Some (mesh_vertexData (mesh w) !! key) →
                         is_Some (mesh_vertexData (mesh r1.1) !! key))).
  { unfold r1. destruct (vertexData (self w)) as [f|].
    - destruct (vdataChanged_keeps (Some f) "vertexData" w) as (Hf & Hdc & Hol & _ & _ & Hd).
      split_and!; try done.
      + intros Hne. revert Hne. vdata_slot.
        destruct (vdata_try (Some f) (mesh w)) as [m [[[a|] range]|e']];
          cbn -[shape1]; [unfold shape1; destruct (shape a !! 1)|..]; cbn; done.
      + apply vdataChanged_vertexData_returns.
      + apply vdataChanged_wired.
      + intros key Hk. by rewrite Hd.
    - split_and!; done || apply vdata_frame_refl. }
  destruct r1 as [w1 e1]. cbn [fst snd] in H1.
  destruct H1 as (He & Hret & Hw & Hf & Hdc & Hol & Hd).
  destruct e1 as [e1|].
  { cbn [fst snd]. split_and!; done || by intros ?%Hret. }
  set (r2 := match modulateData (self w1) with
             | Some _ => vdataChanged (modulateData (self w1)) "modulateData" w1
             | None => (w1, None)
             end).
  assert (H2 : r2.2 = None
               ∧ (wired invert w1 → wired invert r2.1)
               ∧ vdata_frame (self w1) (self r2.1)
               ∧ displayCtx r2.1 = displayCtx w1
               ∧ overlayList r2.1 = overlayList w1
               ∧ (∀ key, is_Some (mesh_vertexData (mesh w1) !! key) →
                         is_Some (mesh_vertexData (mesh r2.1) !! key))).
  { unfold r2. destruct (modulateData (self w1)) as [f|].
    - destruct (vdataChanged_keeps (Some f) "modulateData" w1)
        as (Hf2 & Hdc2 & Hol2 & _ & _ & Hd2).
      split_and!; try done.
      + apply vdataChanged_modulateData_returns.
      + apply vdataChanged_wired.
      + intros key Hk. by rewrite Hd2.
    - split_and!; done || apply vdata_frame_refl. }
  destruct H2 as (He2 & Hw2 & Hf2 & Hdc2 & Hol2 & Hd2).
  rewrite Hdc2, Hol2, He2. split_and!; try done.
  - auto.
  - by eapply vdata_frame_trans.
  - auto.
Qed.

(** The last block of [__init__]. *)
Lemma init_refImage_inv (found : option Overlay) (w : World) :
  ∃ w', init_refImage invert found w = (w', None)
        ∧ refImage (self w')
          = match refImage (self w) with Some ref => Some ref | None => found end
        ∧ (wired invert w → wired invert w')
        ∧ ref_frame (self w) (self w')
        ∧ refImage_choices (self w') = refImage_choices (self w)
        ∧ mesh w' = mesh w
        ∧ overlayList w' = overlayList w
        ∧ (registered (self w) = false →
           displayCtx w' = displayCtx w ∧ bounds (self w') = bounds (self w)).
Proof.
  unfold init_refImage. destruct (refImage (self w)) as [ref|] eqn:Href.
  { exists w. rewrite Href. split_and!; done || apply ref_frame_refl. }
  destruct (assign_refImage_frames invert found w)
    as (w' & -> & Hv & Hw & Hf & Hc & Hm & _ & Hol & _ & _ & _ & Hun).
  exists w'. by split_and!.
Qed.

(** The first block of [__init__] on a child instance whose mesh is among
    the ordered overlays. *)
Lemma init_listeners_child (vs : VertexSets) (w : World) :
  registered (self w) = true →
  overlay (self w) ∈ orderedOverlays (displayCtx w) →
  ∃ w', init_listeners invert mesh_vertexSets vs w = ((vs, w'), None)
        ∧ wired invert w'
        ∧ name (self w) ∈ overlays_listeners (overlayList w')
        ∧ refImage_choices (self w')
          = None :: (Some <$> filter (λ o, isNifti o = true)
                                (orderedOverlays (displayCtx w)))
        ∧ refImage (self w')
          = (if decide (refImage (self w)
                        ∈ None :: (Some <$> filter (λ o, isNifti o = true)
                                            (orderedOverlays (displayCtx w))))
             then refImage (self w) else None)
        ∧ ref_frame (self w) (self w')
        ∧ mesh w' = mesh w.
Proof.
  intros Hreg Hin. unfold init_listeners. rewrite Hreg. cbn [negb].
  set (w1 := upd_overlayList (add_overlays_listener (name (self w))) w).
  destruct (overlayListChanged_frames invert w1)
    as (wa & -> & _ & Hfa & Hma & Hia & _ & Hooa & Hota & Hpa).
  destruct Hpa as (Hola & Hca & Hra); [done|].
  destruct (updateBounds_frames invert wa)
    as (wb & -> & _ & Hfb & Hrb & Hcb & _ & Hmb & _ & Holb & Hdcb).
  destruct (refImageChanged_frames invert wb)
    as (wc & -> & Hsync & Hold & Hl & Hfc & Hrc & Hcc & Hmc & _ & Holc & _).
  exists wc. split; [done|].
  assert (Hf : ref_frame (self w) (self wc)).
  { eapply ref_frame_trans; [|exact Hfc].
    eapply ref_frame_trans; [|exact Hfb]. exact Hfa. }
  split_and!; try done.
  - split_and!; try done.
    apply ref_frame_proj in Hf as (_ & _ & -> & _). done.
  - rewrite Holc, Holb, Hola. cbn. unfold addListener. listeners.
  - by rewrite Hcc, Hcb, Hca.
  - by rewrite Hrc, Hrb, Hra.
  - by rewrite Hmc, Hmb, Hma.
Qed.

(** X25. The constructor of a child instance (one with a parent) whose
    mesh is among the ordered overlays and hands out per-vertex arrays
    only, given a reference image [found] that is one of the NIFTI images
    of the list or none: it returns, and leaves the instance wired up.
    The instance listens on the overlay list, the choices of [refImage]
    are [None] and the NIFTI images in display order, and [refImage] is
    the inherited value if that is a NIFTI image of the list and
    otherwise [found]; either way it is one of the choices.  The vertex
    sets on offer are not touched. *)
Theorem init_child (found : option Overlay) (vs : VertexSets) (w : World) :
  overlay (self w) ∈ orderedOverlays (displayCtx w) →
  per_vertex_mesh (mesh w) →
  found ∈ None :: (Some <$> filter (λ o, isNifti o = true)
                              (orderedOverlays (displayCtx w))) →
  ∃ w', init invert mesh_vertexSets true found vs w = ((vs, w'), None)
        ∧ wired invert w'
        ∧ name (self w') = name (self w)
        ∧ name (self w) ∈ overlays_listeners (overlayList w')
        ∧ refImage_choices (self w')
          = None :: (Some <$> filter (λ o, isNifti o = true)
                                (orderedOverlays (displayCtx w)))
        ∧ refImage (self w')
          = (if decide (refImage (self w)
                        ∈ Some <$> filter (λ o, isNifti o = true)
                                     (orderedOverlays (displayCtx w)))
             then refImage (self w) else found)
        ∧ refImage (self w') ∈ refImage_choices (self w').
Proof.
  intros Hin Hmesh Hfound. unfold init.
  set (w0 := upd_self (set_registered true) (upd_self _ w)).
  assert (H0 : name (self w0) = name (self w) ∧ overlay (self w0) = overlay (self w)
               ∧ refImage (self w0) = refImage (self w)
               ∧ displayCtx w0 = displayCtx w ∧ mesh w0 = mesh w
               ∧ registered (self w0) = true)
    by (by destruct w as [[] ?]).
  destruct H0 as (Hn0 & Ho0 & Hr0 & Hdc0 & Hm0 & Hreg0).
  destruct (init_listeners_child vs w0 Hreg0) as (wa & -> & Hwa & Hla & Hca & Hra & Hfa & Hma).
  { by rewrite Ho0, Hdc0. }
  apply ref_frame_proj in Hfa as (Hna & _).
  destruct (init_vdata_inv wa) as (_ & Hret & Hwb & Hfb & _ & Holb & _).
  destruct (init_vdata wa) as [wb eb]. cbn [fst snd] in *.
  rewrite Hret by (by rewrite Hma, Hm0).
  apply vdata_frame_proj in Hfb as (Hnb & _ & _ & Hrb & Hcb & _).
  destruct (init_refImage_inv found wb) as (wc & -> & Hrc & Hwc & Hfc & Hcc & _ & Holc & _).
  apply ref_frame_proj in Hfc as (Hnc & _).
  exists wc. split; [done|].
  assert (Hchoices : refImage_choices (self wc)
                     = None :: (Some <$> filter (λ o, isNifti o = true)
                                           (orderedOverlays (displayCtx w)))).
  { by rewrite Hcc, Hcb, Hca, Hdc0. }
  assert (Href : refImage (self wc)
                 = (if decide (refImage (self w)
                               ∈ Some <$> filter (λ o, isNifti o = true)
                                            (orderedOverlays (displayCtx w)))
                    then refImage (self w) else found)).
  { rewrite Hrc, Hrb, Hra, Hr0, Hdc0.
    destruct (refImage (self w)) as [ref|].
    - destruct (decide (Some ref ∈ None :: _)) as [[?|Hy]%elem_of_cons|Hn]; [done|..].
      + by rewrite decide_True.
      + rewrite decide_False; [done|]. intros ?. apply Hn. by right.
    - rewrite decide_True by left. rewrite decide_False; [done|].
      intros (? & ? & _)%list_elem_of_fmap. done. }
  split_and!; try done.
  - auto.
  - by rewrite Hnc, Hnb, Hna.
  - by rewrite Holc, Holb, <-Hn0.
  - rewrite Hchoices, Href. case_decide; [by right|done].
Qed.

(** X26. The constructor of a parent instance (one without a parent) on
    a mesh that hands out per-vertex arrays only: it returns, registers
    no listener anywhere and leaves the bounds alone; every vertex set
    and every vertex data set of the mesh is on offer afterwards, with
    the choices there were still in their places; and [refImage] is the
    value there was, or [found] if there was none. *)
Theorem init_parent (found : option Overlay) (vs : VertexSets) (w : World) :
  per_vertex_mesh (mesh w) →
  ∃ vs' w', init invert mesh_vertexSets false found vs w = ((vs', w'), None)
        ∧ overlayList w' = overlayList w
        ∧ displayCtx w' = displayCtx w
        ∧ bounds (self w') = bounds (self w)
        ∧ vertexSet vs' = vertexSet vs
        ∧ vertexSet_choices vs ⊆ vertexSet_choices vs'
        ∧ mesh_vertexSets (mesh w) ⊆ vertexSet_choices vs'
        ∧ vertexData_choices (self w) ⊆ vertexData_choices (self w')
        ∧ (∀ path, path ∈ Mesh.vertexDataSets (mesh w) →
                   Some path ∈ vertexData_choices (self w'))
        ∧ modulateData_choices (self w') = vertexData_choices (self w')
        ∧ refImage (self w')
          = match refImage (self w) with Some ref => Some ref | None => found end.
Proof.
  intros Hmesh. unfold init, init_listeners.
  set (w0 := upd_self (set_registered false) (upd_self _ w)).
  assert (H0 : refImage (self w0) = refImage (self w)
               ∧ displayCtx w0 = displayCtx w ∧ mesh w0 = mesh w
               ∧ overlayList w0 = overlayList w
               ∧ bounds (self w0) = bounds (self w)
               ∧ vertexData_choices (self w0) = vertexData_choices (self w)
               ∧ registered (self w0) = false)
    by (by destruct w as [[] ?]).
  destruct H0 as (Hr0 & Hdc0 & Hm0 & Hol0 & Hb0 & Hc0 & Hreg0).
  rewrite Hreg0. cbn [negb].
  set (vs' := addVertexSetOptions _ vs).
  set (wa := upd_self _ w0).
  destruct (addVertexDataOptions_choices (Mesh.vertexDataSets (mesh w0)) (self w0))
    as (Hvc & Hmc).
  assert (Ha : refImage (self wa) = refImage (self w0)
               ∧ displayCtx wa = displayCtx w0 ∧ mesh wa = mesh w0
               ∧ overlayList wa = overlayList w0
               ∧ bounds (self wa) = bounds (self w0)
               ∧ registered (self wa) = false
               ∧ self wa = addVertexDataOptions (Mesh.vertexDataSets (mesh w0)) (self w0)).
  { subst wa. destruct w0 as [[] ?]. cbn in *. by subst. }
  destruct Ha as (Hra & Hdca & Hma & Hola & Hba & Hrega & Hsa).
  rewrite Hsa in Hra, Hba, Hrega.
  destruct (init_vdata_inv wa) as (_ & Hret & _ & Hfb & Hdcb & Holb & _).
  destruct (init_vdata wa) as [wb eb]. cbn [fst snd] in *.
  rewrite Hret by (by rewrite Hma, Hm0).
  apply vdata_frame_proj in Hfb
    as (_ & _ & Hregb & Hrb & _ & _ & Hbb & _ & _ & _ & Hvb & Hmb).
  destruct (init_refImage_inv found wb) as (wc & -> & Hrc & _ & Hfc & _ & _ & Holc & Hun).
  destruct Hun as (Hdcc & Hbc); [by rewrite Hregb, Hsa|].
  apply ref_frame_proj in Hfc as (_ & _ & _ & _ & _ & _ & Hvcc & Hmcc & _).
  destruct (addVertexSetOptions_choices (mesh_vertexSets (mesh w0)) vs) as (Hvs & Hvsc).
  exists vs', wc. split; [done|].
  rewrite Hvcc, Hmcc, Hvb, Hmb, Hsa, Hmc, Hvc, Hc0, Hm0.
  split_and!.
  - by rewrite Holc, Holb, Hola.
  - by rewrite Hdcc, Hdcb, Hdca.
  - by rewrite Hbc, Hbb, Hsa, Hba.
  - done.
  - subst vs'. rewrite Hvsc. intros x Hx. apply elem_of_app. by left.
  - subst vs'. rewrite Hvsc, Hm0. intros x Hx. apply elem_of_app.
    destruct (decide (x ∈ vertexSet_choices vs)); [by left|right].
    by apply list_elem_of_filter.
  - intros x Hx. apply elem_of_app. by left.
  - intros path Hp. apply elem_of_app.
    destruct (decide (Some path ∈ vertexData_choices (self w))); [by left|right].
    apply list_elem_of_filter. split; [done|]. by apply list_elem_of_fmap_2.
  - done.
  - by rewrite Hrc, Hrb, Hsa, Hra.
Qed.

End Constructor.

Lemma init_child_witness :
  ∃ w', init Example.invert Scene.mesh_vertexSets true (Some Example.t1)
          Scene.vertexSets Scene.unborn = ((Scene.vertexSets, w'), None)
        ∧ wired Example.invert w'
        ∧ refImage (self w') = Some Example.t1.
Proof.
  destruct (init_child Example.invert Scene.mesh_vertexSets (Some Example.t1)
              Scene.vertexSets Scene.unborn)
    as (w' & H & Hw & _ & _ & _ & Hr & _).
  - apply (bool_decide_unpack (Example.surface ∈ [Example.t1; Example.surface])).
    vm_compute. reflexivity.
  - exact per_vertex_example.
  - apply (bool_decide_unpack
             (Some Example.t1
              ∈ None :: (Some <$> filter (λ o, isNifti o = true)
                                    [Example.t1; Example.surface]))).
    vm_compute. reflexivity.
  - exists w'. split; [exact H|]. split; [exact Hw|]. exact Hr.
Defined.

Lemma init_parent_witness :
  ∃ vs' w', init Example.invert Scene.mesh_vertexSets false (Some Example.t1)
              Scene.vertexSets Scene.unborn = ((vs', w'), None)
            ∧ Some "lh.white" ∈ vertexSet_choices vs'
            ∧ refImage (self w') = Some Example.t1.
Proof.
  destruct (init_parent Example.invert Scene.mesh_vertexSets (Some Example.t1)
              Scene.vertexSets Scene.unborn per_vertex_example)
    as (vs' & w' & H & _ & _ & _ & _ & _ & Hvs & _ & _ & _ & Hr).
  exists vs', w'. split; [exact H|]. split; [|exact Hr].
  apply Hvs. apply (bool_decide_unpack (Some "lh.white" ∈ [Some "lh.pial"; Some "lh.white"])).
  vm_compute. reflexivity.
Defined.

Section Invariant.

Variable invert : mat4 → mat4.

(** X27. Being wired up is an invariant of a child instance.  From a
    wired state, the callback on the overlay list, an assignment of any
    value to [refImage], a change of [vertexData] or [modulateData] and
    [addVertexData] all leave the instance wired; and once [coordSpace]
    has been given any value, the callback on it puts the bounds back
    in sync and the instance is wired again. *)
Theorem wired_invariant (w : World) :
  wired invert w →
  (∃ w', overlayListChanged invert w = Ok w' ∧ wired invert w')
  ∧ (∀ v, ∃ w', assign_refImage invert v w = Ok w'
                ∧ refImage (self w') = v ∧ wired invert w')
  ∧ (∀ cs, ∃ w', coordSpaceChanged invert (upd_self (set_coordSpace cs) w) = Ok w'
                 ∧ coordSpace (self w') = cs ∧ wired invert w')
  ∧ (∀ value name, wired invert (vdataChanged value name w).1)
  ∧ (∀ key data k w', addVertexData key data w = Some (k, w') → wired invert w').
Proof.
  intros Hw. split_and!.
  - destruct (overlayListChanged_frames invert w) as (w' & H & Hw' & _). eauto.
  - intros v. destruct (assign_refImage_frames invert v w) as (w' & H & Hv & Hw' & _).
    eauto.
  - intros cs. unfold coordSpaceChanged.
    destruct (updateBounds_frames invert (upd_self (set_coordSpace cs) w))
      as (w' & -> & Hsync & Hf & Hr & _ & Ho & _ & _ & _ & Hdc).
    exists w'. split; [done|].
    apply ref_frame_proj in Hf as (Hn & _ & Hreg & Hcs & _).
    destruct Hw as (Hreg0 & _ & Hold & Hl).
    split; [by rewrite Hcs; destruct w as [[] ?]|].
    unfold wired. rewrite Hreg, Ho, Hr, Hn, Hdc.
    split_and!; try done; by destruct w as [[] ?].
  - intros value name. by apply vdataChanged_wired.
  - intros key data k w' H.
    apply addVertexData_inv in H as (_ & Hm & Hs & Hdc & _ & Hi & _).
    destruct Hw as (Hreg & Hsync & Hold & Hl).
    unfold wired. rewrite Hs, Hdc.
    split_and!; try (by destruct (self w)).
    eapply bounds_in_sync_ext; [..|exact Hsync];
      rewrite ?Hs, ?Hm, ?Hdc, ?Hi; by destruct (self w).
Qed.

End Invariant.

(** ** The statements on the scene *)

Lemma wired_invariant_witness :
  ∃ w0 w', refImageChanged Example.invert Example.world = Ok w0
           ∧ wired Example.invert w0
           ∧ assign_refImage Example.invert None w0 = Ok w'
           ∧ refImage (self w') = None
           ∧ wired Example.invert w'.
Proof.
  destruct (refImageChanged_frames Example.invert Example.world)
    as (w0 & H0 & Hs & Ho & Hl & Hf & _).
  assert (Hw : wired Example.invert w0).
  { split; [|split; [exact Hs|split; [exact Ho|exact Hl]]].
    apply ref_frame_proj in Hf as (_ & _ & Hreg & _). rewrite Hreg. reflexivity. }
  destruct (wired_invariant Example.invert w0 Hw) as (_ & Ha & _).
  destruct (Ha None) as (w' & H' & Hr & Hw').
  exists w0, w'.
  split; [exact H0|]. split; [exact Hw|]. split; [exact H'|]. split; [exact Hr|exact Hw'].
Defined.

Lemma refImageChanged_listens_on_refImage_witness :
  ∃ w', refImageChanged Example.invert Scene.retargeted = Ok w'
        ∧ "MeshOpts_1" ∈ transform_listeners (displayCtx w') Example.t1
        ∧ "MeshOpts_1" ∉ transform_listeners (displayCtx w') Example.flair.
Proof.
  destruct (refImageChanged_listens_on_refImage Example.invert Scene.retargeted)
    as (w' & H & _ & _ & Hon & Hoff).
  exists w'. split; [exact H|]. split.
  - apply (Hon Example.t1). reflexivity.
  - apply (Hoff Example.flair).
    + reflexivity.
    + apply (bool_decide_unpack
               (Example.flair ∈ [Example.t1; Example.surface; Example.flair])).
      vm_compute. reflexivity.
    + discriminate.
Defined.

Lemma refImageChanged_other_listeners_witness :
  ∃ w', refImageChanged Example.invert Scene.retargeted = Ok w'
        ∧ transform_listeners (displayCtx w') Example.surface
          = transform_listeners (displayCtx Scene.retargeted) Example.surface
        ∧ ("OrthoPanel" ∈ transform_listeners (displayCtx w') Example.flair
           ↔ "OrthoPanel" ∈ transform_listeners (displayCtx Scene.retargeted) Example.flair).
Proof.
  destruct (refImageChanged_other_listeners Example.invert Scene.retargeted)
    as (w' & H & Hsame & Hother).
  exists w'. split; [exact H|]. split.
  - apply Hsame; [discriminate|]. left. discriminate.
  - apply Hother. discriminate.
Defined.

Lemma overlayListChanged_keeps_refImage_valid_witness :
  ∃ w', overlayListChanged Example.invert Example.world = Ok w'
        ∧ refImage (self w') ∈ refImage_choices (self w')
        ∧ "MeshOpts_1" ∈ name_listeners (displayCtx w') Example.t1.
Proof.
  destruct (overlayListChanged_keeps_refImage_valid Example.invert Example.world)
    as (w' & H & Hv & Hl & _).
  - apply (bool_decide_unpack (Example.surface ∈ [Example.t1; Example.surface])).
    vm_compute. reflexivity.
  - exists w'. split; [exact H|]. split; [exact Hv|].
    apply (Hl Example.t1); [|reflexivity].
    apply (bool_decide_unpack (Example.t1 ∈ [Example.t1; Example.surface])).
    vm_compute. reflexivity.
Defined.

Lemma overlayListChanged_drops_refImage_witness :
  ∃ w', overlayListChanged Example.invert Example.world_swapped = Ok w'
        ∧ refImage (self w') = None
        ∧ oldRefImage (self w') = None
        ∧ bounds_in_sync Example.invert w'.
Proof.
  apply (overlayListChanged_drops_refImage Example.invert Example.world_swapped Example.t1).
  - reflexivity.
  - apply (bool_decide_unpack (Example.surface ∈ [Example.surface; Example.flair])).
    vm_compute. reflexivity.
  - reflexivity.
  - left. apply (bool_decide_unpack (Example.t1 ∉ [Example.surface; Example.flair])).
    vm_compute. reflexivity.
Defined.

Lemma overlayListChanged_idempotent_witness :
  ∃ w1 w2, overlayListChanged Example.invert Example.world = Ok w1
           ∧ overlayListChanged Example.invert w1 = Ok w2
           ∧ self w2 = self w1
           ∧ calls w2 = calls w1.
Proof.
  destruct (overlayListChanged Example.invert Example.world) as [w1|e] eqn:H;
    [|by vm_compute in H].
  destruct (overlayListChanged_idempotent Example.invert Example.world w1)
    as (w2 & H2 & Hs & Hc & _).
  - apply (bool_decide_unpack (Example.surface ∈ [Example.t1; Example.surface])).
    vm_compute. reflexivity.
  - exact H.
  - exists w1, w2. by split_and!.
Defined.

Lemma vdataChanged_frame_witness :
  mesh_vertexData
    (mesh (vdataChanged (Some "lh.thickness") "vertexData" Example.world_data).1)
    !! "thickness" = Some Example.thickness.
Proof.
  destruct (vdataChanged_frame (Some "lh.thickness") "vertexData" Example.world_data)
    as (_ & _ & _ & _ & _ & _ & _ & Hk).
  rewrite Hk; [reflexivity|]. exists Example.thickness. reflexivity.
Defined.

Lemma vdataChanged_updateDataRange_witness :
  calls (vdataChanged (Some "lh.thickness") "vertexData" Example.world).1
  = [UpdateDataRange true true true].
Proof.
  destruct (vdataChanged_updateDataRange (Some "lh.thickness") Example.world)
    as (_ & _ & Hret & _).
  rewrite Hret; [reflexivity|]. vm_compute. reflexivity.
Defined.

Lemma vdataChanged_stores_columns_witness :
  ∃ stored,
    getVertexData "vertex"
      (self (vdataChanged (Some "lh.thickness") "vertexData" Example.world).1)
    = Some stored
    ∧ shape stored = [3; 1]
    ∧ flat stored = flat Example.thickness.
Proof.
  destruct (vdataChanged_stores_columns Example.world "lh.thickness" "vertexData" "vertex"
              Example.thickness
              (Mesh.addVertexData "lh.thickness" Example.thickness (mesh Example.world))
              (Num (Example.q (-1))) (Num (Example.q 3)))
    as (stored & H & _ & Hflat & Hshape & _).
  - left. split; reflexivity.
  - vm_compute. reflexivity.
  - vm_compute. reflexivity.
  - vm_compute. reflexivity.
  - exists stored. split; [exact H|]. split; [|exact Hflat].
    apply Hshape. reflexivity.
Defined.

Lemma vdataChanged_empty_data_witness :
  (vdataChanged (Some "nothing") "vertexData" Scene.hollow).2 = None
  ∧ getVertexData "vertex"
      (self (vdataChanged (Some "nothing") "vertexData" Scene.hollow).1) = None
  ∧ getDataRange (self (vdataChanged (Some "nothing") "vertexData" Scene.hollow).1)
    = (Num 0, Num 1).
Proof.
  destruct (vdataChanged_empty_data Scene.hollow "nothing" (mkArray [0] [])
              (mesh Scene.hollow))
    as (Hret & Hdata & Hrange & _).
  - vm_compute. reflexivity.
  - reflexivity.
  - by split_and!.
Defined.

Lemma addVertexDataOptions_extends_witness :
  Some "lh.curv" ∈ vertexData_choices
                     (addVertexDataOptions ["lh.thickness"; "lh.curv"] Example.opts).
Proof.
  destruct (addVertexDataOptions_extends ["lh.thickness"; "lh.curv"] Example.opts)
    as (_ & _ & Hin).
  apply Hin. apply (bool_decide_unpack ("lh.curv" ∈ ["lh.thickness"; "lh.curv"])).
  vm_compute. reflexivity.
Defined.

Lemma addVertexData_preserves_witness :
  ∃ k w', addVertexData "thickness" Example.thickness Example.world_data = Some (k, w')
          ∧ mesh_vertexData (mesh w') !! "thickness" = Some Example.thickness
          ∧ bounds (self w') = bounds (self Example.world_data).
Proof.
  destruct (addVertexData "thickness" Example.thickness Example.world_data)
    as [[k w']|] eqn:H; [|by vm_compute in H].
  destruct (addVertexData_preserves _ _ _ _ _ H) as (Hk & _ & _ & Hb).
  exists k, w'. split; [done|]. split; [|exact Hb].
  rewrite Hk; [reflexivity|]. exists Example.thickness. reflexivity.
Defined.

Lemma addVertexData_twice_witness :
  ∃ k1 k2 w1 w2,
    addVertexData "thickness" Example.thickness Example.world = Some (k1, w1)
    ∧ addVertexData "thickness" Example.thickness w1 = Some (k2, w2)
    ∧ k1 ≠ k2.
Proof.
  destruct (addVertexData "thickness" Example.thickness Example.world)
    as [[k1 w1]|] eqn:H1; [|by vm_compute in H1].
  destruct (addVertexData "thickness" Example.thickness w1) as [[k2 w2]|] eqn:H2.
  - destruct (addVertexData_twice _ _ _ _ _ _ _ _ H1 H2) as (Hne & _).
    exists k1, k2, w1, w2. by split_and!.
  - exfalso. vm_compute in H1. injection H1 as <- <-. by vm_compute in H2.
Defined.
